(** * The request-execution core of the twitter bot, embedded in Rocq

    The development follows three source files:
    - [src/utils/proxy.ts]      the class [ProxyManager];
    - [src/utils/auth.ts]       [CT0_OVERRIDES], [fetchCSRFToken],
                                [generateFallbackCT0], [parseAuthToken];
    - [src/utils/httpClient.ts] the class [TwitterClient]: [getCSRFToken],
                                [makeRequest], [isRetryableError],
                                [isBotDetected], [isDuplicateError];
    and, around them, [getBaseHeaders] of [src/utils/headers.ts] and the two
    random choices of the campaign, [randomDelay] and [getRandomTemplate].

    Conventions of the embedding.
    - A JavaScript [Map] whose iteration order is observed ([proxyHealth]) is
      an insertion-ordered association list; the other maps are [gmap]s.
    - Objects compared with [===] ([ProxyAgent]) carry an allocation number;
      the manager's state records the next free one.
    - [new Date()] is an explicit argument [now], in milliseconds; the clock is
      read once per synchronous call.
    - [Math.random()] is an explicit argument, a fraction in the unit interval.
    - Code that can throw returns a [Completion].
    - An object literal read with [o[name]] answers with its own properties
      and, for the names [Object.prototype] defines, with what it inherits;
      a value read that way is a [Js.Value]: a string, or not a string. *)

From Stdlib Require Import ZArith Ascii String List Bool Lia.
From Stdlib Require Hexadecimal HexadecimalString.
From stdpp Require Import gmap strings list.

Local Open Scope Z_scope.
#[local] Set Warnings "-clear-no-such-hyp".

(** ** JavaScript strings *)

Module Js.

(** [s.startsWith(p)] *)
Fixpoint startsWith (p s : string) : bool :=
  match p, s with
  | EmptyString, _ => true
  | String a p', String b s' => if Ascii.eqb a b then startsWith p' s' else false
  | String _ _, EmptyString => false
  end.

(** [s.includes(p)] *)
Fixpoint includes (p s : string) : bool :=
  startsWith p s ||
  match s with
  | EmptyString => false
  | String _ s' => includes p s'
  end.

(** The characters [String.prototype.trim] removes and [\s] matches, as far
    as they exist in an 8-bit string. *)
Definition is_space (c : ascii) : bool := Ascii.is_space c.

Fixpoint trimStart (s : string) : string :=
  match s with
  | String c s' => if is_space c then trimStart s' else s
  | EmptyString => EmptyString
  end.

(** [s.trim()] *)
Definition trim (s : string) : string :=
  String.rev (trimStart (String.rev (trimStart s))).

(** [s.split(sep)] for a separator of one character.  The result is never
    empty: the empty string splits into one empty field. *)
Fixpoint split_go (sep : ascii) (cur : string) (s : string) : list string :=
  match s with
  | EmptyString => [String.rev cur]
  | String c s' =>
      if Ascii.eqb c sep
      then String.rev cur :: split_go sep EmptyString s'
      else split_go sep (String c cur) s'
  end.
Definition split (sep : ascii) (s : string) : list string :=
  split_go sep EmptyString s.

(** A string used as a condition: only the empty string is falsy. *)
Definition truthy (s : string) : bool := negb (String.eqb s "").

(** [`${x}`] for a value that may be [undefined]. *)
Definition show (x : option string) : string :=
  match x with Some s => s | None => "undefined" end.

(** A value of [Math.random()]: the fraction [rnum / rden]. *)
Record Rand01 := mkRand { rnum : nat; rden : nat }.

Definition rand_valid (r : Rand01) : Prop := (rnum r < rden r)%nat.

(** [Math.floor(Math.random() * n)] *)
Definition floor_mul (r : Rand01) (n : nat) : nat := (rnum r * n / rden r)%nat.

(** What a call leaves behind: a value, or a thrown error. *)
Inductive Completion (E A : Type) : Type :=
| Normal (a : A)
| Throw (e : E).
Global Arguments Normal {E A} a.
Global Arguments Throw {E A} e.

(** A value that the code takes for a string: a string, or the function or
    object that [Object.prototype] holds under [name]. *)
Inductive Value :=
| Str (s : string)
| Builtin (name : string).

(** A value used as a condition: functions and objects are truthy. *)
Definition truthyValue (v : Value) : bool :=
  match v with
  | Str s => truthy s
  | Builtin _ => true
  end.

(** The names [Object.prototype] defines.  Under each of them a plain object
    without a property of its own answers with a function or, for
    [__proto__], with the prototype itself. *)
Definition prototypeNames : list string :=
  ["constructor"; "__defineGetter__"; "__defineSetter__"; "hasOwnProperty";
   "__lookupGetter__"; "__lookupSetter__"; "isPrototypeOf"; "propertyIsEnumerable";
   "toString"; "valueOf"; "__proto__"; "toLocaleString"].

(** An object written as a literal with string values: its own properties. *)
Abbreviation PlainObject := (gmap string string).

(** [o[name]]; [None] is [undefined]. *)
Definition get (o : PlainObject) (name : string) : option Value :=
  match o !! name with
  | Some s => Some (Str s)
  | None => if bool_decide (name ∈ prototypeNames) then Some (Builtin name) else None
  end.

End Js.

Global Instance Value_eq_dec : EqDecision Js.Value.
Proof. solve_decision. Defined.

(** A string is used as a value without further notice. *)
Coercion Js.Str : string >-> Js.Value.

(** ** [src/utils/proxy.ts] *)

(** The fields are what the destructuring [[user, pass, host, port] =
    line.split(':')] leaves in them: a missing field is [undefined]. *)
Record ProxyConfig := mkProxyConfig {
  user : option string;
  pass : option string;
  host : option string;
  port : option string
}.

Global Instance ProxyConfig_eq_dec : EqDecision ProxyConfig.
Proof. solve_decision. Defined.

(** An [undici] [ProxyAgent]: the URL it was constructed with and the number of
    its allocation, which stands for the object's identity. *)
Record ProxyAgent := mkAgent {
  agent_id : nat;
  agent_url : string
}.

Global Instance ProxyAgent_eq_dec : EqDecision ProxyAgent.
Proof. solve_decision. Defined.

(** [a === b] on agents *)
Definition same_agent (a b : ProxyAgent) : bool := Nat.eqb (agent_id a) (agent_id b).

Record ProxyHealth := mkHealth {
  agent : ProxyAgent;
  failures : Z;
  lastFailure : option Z;
  lastSuccess : option Z;
  isHealthy : bool
}.

Inductive RotationMode := sticky | random | round_robin.

Global Instance RotationMode_eq_dec : EqDecision RotationMode.
Proof. solve_decision. Defined.

(** The [Map<string, ProxyHealth>], in insertion order. *)
Definition HealthMap := list (string * ProxyHealth).

Fixpoint health_get (url : string) (m : HealthMap) : option ProxyHealth :=
  match m with
  | [] => None
  | (k, h) :: m' => if String.eqb k url then Some h else health_get url m'
  end.

(** [Map.prototype.set]: an existing key keeps its place, a new key goes last.
    Writing a field of a stored record is the same operation. *)
Fixpoint health_set (url : string) (h : ProxyHealth) (m : HealthMap) : HealthMap :=
  match m with
  | [] => [(url, h)]
  | (k, h0) :: m' =>
      if String.eqb k url then (k, h) :: m' else (k, h0) :: health_set url h m'
  end.

Record ProxyManager := mkManager {
  proxyMap : gmap string ProxyAgent;
  proxies : list ProxyConfig;
  proxyHealth : HealthMap;
  currentIndex : nat;
  rotationMode : RotationMode;
  maxFailures : Z;
  healthCheckInterval : Z;
  (** not a field of the class: the number the next [new ProxyAgent] gets *)
  nextAgent : nat
}.

Definition with_proxyMap (pm : ProxyManager) (m : gmap string ProxyAgent) : ProxyManager :=
  mkManager m (proxies pm) (proxyHealth pm) (currentIndex pm) (rotationMode pm)
    (maxFailures pm) (healthCheckInterval pm) (nextAgent pm).

Definition with_proxies (pm : ProxyManager) (ps : list ProxyConfig) : ProxyManager :=
  mkManager (proxyMap pm) ps (proxyHealth pm) (currentIndex pm) (rotationMode pm)
    (maxFailures pm) (healthCheckInterval pm) (nextAgent pm).

Definition with_proxyHealth (pm : ProxyManager) (m : HealthMap) : ProxyManager :=
  mkManager (proxyMap pm) (proxies pm) m (currentIndex pm) (rotationMode pm)
    (maxFailures pm) (healthCheckInterval pm) (nextAgent pm).

Definition with_currentIndex (pm : ProxyManager) (i : nat) : ProxyManager :=
  mkManager (proxyMap pm) (proxies pm) (proxyHealth pm) i (rotationMode pm)
    (maxFailures pm) (healthCheckInterval pm) (nextAgent pm).

Definition with_rotationMode (pm : ProxyManager) (r : RotationMode) : ProxyManager :=
  mkManager (proxyMap pm) (proxies pm) (proxyHealth pm) (currentIndex pm) r
    (maxFailures pm) (healthCheckInterval pm) (nextAgent pm).

Definition with_nextAgent (pm : ProxyManager) (n : nat) : ProxyManager :=
  mkManager (proxyMap pm) (proxies pm) (proxyHealth pm) (currentIndex pm)
    (rotationMode pm) (maxFailures pm) (healthCheckInterval pm) n.

(** [new ProxyManager(rotationMode, maxFailures, healthCheckInterval)] *)
Definition newProxyManager (mode : RotationMode) (maxF interval : Z) : ProxyManager :=
  mkManager ∅ [] [] 0%nat mode maxF interval 0%nat.

(** [new ProxyManager()] *)
Definition defaultProxyManager : ProxyManager := newProxyManager sticky 3 300.

(** *** loadProxies *)

(** One non-empty line of the file, destructured. *)
Definition parseLine (line : string) : ProxyConfig :=
  let fields := Js.split ":" line in
  mkProxyConfig (fields !! 0%nat) (fields !! 1%nat) (fields !! 2%nat) (fields !! 3%nat).

(** [content.split('\n').map(trim).filter(nonempty).map(destructure)] *)
Definition parseProxies (content : string) : list ProxyConfig :=
  map parseLine
    (filter (λ line, (0 <? String.length line)%nat = true)
       (map Js.trim (Js.split "010" content))).

(** The callback of [allProxies.filter]: [Normal true] keeps the entry,
    [Normal false] skips it.  Reading [proxy.host.includes] of an entry whose
    host is [undefined] throws a [TypeError]. *)
Definition keepProxy (proxy : ProxyConfig) : Js.Completion unit bool :=
  match host proxy with
  | None => Js.Throw tt
  | Some h =>
      if Js.includes "example.com" h
         || Js.includes "example" h
         || String.eqb h "localhost"
         || String.eqb h "127.0.0.1"
         || negb (Js.truthy h)
         || negb (match port proxy with Some p => Js.truthy p | None => false end)
      then Js.Normal false
      else Js.Normal true
  end.

(** [Array.prototype.filter] with a callback that may throw. *)
Fixpoint filterProxies (l : list ProxyConfig) : Js.Completion unit (list ProxyConfig) :=
  match l with
  | [] => Js.Normal []
  | p :: l' =>
      match keepProxy p with
      | Js.Throw e => Js.Throw e
      | Js.Normal b =>
          match filterProxies l' with
          | Js.Throw e => Js.Throw e
          | Js.Normal r => Js.Normal (if b then p :: r else r)
          end
      end
  end.

(** [loadProxies]: [file] is the result of [fs.readFile], [None] when it
    rejects.  Every exception of the [try] block ends in the [catch] clause,
    which empties the pool. *)
Definition loadProxies (pm : ProxyManager) (file : option string) : ProxyManager :=
  match file with
  | None => with_proxies pm []
  | Some content =>
      match filterProxies (parseProxies content) with
      | Js.Normal ps => with_proxies pm ps
      | Js.Throw _ => with_proxies pm []
      end
  end.

(** *** Health records *)

(** [`http://${user}:${pass}@${host}:${port}`] *)
Definition getProxyUrl (proxy : ProxyConfig) : string :=
  "http://" +:+ Js.show (user proxy) +:+ ":" +:+ Js.show (pass proxy) +:+ "@"
    +:+ Js.show (host proxy) +:+ ":" +:+ Js.show (port proxy).

(** [secondsSinceFailure < this.healthCheckInterval], with
    [secondsSinceFailure = (now - lastFailure) / 1000] an exact quotient. *)
Definition inCooldown (now lastF interval : Z) : bool :=
  now - lastF <? interval * 1000.

(** The callback of [this.proxies.filter] in [getHealthyProxies]; it writes the
    record it promotes. *)
Definition checkHealthy (now interval : Z) (m : HealthMap) (proxy : ProxyConfig)
  : HealthMap * bool :=
  let proxyUrl := getProxyUrl proxy in
  match health_get proxyUrl m with
  | None => (m, true)
  | Some health =>
      if negb (isHealthy health) then
        if match lastFailure health with
           | Some lf => inCooldown now lf interval
           | None => false
           end
        then (m, false)
        else
          (health_set proxyUrl
             (mkHealth (agent health) 0 (lastFailure health) (lastSuccess health) true) m,
           true)
      else (m, isHealthy health)
  end.

(** [this.proxies.filter(...)], the map threaded through the callbacks. *)
Fixpoint filterHealthy (now interval : Z) (m : HealthMap) (l : list ProxyConfig)
  : HealthMap * list ProxyConfig :=
  match l with
  | [] => (m, [])
  | p :: l' =>
      let '(m1, keep) := checkHealthy now interval m p in
      let '(m2, r) := filterHealthy now interval m1 l' in
      (m2, if keep then p :: r else r)
  end.

(** [getHealthyProxies] *)
Definition getHealthyProxies (pm : ProxyManager) (now : Z)
  : ProxyManager * list ProxyConfig :=
  let '(m, l) := filterHealthy now (healthCheckInterval pm) (proxyHealth pm) (proxies pm) in
  (with_proxyHealth pm m, l).

(** [getOrCreateAgent]: the agent of a record marked healthy, or a new agent
    in a new record, which replaces an old one under the same URL. *)
Definition getOrCreateAgent (pm : ProxyManager) (now : Z) (proxy : ProxyConfig)
  : ProxyManager * ProxyAgent :=
  let proxyUrl := getProxyUrl proxy in
  let create :=
    let a := mkAgent (nextAgent pm) proxyUrl in
    (with_nextAgent
       (with_proxyHealth pm
          (health_set proxyUrl (mkHealth a 0 None (Some now) true) (proxyHealth pm)))
       (S (nextAgent pm)),
     a) in
  match health_get proxyUrl (proxyHealth pm) with
  | Some health => if isHealthy health then (pm, agent health) else create
  | None => create
  end.

(** [markProxyFailed] and [markProxySuccess] write the record of the URL, when
    there is one. *)
Definition markProxyFailed (pm : ProxyManager) (now : Z) (proxyUrl : string) : ProxyManager :=
  match health_get proxyUrl (proxyHealth pm) with
  | Some health =>
      let n := failures health + 1 in
      with_proxyHealth pm
        (health_set proxyUrl
           (mkHealth (agent health) n (Some now) (lastSuccess health)
              (if maxFailures pm <=? n then false else isHealthy health))
           (proxyHealth pm))
  | None => pm
  end.

Definition markProxySuccess (pm : ProxyManager) (now : Z) (proxyUrl : string) : ProxyManager :=
  match health_get proxyUrl (proxyHealth pm) with
  | Some health =>
      with_proxyHealth pm
        (health_set proxyUrl
           (mkHealth (agent health) 0 (lastFailure health) (Some now) true)
           (proxyHealth pm))
  | None => pm
  end.

(** *** Selection *)

(** The [for ... of] loop of the sticky case: the first proxy of the list whose
    health record holds the agent. *)
Fixpoint findProxyOfAgent (m : HealthMap) (existing : ProxyAgent) (l : list ProxyConfig)
  : option ProxyConfig :=
  match l with
  | [] => None
  | p :: l' =>
      match health_get (getProxyUrl p) m with
      | Some health =>
          if same_agent (agent health) existing then Some p
          else findProxyOfAgent m existing l'
      | None => findProxyOfAgent m existing l'
      end
  end.

(** The [round-robin] case, also reached by falling through from [sticky]. *)
Definition roundRobin (pm : ProxyManager) (proxyList : list ProxyConfig)
  : ProxyManager * option ProxyConfig :=
  (with_currentIndex pm (S (currentIndex pm)),
   proxyList !! (currentIndex pm mod length proxyList)%nat).

(** [selectProxyFromList]; the [default] case of the [switch] has no mode to
    reach it. *)
Definition selectProxyFromList (pm : ProxyManager) (proxyList : list ProxyConfig)
    (token : string) (rnd : Js.Rand01) : ProxyManager * option ProxyConfig :=
  match proxyList with
  | [] => (pm, None)
  | _ =>
      match rotationMode pm with
      | sticky =>
          match (if Js.truthy token then proxyMap pm !! token else None) with
          | Some existingAgent =>
              match findProxyOfAgent (proxyHealth pm) existingAgent proxyList with
              | Some p => (pm, Some p)
              | None => roundRobin pm proxyList
              end
          | None => roundRobin pm proxyList
          end
      | round_robin => roundRobin pm proxyList
      | random => (pm, proxyList !! Js.floor_mul rnd (length proxyList))
      end
  end.

(** [selectProxy]: from the healthy proxies or, when there is none, from the
    whole pool. *)
Definition selectProxy (pm : ProxyManager) (token : string) (now : Z) (rnd : Js.Rand01)
  : ProxyManager * option ProxyConfig :=
  let '(pm1, healthyProxies) := getHealthyProxies pm now in
  match healthyProxies with
  | [] =>
      match proxies pm1 with
      | [] => (pm1, None)
      | _ => selectProxyFromList pm1 (proxies pm1) token rnd
      end
  | _ => selectProxyFromList pm1 healthyProxies token rnd
  end.

(** [Array.from(this.proxyHealth.entries()).find(([_, h]) => h.agent === a)?.[0]] *)
Fixpoint findUrlOfAgent (m : HealthMap) (a : ProxyAgent) : option string :=
  match m with
  | [] => None
  | (k, h) :: m' => if same_agent (agent h) a then Some k else findUrlOfAgent m' a
  end.

(** The sticky shortcut at the head of [getProxyForToken]: the cached agent, if
    the map still holds it in a record marked healthy. *)
Definition stickyCached (pm : ProxyManager) (token : string) : option ProxyAgent :=
  match rotationMode pm with
  | sticky =>
      match proxyMap pm !! token with
      | Some cachedAgent =>
          match findUrlOfAgent (proxyHealth pm) cachedAgent with
          | Some proxyUrl =>
              if Js.truthy proxyUrl then
                match health_get proxyUrl (proxyHealth pm) with
                | Some health => if isHealthy health then Some cachedAgent else None
                | None => None
                end
              else None
          | None => None
          end
      | None => None
      end
  | _ => None
  end.

(** [getProxyForToken] *)
Definition getProxyForToken (pm : ProxyManager) (token : string) (now : Z) (rnd : Js.Rand01)
  : ProxyManager * option ProxyAgent :=
  match stickyCached pm token with
  | Some cachedAgent => (pm, Some cachedAgent)
  | None =>
      match proxies pm with
      | [] => (pm, None)
      | _ =>
          let '(pm1, selected) := selectProxy pm token now rnd in
          match selected with
          | None => (pm1, None)
          | Some selectedProxy =>
              let '(pm2, a) := getOrCreateAgent pm1 now selectedProxy in
              (match rotationMode pm2 with
               | sticky => with_proxyMap pm2 (<[token := a]> (proxyMap pm2))
               | _ => pm2
               end,
               Some a)
          end
      end
  end.

(** [getAgent] *)
Definition getAgent := getProxyForToken.

(** [getRandomAgent].  The index [Math.floor(Math.random() * n)] lies below
    [n] for every value of [Math.random()]; the branch for an index out of
    range is there only because [rnd] is an unconstrained fraction. *)
Definition getRandomAgent (pm : ProxyManager) (now : Z) (rnd : Js.Rand01)
  : ProxyManager * option ProxyAgent :=
  let '(pm1, healthyProxies) := getHealthyProxies pm now in
  let pool :=
    match healthyProxies with
    | [] => proxies pm1
    | _ => healthyProxies
    end in
  match pool with
  | [] => (pm1, None)
  | _ =>
      match pool !! Js.floor_mul rnd (length pool) with
      | Some proxy =>
          let '(pm2, a) := getOrCreateAgent pm1 now proxy in (pm2, Some a)
      | None => (pm1, None)
      end
  end.

(** [getProxyUrlForAgent] *)
Definition getProxyUrlForAgent (pm : ProxyManager) (a : ProxyAgent) : option string :=
  findUrlOfAgent (proxyHealth pm) a.

(** [setRotationMode] *)
Definition setRotationMode (pm : ProxyManager) (mode : RotationMode) : ProxyManager :=
  let pm1 := with_rotationMode pm mode in
  match mode with
  | sticky => pm1
  | _ => with_proxyMap pm1 ∅
  end.

(** The value of [getStats]. *)
Record ProxyStats := mkStats {
  total : Z;
  healthy : Z;
  unhealthy : Z
}.

(** [getStats]: the pool is counted after [getHealthyProxies] has run. *)
Definition getStats (pm : ProxyManager) (now : Z) : ProxyManager * ProxyStats :=
  let '(pm1, healthyProxies) := getHealthyProxies pm now in
  let healthy := Z.of_nat (length healthyProxies) in
  (pm1,
   mkStats (Z.of_nat (length (proxies pm1))) healthy
     (Z.of_nat (length (proxies pm1)) - healthy)).

(** ** [src/utils/auth.ts] *)

(** An [Error] as the handlers read it: [message], [code], [cause.message]. *)
Record JsError := mkError {
  message : string;
  code : option string;
  cause : option string
}.

(** [CT0_OVERRIDES]: the object literal, typed [Record<string, string>], with
    its two entries. *)
Definition CT0_OVERRIDES : Js.PlainObject :=
  <["f3d3b05733d06082f7dae6139040be5d3e7cf203" :=
      "8e27de1c58d6d6de0442b58be6a5ca7038045cff2fa3c4b83fbf61286f6452302d424e11b50c8b8d01f6ab26461c380e072cc66e25a8a2d171a4c53bba3a11d06e495e1af7ae9e62bb3cc2fd618f9ed3"]>
  (<["db1e89bcd4b026a20af710915319bb0630dba85e" :=
      "8be1ddade8e8578c569fc0b81bfd85721b5179c743bbbba7c2c2cf3b96da1832615ef7ad668bfa151b52b6142d2a0006a453ec596dc57490a7686507a3ece3f50bba4eb5ed2e575bef565d6aca581ab3"]>
   ∅).

(** A value of [res.headers]: one string, or several. *)
Inductive HeaderValue :=
| HeaderOne (v : string)
| HeaderMany (vs : list string).

(** What the local [http2Fetch] resolves to: the response's header object. *)
Definition Http2Headers := list (string * HeaderValue).

Fixpoint header_lookup (name : string) (h : Http2Headers) : option HeaderValue :=
  match h with
  | [] => None
  | (k, v) :: h' => if String.eqb k name then Some v else header_lookup name h'
  end.

(** [vs.join(', ')] *)
Fixpoint join_comma (vs : list string) : string :=
  match vs with
  | [] => ""
  | [v] => v
  | v :: vs' => v +:+ ", " +:+ join_comma vs'
  end.

(** [response.headers.get(name)] for a lower-case [name] *)
Definition headers_get (h : Http2Headers) (name : string) : option string :=
  match header_lookup name h with
  | Some (HeaderMany vs) => Some (join_comma vs)
  | Some (HeaderOne v) => if Js.truthy v then Some v else None
  | None => None
  end.

Fixpoint takeWhile (f : ascii → bool) (s : string) : string :=
  match s with
  | String c s' => if f c then String c (takeWhile f s') else EmptyString
  | EmptyString => EmptyString
  end.

Fixpoint dropChars (n : nat) (s : string) : string :=
  match n, s with
  | S n', String _ s' => dropChars n' s'
  | _, _ => s
  end.

(** [s.match(/ct0=([^...]+)/)?.[1]]: the leftmost place where [ct0=] is
    followed by a character outside the class [stop], and the longest run of
    such characters from there. *)
Fixpoint matchCt0 (stop : ascii → bool) (s : string) : option string :=
  match s with
  | EmptyString => None
  | String _ s' =>
      if Js.startsWith "ct0=" s then
        match takeWhile (λ c, negb (stop c)) (dropChars 4 s) with
        | EmptyString => matchCt0 stop s'
        | capture => Some capture
        end
      else matchCt0 stop s'
  end.

(** [[^;]] *)
Definition semicolon (c : ascii) : bool := Ascii.eqb c ";".
(** [[^;,\s]] *)
Definition semicolonCommaSpace (c : ascii) : bool :=
  Ascii.eqb c ";" || Ascii.eqb c "," || Js.is_space c.

(** [n.toString(16)] *)
Definition toString16 (n : nat) : string :=
  HexadecimalString.NilZero.string_of_uint (Nat.to_hex_uint n).

(** [generateFallbackCT0]: [draws i] is the value of the [i]-th call of
    [Math.random()]. *)
Definition generateFallbackCT0 (draws : nat → Js.Rand01) : string :=
  foldr (λ i acc, toString16 (Js.floor_mul (draws i) 16) +:+ acc) "" (seq 0 32).

(** What the world answers while a ct0 is derived. *)
Record DerivationEnv := mkDerivationEnv {
  (** the two dynamic imports at the head of the [try] block *)
  moduleLoad : Js.Completion JsError unit;
  (** the answer to [GET /i/api/1.1/onboarding/task/credentials.json] *)
  credentialsResponse : Js.Completion JsError Http2Headers;
  (** the answer to [GET https://twitter.com/] *)
  homeResponse : Js.Completion JsError Http2Headers;
  fallbackDraws : nat → Js.Rand01
}.

Definition credentialsUrl : string :=
  "https://twitter.com/i/api/1.1/onboarding/task/credentials.json".
Definition homeUrl : string := "https://twitter.com/".

(** How a ct0 was obtained; [ct0_value] is what the caller receives: declared
    a string, it is whatever [CT0_OVERRIDES[authToken]] held when the override
    branch was taken. *)
Inductive Ct0Source := FromOverride | FromNetwork | FromFallback.

Record Ct0 := mkCt0 {
  ct0_value : Js.Value;
  ct0_source : Ct0Source;
  (** the requests issued on the way, oldest first *)
  ct0_requests : list string
}.

(** [x || y] on values that are a string, [null] or [undefined] *)
Definition orElse (x y : option string) : option string :=
  match x with
  | Some s => if Js.truthy s then x else y
  | None => y
  end.

(** [CT0_OVERRIDES[authToken]], as the condition of the [if] reads it: the
    value when it is truthy. *)
Definition overrideFor (authToken : string) : option Js.Value :=
  match Js.get CT0_OVERRIDES authToken with
  | Some v => if Js.truthyValue v then Some v else None
  | None => None
  end.

(** The [try] block of [fetchCSRFToken]: the requests it issued, and how it
    ended. *)
Definition fetchCSRFToken_try (authToken : string) (env : DerivationEnv)
  : list string * Js.Completion JsError (Js.Value * Ct0Source) :=
  match overrideFor authToken with
  | Some override => ([], Js.Normal (override, FromOverride))
  | None =>
      match moduleLoad env with
      | Js.Throw e => ([], Js.Throw e)
      | Js.Normal _ =>
          match credentialsResponse env with
          | Js.Throw e => ([credentialsUrl], Js.Throw e)
          | Js.Normal response =>
              let setCookie := headers_get response "set-cookie" in
              match from_option (matchCt0 semicolon) None (orElse setCookie None) with
              | Some t => ([credentialsUrl], Js.Normal (Js.Str t, FromNetwork))
              | None =>
                  let allCookies :=
                    default "" (orElse (orElse setCookie (headers_get response "cookie"))
                                  (Some "")) in
                  match matchCt0 semicolonCommaSpace allCookies with
                  | Some t => ([credentialsUrl], Js.Normal (Js.Str t, FromNetwork))
                  | None =>
                      match homeResponse env with
                      | Js.Throw e => ([credentialsUrl; homeUrl], Js.Throw e)
                      | Js.Normal homeRes =>
                          let homeCookies :=
                            default "" (orElse (headers_get homeRes "set-cookie") (Some "")) in
                          match matchCt0 semicolon homeCookies with
                          | Some t =>
                              ([credentialsUrl; homeUrl], Js.Normal (Js.Str t, FromNetwork))
                          | None =>
                              ([credentialsUrl; homeUrl],
                               Js.Normal (Js.Str (generateFallbackCT0 (fallbackDraws env)),
                                          FromFallback))
                          end
                      end
                  end
              end
          end
      end
  end.

(** The [catch] clause: it logs what it can tell about the error and returns a
    fallback token. *)
Definition fetchCSRFToken_catch (err : JsError) (env : DerivationEnv)
  : Js.Completion JsError (Js.Value * Ct0Source) :=
  Js.Normal (Js.Str (generateFallbackCT0 (fallbackDraws env)), FromFallback).

Definition fetchCSRFToken (authToken : string) (env : DerivationEnv)
  : Js.Completion JsError Ct0 :=
  let '(reqs, body) := fetchCSRFToken_try authToken env in
  match (match body with
         | Js.Normal r => Js.Normal r
         | Js.Throw err => fetchCSRFToken_catch err env
         end) with
  | Js.Normal (t, src) => Js.Normal (mkCt0 t src reqs)
  | Js.Throw e => Js.Throw e
  end.

(** [s.split(sep)] for a separator [sep] of one character or more: the pieces
    between the occurrences of [sep], found from the left and not
    overlapping.  [skip] counts the characters of an occurrence just found
    that are still to be passed over. *)
Fixpoint splitOn_go (sep : string) (skip : nat) (cur : string) (s : string)
  : list string :=
  match s with
  | EmptyString => [String.rev cur]
  | String c s' =>
      match skip with
      | S k => splitOn_go sep k cur s'
      | O =>
          if Js.startsWith sep s
          then String.rev cur :: splitOn_go sep (String.length sep - 1) EmptyString s'
          else splitOn_go sep 0 (String c cur) s'
      end
  end.

Definition splitOn (sep s : string) : list string := splitOn_go sep 0 EmptyString s.

(** [parseAuthToken] ([auth.ts]).  Reading [split] of an [undefined] array
    element would throw a [TypeError]. *)
Definition parseAuthToken (tokenString : string) : Js.Completion unit string :=
  if Js.includes "auth_token=" tokenString then
    match splitOn "auth_token=" tokenString !! 1%nat with
    | Some rest =>
        match Js.split ";" rest !! 0%nat with
        | Some first => Js.Normal (Js.trim first)
        | None => Js.Throw tt
        end
    | None => Js.Throw tt
    end
  else Js.Normal (Js.trim tokenString).

(** ** [src/utils/headers.ts] *)

(** [getBaseHeaders] ([headers.ts]): the header object, in the order of the
    literal.  [clientTransactionId] is what [generateClientTransactionId]
    resolved to, or [generateClientTransactionIdSync] after it. *)
Definition getBaseHeaders (authToken ct0 clientTransactionId : string)
  : list (string * string) :=
  [("authority", "twitter.com");
   ("accept", "*/*");
   ("accept-language", "en-US,en;q=0.9");
   ("authorization",
    "Bearer AAAAAAAAAAAAAAAAAAAAANRILgAAAAAAnNwIzUejRCOuH5E6I8xnZz4puTs%3D1Zv7ttfk8LF81IUq16cHjhLTvJu4FA33AGWWjCpTnA");
   ("content-type", "application/json");
   ("cookie", "auth_token=" +:+ authToken +:+ "; ct0=" +:+ ct0);
   ("origin", "https://twitter.com");
   ("referer", "https://twitter.com/");
   ("sec-ch-ua",
    String.concat (String (ascii_of_nat 34) "")
      [""; "Chromium"; ";v="; "122"; ", "; "Not(A:Brand"; ";v="; "24"; ", ";
       "Google Chrome"; ";v="; "122"; ""]);
   ("sec-ch-ua-mobile", "?0");
   ("sec-ch-ua-platform",
    String.concat (String (ascii_of_nat 34) "") [""; "Linux"; ""]);
   ("sec-fetch-dest", "empty");
   ("sec-fetch-mode", "cors");
   ("sec-fetch-site", "same-origin");
   ("user-agent",
    "Mozilla/5.0 (X11; Linux x86_64) AppleWebKit/537.36 (KHTML, like Gecko) Chrome/122.0.0.0 Safari/537.36");
   ("x-client-transaction-id", clientTransactionId);
   ("x-csrf-token", ct0);
   ("x-twitter-active-user", "yes");
   ("x-twitter-auth-type", "OAuth2Session");
   ("x-twitter-client-language", "en")].

(** ** [src/utils/httpClient.ts] *)

(** One element of the platform's error payload, as the casts in
    [isBotDetected] and [isDuplicateError] type it:
    [{ code?: number; message?: string }], with integers for numbers. *)
Record ApiError := mkApiError {
  err_code : option Z;
  err_message : option string
}.

(** [data.errors], when it is there: an array of errors, or one error. *)
Inductive ErrorsField :=
| ErrorsArray (es : list ApiError)
| ErrorsObject (e : ApiError).

(** [ResponseData.data]: the parsed body, or the text itself when
    [JSON.parse] threw. *)
Inductive ResponseBody :=
| BodyText (s : string)
    (** a string: [typeof] is not ['object'] *)
| BodyScalar
    (** [null], a number or a boolean: falsy, or not an object *)
| BodyObject (errors : option ErrorsField).
    (** an object; [None] when [data.errors] is missing or falsy *)

Record ResponseData := mkResponseData {
  ok : bool;
  status : Z;
  statusText : string;
  headers : list (string * string);
  data : ResponseBody
}.

Record BotDetectionResult := mkBot {
  detected : bool;
  bot_error : option string
}.


(** [Array.isArray(data.errors) ? data.errors : [data.errors]] *)
Definition normalizeErrors (f : ErrorsField) : list ApiError :=
  match f with
  | ErrorsArray es => es
  | ErrorsObject e => [e]
  end.

(** [e.code === n] *)
Definition codeIs (n : Z) (e : ApiError) : bool :=
  match err_code e with
  | Some c => c =? n
  | None => false
  end.

Definition isBotDetected (response : ResponseData) : BotDetectionResult :=
  if status response =? 226 then
    mkBot true (Some "Error 226: Bot detection triggered")
  else
    match status response =? 403, data response with
    | true, BodyObject (Some errors) =>
        if existsb (codeIs 226) (normalizeErrors errors)
        then mkBot true (Some "Error 226: Bot detection triggered")
        else mkBot false None
    | _, _ => mkBot false None
    end.



Record TokenCache := mkTokenCache {
  ct0 : Js.Value;
  cachedAgent : option ProxyAgent;
  useProxy : bool
}.

Record TwitterClient := mkClient {
  proxyManager : ProxyManager;
  tokenCache : gmap string TokenCache
}.

(** [new TwitterClient()] *)
Definition newTwitterClient : TwitterClient := mkClient defaultProxyManager ∅.

(** [initialize] *)
Definition initialize (c : TwitterClient) (file : option string) : TwitterClient :=
  mkClient (loadProxies (proxyManager c) file) (tokenCache c).

(** The log line of [getCSRFToken], [if (!silent) console.log(... what
    .substring(0, 20) ...)]: a value that is not a string has no [substring],
    and calling it throws a [TypeError]. *)
Definition logCt0 (silent : bool) (what : string) (v : Js.Value)
  : Js.Completion JsError unit :=
  if silent then Js.Normal tt
  else
    match v with
    | Js.Str _ => Js.Normal tt
    | Js.Builtin _ =>
        Js.Throw (mkError (what +:+ ".substring is not a function") None None)
    end.

(** [getCSRFToken]: the token, or what was thrown, together with the requests
    the derivation issued.  [now] and [rnd] serve the [getAgent] call of a
    cache miss.  On a miss the cache is written before the line is logged. *)
Definition getCSRFToken (c : TwitterClient) (authToken : string) (silent : bool)
    (env : DerivationEnv) (now : Z) (rnd : Js.Rand01)
  : TwitterClient * Js.Completion JsError Js.Value * list string :=
  match tokenCache c !! authToken with
  | Some cached =>
      match logCt0 silent "cached.ct0" (ct0 cached) with
      | Js.Throw e => (c, Js.Throw e, [])
      | Js.Normal _ => (c, Js.Normal (ct0 cached), [])
      end
  | None =>
      match fetchCSRFToken authToken env with
      | Js.Throw e => (c, Js.Throw e, fst (fetchCSRFToken_try authToken env))
      | Js.Normal r =>
          let '(pm1, a) := getAgent (proxyManager c) authToken now rnd in
          let c1 :=
            mkClient pm1
              (<[authToken := mkTokenCache (ct0_value r) a (bool_decide (a ≠ None))]>
                 (tokenCache c)) in
          match logCt0 silent "ct0" (ct0_value r) with
          | Js.Throw e => (c1, Js.Throw e, ct0_requests r)
          | Js.Normal _ => (c1, Js.Normal (ct0_value r), ct0_requests r)
          end
      end
  end.

Definition codeEq (err : JsError) (c : string) : bool :=
  match code err with
  | Some k => String.eqb k c
  | None => false
  end.

Definition isRetryableError (error : JsError) : bool :=
  Js.includes "ECONNREFUSED" (message error)
  || Js.includes "ENOTFOUND" (message error)
  || Js.includes "timeout" (message error)
  || Js.includes "ETIMEDOUT" (message error)
  || Js.includes "fetch failed" (message error)
  || codeEq error "ENOTFOUND"
  || codeEq error "ECONNREFUSED"
  || codeEq error "ETIMEDOUT"
  || codeEq error "ECONNRESET".

(** The tag the [catch] clause of [makeRequest] puts in front of the error it
    throws. *)
Inductive FailureKind :=
| NetworkError | RequestTimeout | TlsError | ConnectionFailed | RequestFailed.

Definition failureKind (err : JsError) : FailureKind :=
  if Js.includes "ECONNREFUSED" (message err) || Js.includes "ENOTFOUND" (message err)
     || codeEq err "ENOTFOUND" || codeEq err "ECONNREFUSED"
  then NetworkError
  else if Js.includes "timeout" (message err) || codeEq err "ETIMEDOUT"
  then RequestTimeout
  else if Js.includes "certificate" (message err) || Js.includes "SSL" (message err)
          || codeEq err "CERT_HAS_EXPIRED"
  then TlsError
  else if Js.includes "fetch failed" (message err) || String.eqb (message err) "fetch failed"
  then ConnectionFailed
  else RequestFailed.

Definition kindTag (k : FailureKind) : string :=
  match k with
  | NetworkError =>
      "Network error: Cannot connect to Twitter. Check internet connection and DNS. "
  | RequestTimeout =>
      "Request timeout: Request took too long. Try again or check proxy. "
  | TlsError => "SSL/TLS error: Certificate issue. "
  | ConnectionFailed =>
      "Connection failed: Cannot reach Twitter API. This usually means:
- Network connectivity issue (check internet connection)
- DNS resolution failure (check DNS settings)
- Firewall blocking connection
- Proxy configuration issue (if using proxies)
Original error: "
  | RequestFailed => "Request failed: "
  end.

(** The message of the error the [catch] clause throws. *)
Definition failureMessage (err : JsError) : string :=
  let errorMessage :=
    message err
    +:+ match orElse (code err) None with
        | Some k => " (code: " +:+ k +:+ ")"
        | None => ""
        end
    +:+ match cause err with
        | Some m => " (cause: " +:+ m +:+ ")"
        | None => ""
        end in
  kindTag (failureKind err) +:+ errorMessage
  +:+ match failureKind err, cause err with
      | ConnectionFailed, Some m => " (" +:+ m +:+ ")"
      | _, _ => ""
      end.

(** What [fetchFn] resolves to, as far as [makeRequest] reads it. *)
Record FetchResponse := mkFetchResponse {
  r_ok : bool;
  r_status : Z;
  r_statusText : string;
  r_headers : list (string * string);
  (** [await response.text()] *)
  r_text : Js.Completion JsError string;
  (** [JSON.parse] of that text; [None] when it throws *)
  r_json : option ResponseBody
}.

Fixpoint assoc (name : string) (l : list (string * string)) : option string :=
  match l with
  | [] => None
  | (k, v) :: l' => if String.eqb k name then Some v else assoc name l'
  end.

(** What the world contributes to one pass through [makeRequest]. *)
Record Attempt := mkAttempt {
  (** clock and [Math.random()] for the [getAgent] inside [getCSRFToken] *)
  csrfTime : Z;
  csrfDraw : Js.Rand01;
  (** the same for the [getAgent] of [makeRequest] itself *)
  selectTime : Z;
  selectDraw : Js.Rand01;
  (** [await fetchFn(url, fetchOptions)] *)
  fetchResult : Js.Completion JsError FetchResponse;
  (** the clock when the transport call settles *)
  settleTime : Z;
  (** [Math.random()] for [getRandomAgent] *)
  retryDraw : Js.Rand01
}.

(** The options a pass branches on.  The caller's header overrides and body
    travel with the request unchanged and are left out, as are the headers
    [getBaseHeaders] builds around the ct0. *)
Record RequestOptions := mkOptions {
  authToken : string;
  method : option string
}.

(** The request URL; [urlPath] is [pathname + search] of [new URL(url)], or
    [None] when the constructor throws. *)
Record RequestTarget := mkTarget {
  url : string;
  urlPath : option string
}.

(** One transport call, as the outside sees it: the dispatcher ([None] on the
    direct HTTP/2 path), the ct0 handed to [getBaseHeaders] for the cookie and
    CSRF headers, the method. *)
Record Sent := mkSent {
  sent_via : option ProxyAgent;
  sent_ct0 : Js.Value;
  sent_method : string
}.

(** [if (useProxy && agent) { proxyUrl = getProxyUrlForAgent(agent);
    if (proxyUrl) mark(proxyUrl) }] *)
Definition reportOutcome (mark : ProxyManager → Z → string → ProxyManager)
    (pm : ProxyManager) (a : option ProxyAgent) (now : Z) : ProxyManager :=
  match a with
  | Some ag =>
      match orElse (getProxyUrlForAgent pm ag) None with
      | Some proxyUrl => mark pm now proxyUrl
      | None => pm
      end
  | None => pm
  end.

(** The refresh of the cached ct0 from a [set-cookie] header. *)
Definition refreshCt0 (cache : gmap string TokenCache) (token : string)
    (setCookie : option string) : gmap string TokenCache :=
  match orElse setCookie None with
  | Some sc =>
      if Js.includes "ct0=" sc then
        match orElse (matchCt0 semicolon sc) None, cache !! token with
        | Some newCt0, Some entry =>
            <[token := mkTokenCache (Js.Str newCt0) (cachedAgent entry) (useProxy entry)]>
              cache
        | _, _ => cache
        end
      else cache
  | None => cache
  end.

Definition Outcome : Type :=
  TwitterClient * Js.Completion JsError ResponseData * list Sent.

(** [this.tokenCache.get(authToken)!.agent = newAgent], when the entry is
    there. *)
Definition cacheAgent (cache : gmap string TokenCache) (token : string)
    (newAgent : ProxyAgent) : gmap string TokenCache :=
  match cache !! token with
  | Some entry => <[token := mkTokenCache (ct0 entry) (Some newAgent) (useProxy entry)]> cache
  | None => cache
  end.

(** The [catch] clause of [makeRequest], entered with the client [c3], the
    agent and the request of the failed pass, and the error.  [again] stands
    for the call [this.makeRequest(url, options, retryCount + 1, maxRetries)]. *)
Definition catchClause (again : TwitterClient → option Outcome) (c3 : TwitterClient)
    (options : RequestOptions) (agent : option ProxyAgent) (sent : Sent) (att : Attempt)
    (retryCount maxRetries : Z) (err : JsError) : option Outcome :=
  let pm4 := reportOutcome markProxyFailed (proxyManager c3) agent (settleTime att) in
  let raise (pm : ProxyManager) : option Outcome :=
    Some (mkClient pm (tokenCache c3),
          Js.Throw (mkError (failureMessage err) None None), [sent]) in
  match agent with
  | Some failed =>
      if isRetryableError err && (retryCount <? maxRetries) then
        let '(pm5, newAgent) := getRandomAgent pm4 (settleTime att) (retryDraw att) in
        match newAgent with
        | Some new =>
            if negb (same_agent new failed) then
              match again (mkClient pm5
                             (cacheAgent (tokenCache c3) (authToken options) new)) with
              | Some (c', r, sents) => Some (c', r, sent :: sents)
              | None => None
              end
            else raise pm5
        | None => raise pm5
        end
      else raise pm4
  | None => raise pm4
  end.

(** [makeRequest].  Each pass takes one [Attempt] from [script]; the result is
    [None] when the script ends before the call does. *)
Fixpoint makeRequest (c : TwitterClient) (target : RequestTarget)
    (options : RequestOptions) (retryCount maxRetries : Z)
    (env : DerivationEnv) (script : list Attempt) : option Outcome :=
  if negb (Js.truthy (authToken options)) then
    Some (c, Js.Throw (mkError "Auth token required" None None), [])
  else
    match script with
    | [] => None
    | att :: rest =>
        let '(c1, token, _) :=
          getCSRFToken c (authToken options) false env (csrfTime att) (csrfDraw att) in
        match token with
        | Js.Throw e => Some (c1, Js.Throw e, [])
        | Js.Normal csrf =>
            let '(pm2, agent) :=
              getAgent (proxyManager c1) (authToken options) (selectTime att) (selectDraw att) in
            let c2 := mkClient pm2 (tokenCache c1) in
            match urlPath target with
            | None => Some (c2, Js.Throw (mkError "Invalid URL" None None), [])
            | Some path =>
                let sent := mkSent agent csrf (default "GET" (orElse (method options) None)) in
                let again c' :=
                  makeRequest c' target options (retryCount + 1) maxRetries env rest in
                match fetchResult att with
                | Js.Throw err =>
                    catchClause again c2 options agent sent att retryCount maxRetries err
                | Js.Normal response =>
                    let pm3 := reportOutcome markProxySuccess pm2 agent (settleTime att) in
                    let c3 :=
                      mkClient pm3
                        (refreshCt0 (tokenCache c2) (authToken options)
                           (assoc "set-cookie" (r_headers response))) in
                    match r_text response with
                    | Js.Throw err =>
                        catchClause again c3 options agent sent att retryCount maxRetries err
                    | Js.Normal text =>
                        Some (c3,
                              Js.Normal
                                (mkResponseData (r_ok response) (r_status response)
                                   (r_statusText response) (r_headers response)
                                   (default (BodyText text) (r_json response))),
                              [sent])
                    end
                end
            end
        end
    end.

(** ** The campaign ([CampaignSystem]) *)

(** [Math.floor(Math.random() * n)] for an integer [n] of either sign. *)
Definition floor_mulZ (r : Js.Rand01) (n : Z) : Z :=
  Z.of_nat (Js.rnum r) * n / Z.of_nat (Js.rden r).

(** [randomDelay] of the campaign, on integer bounds in milliseconds. *)
Definition randomDelay (rnd : Js.Rand01) (min max : Z) : Z :=
  floor_mulZ rnd (max - min + 1) + min.

(** [getRandomTemplate] *)
Definition getRandomTemplate (rnd : Js.Rand01) (templates : list string) : option string :=
  templates !! Js.floor_mul rnd (length templates).

(** ** The public methods of [ProxyManager] as calls *)

Inductive Call :=
| CallLoadProxies (file : option string)
| CallMarkProxyFailed (now : Z) (proxyUrl : string)
| CallMarkProxySuccess (now : Z) (proxyUrl : string)
| CallGetProxyForToken (token : string) (now : Z) (rnd : Js.Rand01)
| CallGetRandomAgent (now : Z) (rnd : Js.Rand01)
| CallSetRotationMode (mode : RotationMode)
| CallGetStats (now : Z).

(** The state a call leaves, and the agent it returns, if it returns one. *)
Definition exec (pm : ProxyManager) (c : Call) : ProxyManager * option ProxyAgent :=
  match c with
  | CallLoadProxies file => (loadProxies pm file, None)
  | CallMarkProxyFailed now proxyUrl => (markProxyFailed pm now proxyUrl, None)
  | CallMarkProxySuccess now proxyUrl => (markProxySuccess pm now proxyUrl, None)
  | CallGetProxyForToken token now rnd => getProxyForToken pm token now rnd
  | CallGetRandomAgent now rnd => getRandomAgent pm now rnd
  | CallSetRotationMode mode => (setRotationMode pm mode, None)
  | CallGetStats now => (fst (getHealthyProxies pm now), None)
  end.

Fixpoint execAll (pm : ProxyManager) (cs : list Call) : ProxyManager :=
  match cs with
  | [] => pm
  | c :: cs' => execAll (fst (exec pm c)) cs'
  end.

(** The record of [proxyUrl] is there and marked healthy. *)
Definition healthyRecord (pm : ProxyManager) (proxyUrl : string) : bool :=
  match health_get proxyUrl (proxyHealth pm) with
  | Some h => isHealthy h
  | None => false
  end.

(** [proxyUrl] has no record, or one marked healthy: what [getHealthyProxies]
    keeps without looking at the clock. *)
Definition notMarkedDown (m : HealthMap) (proxyUrl : string) : bool :=
  match health_get proxyUrl m with
  | Some h => isHealthy h
  | None => true
  end.

(** Well-formed maps: each record sits under the URL of its agent, no two
    records share a key or an agent, every agent is older than [next], failure
    counts are not negative, and no key is the empty string. *)
Record wfHealth (m : HealthMap) (next : nat) : Prop := mkWf {
  wf_keys : NoDup (fst <$> m);
  wf_ids : NoDup ((λ kh, agent_id (agent (snd kh))) <$> m);
  wf_url : Forall (λ kh, agent_url (agent (snd kh)) = fst kh) m;
  wf_fresh : Forall (λ kh, (agent_id (agent (snd kh)) < next)%nat) m;
  wf_failures : Forall (λ kh, 0 <= failures (snd kh)) m;
  wf_truthy : Forall (λ kh, Js.truthy (fst kh) = true) m
}.

Definition wf (pm : ProxyManager) : Prop :=
  wfHealth (proxyHealth pm) (nextAgent pm).

(** ** The vocabulary of the statements *)

(** *** The response classifier *)



(** *** The pool and its health records *)

(** The hosts the filter names as placeholders: anything containing
    [example], and the two loopback names [localhost] and [127.0.0.1]. *)
Definition placeholderHost (h : string) : Prop :=
  (∃ before after, h = before +:+ "example" +:+ after)
  ∨ h = "localhost" ∨ h = "127.0.0.1".

(** An entry with a host and a port, neither empty, the host no placeholder. *)
Definition validEntry (p : ProxyConfig) : Prop :=
  ∃ h po, host p = Some h ∧ port p = Some po
          ∧ h ≠ "" ∧ po ≠ "" ∧ ¬ placeholderHost h.

(** What the filter decides about a record, and what it writes into it. *)
Definition eligibleRecord (now interval : Z) (h : ProxyHealth) : bool :=
  isHealthy h
  || negb (match lastFailure h with
           | Some lf => inCooldown now lf interval
           | None => false
           end).

Definition promoteRecord (now interval : Z) (h : ProxyHealth) : ProxyHealth :=
  if isHealthy h then h
  else if eligibleRecord now interval h
       then mkHealth (agent h) 0 (lastFailure h) (lastSuccess h) true
       else h.

(** The eligible set of the spec: no record, a healthy record, or a record
    whose cooldown is over. *)
Definition eligible (now interval : Z) (m : HealthMap) (proxyUrl : string) : bool :=
  match health_get proxyUrl m with
  | Some h => eligibleRecord now interval h
  | None => true
  end.

(** The two results of [getHealthyProxies], told apart. *)
Definition promoted (pm : ProxyManager) (now : Z) : ProxyManager :=
  with_proxyHealth pm
    (fst (filterHealthy now (healthCheckInterval pm) (proxyHealth pm) (proxies pm))).

Definition eligibleProxies (pm : ProxyManager) (now : Z) : list ProxyConfig :=
  filter (λ p, eligible now (healthCheckInterval pm) (proxyHealth pm) (getProxyUrl p) = true)
    (proxies pm).

(** Every proxy of the pool is without a record or marked healthy. *)
Definition allUp (pm : ProxyManager) : Prop :=
  Forall (λ p, notMarkedDown (proxyHealth pm) (getProxyUrl p) = true) (proxies pm).

(** The record under [u] is marked healthy and holds the agent [a]. *)
Definition healthyUnder (pm : ProxyManager) (u : string) (a : ProxyAgent) : Prop :=
  ∃ h, health_get u (proxyHealth pm) = Some h
       ∧ same_agent (agent h) a = true ∧ isHealthy h = true.

(** Along the calls [cs], the manager stays in sticky mode and the record
    under [u] stays marked healthy. *)
Fixpoint staysHealthy (pm : ProxyManager) (u : string) (cs : list Call) : Prop :=
  match cs with
  | [] => True
  | c :: cs' =>
      rotationMode (fst (exec pm c)) = sticky
      ∧ healthyRecord (fst (exec pm c)) u = true
      ∧ staysHealthy (fst (exec pm c)) u cs'
  end.

(** Consecutive [markProxyFailed(proxyUrl)] calls, at the given times. *)
Definition markProxyFailedAt (pm : ProxyManager) (proxyUrl : string) (times : list Z)
  : ProxyManager :=
  foldl (λ pm' t, markProxyFailed pm' t proxyUrl) pm times.

(** Consecutive selections, one per request. *)
Fixpoint getProxiesForTokens (pm : ProxyManager) (reqs : list (string * Z * Js.Rand01))
  : ProxyManager * list (option ProxyAgent) :=
  match reqs with
  | [] => (pm, [])
  | (token, now, rnd) :: reqs' =>
      let '(pm1, a) := getProxyForToken pm token now rnd in
      let '(pm2, r) := getProxiesForTokens pm1 reqs' in
      (pm2, a :: r)
  end.

(** The record of [proxyUrl] is marked down and its last failure is younger
    than the interval. *)
Definition coolingDown (now interval : Z) (m : HealthMap) (proxyUrl : string) : bool :=
  match health_get proxyUrl m with
  | Some h =>
      negb (isHealthy h)
      && match lastFailure h with
         | Some lf => inCooldown now lf interval
         | None => false
         end
  | None => false
  end.

(** The calls that are about health records only. *)
Definition healthCall (c : Call) : bool :=
  match c with
  | CallMarkProxyFailed _ _ | CallMarkProxySuccess _ _
  | CallGetRandomAgent _ _ | CallGetStats _ => true
  | _ => false
  end.

(** The tokens of a run of selections. *)
Definition tokensOf (reqs : list (string * Z * Js.Rand01)) : list string :=
  (λ r, fst (fst r)) <$> reqs.

(** Every character of [s] is an ASCII character.  On such strings the bytes
    of the embedding are the code units of the JavaScript string, and
    [Js.trim] removes what [String.prototype.trim] removes. *)
Definition asciiOnly (s : string) : bool :=
  forallb (λ c, (nat_of_ascii c <? 128)%nat) (list_ascii_of_string s).

(** *** The derivation of a ct0 *)

(** The two entries of [CT0_OVERRIDES]. *)
Definition overrideToken1 : string := "f3d3b05733d06082f7dae6139040be5d3e7cf203".
Definition overrideToken2 : string := "db1e89bcd4b026a20af710915319bb0630dba85e".
Definition overrideCt0_1 : string :=
  "8e27de1c58d6d6de0442b58be6a5ca7038045cff2fa3c4b83fbf61286f6452302d424e11b50c8b8d01f6ab26461c380e072cc66e25a8a2d171a4c53bba3a11d06e495e1af7ae9e62bb3cc2fd618f9ed3".
Definition overrideCt0_2 : string :=
  "8be1ddade8e8578c569fc0b81bfd85721b5179c743bbbba7c2c2cf3b96da1832615ef7ad668bfa151b52b6142d2a0006a453ec596dc57490a7686507a3ece3f50bba4eb5ed2e575bef565d6aca581ab3".

(** The derivation did not produce a token: the [try] block threw, or it ran
    to its last line, where nothing had matched. *)
Definition derivationFails (authToken : string) (env : DerivationEnv) : Prop :=
  match snd (fetchCSRFToken_try authToken env) with
  | Js.Throw _ => True
  | Js.Normal (_, src) => src = FromFallback
  end.

(** *** The passes of a request *)

(** The cache holds a string as the ct0 of [token]. *)
Definition cachedString (cache : gmap string TokenCache) (token : string) : Prop :=
  ∃ entry s, cache !! token = Some entry ∧ ct0 entry = Js.Str s.

(** What [getCSRFToken] answers at the head of a pass. *)
Definition csrfOf (c : TwitterClient) (options : RequestOptions) (env : DerivationEnv)
    (att : Attempt) : Js.Completion JsError Js.Value :=
  snd (fst (getCSRFToken c (authToken options) false env (csrfTime att) (csrfDraw att))).

(** The client, the agent and the ct0 with which a pass reaches its transport
    call: after [getCSRFToken] and [getAgent]. *)
Definition atFetch (c : TwitterClient) (options : RequestOptions) (env : DerivationEnv)
    (att : Attempt) : TwitterClient * option ProxyAgent * Js.Value :=
  let '(c1, token, _) :=
    getCSRFToken c (authToken options) false env (csrfTime att) (csrfDraw att) in
  let '(pm2, agent) :=
    getAgent (proxyManager c1) (authToken options) (selectTime att) (selectDraw att) in
  (mkClient pm2 (tokenCache c1), agent,
   match token with Js.Normal t => t | Js.Throw _ => Js.Str "" end).

(** The request of a pass. *)
Definition sentBy (c : TwitterClient) (options : RequestOptions) (env : DerivationEnv)
    (att : Attempt) : Sent :=
  mkSent (snd (fst (atFetch c options env att))) (snd (atFetch c options env att))
    (default "GET" (orElse (method options) None)).



(** What [getRandomAgent] answers in the [catch] clause, entered with the
    client [c3] after a pass that used [agent]. *)
Definition retryCandidate (c3 : TwitterClient) (agent : option ProxyAgent) (att : Attempt)
  : ProxyManager * option ProxyAgent :=
  getRandomAgent
    (reportOutcome markProxyFailed (proxyManager c3) agent (settleTime att))
    (settleTime att) (retryDraw att).



(** What a caller sees of an outcome: the completion and the requests. *)
Definition observed (o : option Outcome)
  : option (Js.Completion JsError ResponseData * list Sent) :=
  (λ x, (snd (fst x), snd x)) <$> o.

(** ** The states and inputs of the examples *)

(** The envelope of the spec's first bot-detection example: status 226, empty
    body. *)
Definition response226 : ResponseData := mkResponseData false 226 "" [] (BodyText "").

(** The second: status 403, body [{errors: {code: 226}}]. *)
Definition response403 : ResponseData :=
  mkResponseData false 403 "Forbidden" []
    (BodyObject (Some (ErrorsObject (mkApiError (Some 226) None)))).



(** The file of the spec's example. *)
Definition twoProxies : string :=
  "user:pass:example.com:8080
user:pass:realhost.test:8080".

Definition realhost : ProxyConfig :=
  mkProxyConfig (Some "user") (Some "pass") (Some "realhost.test") (Some "8080").

(** A manager with one proxy, selected once at time 1000. *)
Definition lonelyStart : ProxyManager :=
  fst (getProxyForToken (loadProxies defaultProxyManager (Some twoProxies))
         "token" 1000 (Js.mkRand 0 1)).

(** The record that selection made. *)
Definition lonelyRecord : ProxyHealth :=
  mkHealth (mkAgent 0 (getProxyUrl realhost)) 0 None (Some 1000) true.

(** The same manager after three failures of its proxy in a row, the last at
    time 4000. *)
Definition lonelyManager : ProxyManager :=
  markProxyFailedAt lonelyStart (getProxyUrl realhost) [2000; 3000; 4000].

(** A client whose pool is the one valid proxy of [twoProxies]. *)
Definition oneProxyClient : TwitterClient := initialize newTwitterClient (Some twoProxies).

(** A client with two valid proxies. *)
Definition twoProxyClient : TwitterClient :=
  initialize newTwitterClient (Some "u:p:alpha.test:1
u:p:beta.test:2").

(** The URL of the first proxy of [twoProxyClient]. *)
Definition alphaUrl : string := "http://u:p@alpha.test:1".

(** The calls between two selections of the sticky example. *)
Definition stickyCalls : list Call :=
  [CallMarkProxyFailed 1500 alphaUrl;
   CallGetProxyForToken "other" 1600 (Js.mkRand 0 1);
   CallGetRandomAgent 1700 (Js.mkRand 1 2);
   CallMarkProxySuccess 1800 alphaUrl;
   CallGetProxyForToken "token" 1900 (Js.mkRand 0 1)].

(** The two-proxy manager switched to round-robin mode. *)
Definition roundRobinManager : ProxyManager :=
  setRotationMode (proxyManager twoProxyClient) round_robin.

(** Two transport errors. *)
Definition connectionRefused : JsError :=
  mkError "connect ECONNREFUSED 203.0.113.7:8080" (Some "ECONNREFUSED") None.

Definition certificateExpired : JsError :=
  mkError "certificate has expired" (Some "CERT_HAS_EXPIRED") None.

(** A request for the identity [token], with the default method. *)
Definition sampleOptions : RequestOptions := mkOptions "token" None.

(** A URL that parses. *)
Definition sampleTarget : RequestTarget :=
  mkTarget "https://x.com/i/api/1.1/statuses/update.json"
    (Some "/i/api/1.1/statuses/update.json").

(** The derivation finds [ct0=abc] in the first response. *)
Definition sampleEnv : DerivationEnv :=
  mkDerivationEnv (Js.Normal tt)
    (Js.Normal [("set-cookie", HeaderOne "ct0=abc; Path=/; Secure")])
    (Js.Normal []) (λ _, Js.mkRand 0 1).

(** The derivation meets a refused connection; the fallback draws the digits
    [0 0 1 1 ... f f]. *)
Definition failingEnv : DerivationEnv :=
  mkDerivationEnv (Js.Normal tt) (Js.Throw connectionRefused) (Js.Normal [])
    (λ i, Js.mkRand i 32).

(** A pass whose transport call is refused; [getRandomAgent] draws [draw]. *)
Definition refusedAttempt (draw : Js.Rand01) : Attempt :=
  mkAttempt 1000 (Js.mkRand 0 1) 1000 (Js.mkRand 0 1) (Js.Throw connectionRefused)
    2000 draw.

(** A pass whose transport call succeeds with an empty JSON object. *)
Definition successfulAttempt : Attempt :=
  mkAttempt 3000 (Js.mkRand 0 1) 3000 (Js.mkRand 0 1)
    (Js.Normal (mkFetchResponse true 200 "OK" [] (Js.Normal "{}") (Some (BodyObject None))))
    4000 (Js.mkRand 0 1).

(** * Proofs *)

(** ** Strings *)

Lemma eqb_refl' (s : string) : String.eqb s s = true.
Proof. apply String.eqb_refl. Qed.

Lemma eqb_true (s t : string) : String.eqb s t = true ↔ s = t.
Proof. apply String.eqb_eq. Qed.

Lemma eqb_false (s t : string) : String.eqb s t = false ↔ s ≠ t.
Proof. apply String.eqb_neq. Qed.

Lemma truthy_true (s : string) : Js.truthy s = true ↔ s ≠ "".
Proof.
  unfold Js.truthy. rewrite negb_true_iff. apply eqb_false.
Qed.

Lemma orElse_None_Some (x : option string) (s : string) :
  orElse x None = Some s ↔ x = Some s ∧ s ≠ "".
Proof.
  destruct x as [t|]; simpl; [|naive_solver].
  destruct (Js.truthy t) eqn:Ht.
  - apply truthy_true in Ht. naive_solver.
  - split; [done|]. intros [[= ->] Hs]. apply truthy_true in Hs. congruence.
Qed.

(** ** The health map *)

Section HealthMap.
Implicit Types (m : HealthMap) (h : ProxyHealth) (u v : string).

Lemma health_get_set_eq u h m : health_get u (health_set u h m) = Some h.
Proof.
  induction m as [|[k h0] m IH]; simpl.
  - by rewrite eqb_refl'.
  - destruct (String.eqb k u) eqn:E; simpl; rewrite E; [done|apply IH].
Qed.

Lemma health_get_set_ne u v h m :
  u ≠ v → health_get v (health_set u h m) = health_get v m.
Proof.
  intros Hne. induction m as [|[k h0] m IH]; simpl.
  - by apply eqb_false in Hne as ->.
  - destruct (String.eqb k u) eqn:E; simpl.
    + apply eqb_true in E as ->. by apply eqb_false in Hne as ->.
    + by rewrite IH.
Qed.

Lemma health_get_set u v h m :
  health_get v (health_set u h m) = if decide (u = v) then Some h else health_get v m.
Proof.
  case_decide as E; [subst; apply health_get_set_eq|by apply health_get_set_ne].
Qed.

Lemma health_get_Some_elem u h m : health_get u m = Some h → (u, h) ∈ m.
Proof.
  induction m as [|[k h0] m IH]; simpl; [done|].
  destruct (String.eqb k u) eqn:E.
  - apply eqb_true in E as ->. intros [= ->]. left.
  - intros H. right. by apply IH.
Qed.

Lemma health_get_None u m : health_get u m = None ↔ u ∉ m.*1.
Proof.
  induction m as [|[k h0] m IH]; simpl.
  - split; [intros _; apply not_elem_of_nil|done].
  - rewrite not_elem_of_cons. destruct (String.eqb k u) eqn:E.
    + apply eqb_true in E as ->. naive_solver.
    + apply eqb_false in E. rewrite IH. naive_solver.
Qed.

(** Writing under a new key appends it. *)
Lemma health_set_keys_absent u h m :
  health_get u m = None → health_set u h m = m ++ [(u, h)].
Proof.
  induction m as [|[k h0] m IH]; simpl; [done|].
  destruct (String.eqb k u) eqn:E; [done|].
  intros H. by rewrite IH.
Qed.

(** Where a record sits, and what writing it does. *)
Lemma health_get_split u h0 m :
  health_get u m = Some h0 →
  ∃ m1 m2, m = m1 ++ ((u, h0) :: m2) ∧ (u ∉ m1.*1)
           ∧ ∀ h, health_set u h m = m1 ++ ((u, h) :: m2).
Proof.
  induction m as [|[k h1] m IH]; simpl; [done|].
  destruct (String.eqb k u) eqn:E.
  - apply eqb_true in E as ->. intros [= ->].
    exists [], m. split_and!; [done|apply not_elem_of_nil|done].
  - apply eqb_false in E. intros H. destruct (IH H) as (m1 & m2 & -> & Hn & Hs).
    exists ((k, h1) :: m1), m2. split_and!; [done| |].
    + rewrite fmap_cons, not_elem_of_cons. naive_solver.
    + intros h. by rewrite Hs.
Qed.
End HealthMap.

(** ** Substrings *)

Lemma startsWith_spec (p s : string) :
  Js.startsWith p s = true ↔ ∃ rest, s = p +:+ rest.
Proof.
  revert s. induction p as [|a p IH]; intros s; simpl.
  - split; [intros _; by exists s|done].
  - destruct s as [|b s]; [split; [done|by intros [? ?]]|].
    destruct (Ascii.eqb_spec a b) as [->|Hne].
    + rewrite IH. split; intros [rest E]; exists rest; [by rewrite E|by injection E].
    + split; [done|]. intros [rest E]. injection E as -> ?. done.
Qed.

Lemma includes_spec (p s : string) :
  Js.includes p s = true ↔ ∃ before after, s = before +:+ p +:+ after.
Proof.
  induction s as [|c s IH]; simpl.
  - rewrite orb_false_r, startsWith_spec. split.
    + intros [rest E]. by exists "", rest.
    + intros [[|? before] [after E]]; [by exists after|done].
  - rewrite orb_true_iff, startsWith_spec, IH. split.
    + intros [[rest E]|[before [after E]]].
      * by exists "", rest.
      * exists (String c before), after. simpl. by rewrite E.
    + intros [[|b before] [after E]].
      * left. by exists after.
      * right. injection E as -> E. by exists before, after.
Qed.


(** ** The response classifier *)



Example isBotDetected_226 : detected (isBotDetected response226) = true.
Proof. reflexivity. Qed.

Example isBotDetected_403_single : detected (isBotDetected response403) = true.
Proof. reflexivity. Qed.




(** ** Well-formed health maps *)

Section WfHealth.
Implicit Types (m : HealthMap) (h : ProxyHealth) (u v : string) (n : nat).

Lemma wfHealth_nil n : wfHealth [] n.
Proof. split; simpl; constructor. Qed.

Lemma wfHealth_get m n u h : wfHealth m n → (u, h) ∈ m → health_get u m = Some h.
Proof.
  intros [Hk _ _ _ _ _]. induction m as [|[k h0] m IH]; simpl; [by rewrite elem_of_nil|].
  rewrite fmap_cons in Hk. apply NoDup_cons in Hk as [Hn Hk].
  intros [[= -> ->]|Hin]%elem_of_cons; [by rewrite eqb_refl'|].
  destruct (String.eqb k u) eqn:E; [|by apply IH].
  apply eqb_true in E as ->. exfalso. apply Hn.
  apply list_elem_of_fmap. by exists (u, h).
Qed.

(** A record in place is rewritten; its agent stays. *)
Lemma wfHealth_update m n u h0 h :
  wfHealth m n → health_get u m = Some h0 → agent h = agent h0 →
  0 <= failures h → wfHealth (health_set u h m) n.
Proof.
  intros [Hk Hi Hu Hf Hc Ht] Hget Ha Hpos.
  destruct (health_get_split _ _ _ Hget) as (m1 & m2 & -> & Hn & Hs). rewrite Hs.
  split.
  - by rewrite fmap_app, fmap_cons in *.
  - rewrite fmap_app, fmap_cons in *. simpl in *. by rewrite Ha.
  - rewrite Forall_app, Forall_cons in *. simpl in *. rewrite Ha. naive_solver.
  - rewrite Forall_app, Forall_cons in *. simpl in *. rewrite Ha. naive_solver.
  - rewrite Forall_app, Forall_cons in *. simpl in *. naive_solver.
  - rewrite Forall_app, Forall_cons in *. simpl in *. naive_solver.
Qed.

(** A record is made for a new agent, over an old record or at the end. *)
Lemma wfHealth_create m n u h :
  wfHealth m n → agent h = mkAgent n u → 0 <= failures h → Js.truthy u = true →
  wfHealth (health_set u h m) (S n).
Proof.
  intros [Hk Hi Hu Hf Hc Ht] Ha Hpos Htr.
  assert (∀ l : HealthMap,
            Forall (λ kh, (agent_id (agent (snd kh)) < n)%nat) l →
            n ∉ (λ kh, agent_id (agent (snd kh))) <$> l) as Hnew.
  { intros l Hl [[k hk] [E Hin]]%list_elem_of_fmap. simpl in E.
    rewrite Forall_forall in Hl. specialize (Hl _ Hin). simpl in Hl. lia. }
  assert (∀ l : HealthMap,
            Forall (λ kh, (agent_id (agent (snd kh)) < n)%nat) l →
            Forall (λ kh, (agent_id (agent (snd kh)) < S n)%nat) l) as Hup.
  { intros l Hl. eapply Forall_impl; [exact Hl|]. simpl. intros. lia. }
  destruct (health_get u m) as [h0|] eqn:Hget.
  - destruct (health_get_split _ _ _ Hget) as (m1 & m2 & -> & Hn & Hs). rewrite Hs.
    rewrite Forall_app, Forall_cons in Hf, Hu, Hc, Ht. simpl in *.
    destruct Hf as (Hf1 & _ & Hf2).
    split.
    + by rewrite fmap_app, fmap_cons in *.
    + rewrite fmap_app, fmap_cons in *. simpl. rewrite Ha. simpl.
      apply NoDup_app in Hi as (Hi1 & Hi12 & Hi2).
      apply NoDup_cons in Hi2 as [_ Hi2].
      apply NoDup_app. split_and!; [done| |].
      * intros x Hx. rewrite not_elem_of_cons. split.
        -- intros ->. by apply (Hnew m1).
        -- specialize (Hi12 x Hx). rewrite not_elem_of_cons in Hi12. tauto.
      * apply NoDup_cons. split; [by apply Hnew|done].
    + rewrite Forall_app, Forall_cons. simpl. rewrite Ha. naive_solver.
    + rewrite Forall_app, Forall_cons. simpl. rewrite Ha. simpl.
      split_and!; [by apply Hup|lia|by apply Hup].
    + rewrite Forall_app, Forall_cons. simpl. naive_solver.
    + rewrite Forall_app, Forall_cons. simpl. naive_solver.
  - rewrite (health_set_keys_absent _ _ _ Hget).
    apply health_get_None in Hget.
    split.
    + rewrite fmap_app. simpl. apply NoDup_app. split_and!; [done| |apply NoDup_singleton].
      intros x Hx. rewrite list_elem_of_singleton. by intros ->.
    + rewrite fmap_app. simpl. rewrite Ha. simpl.
      apply NoDup_app. split_and!; [done| |apply NoDup_singleton].
      intros x Hx. rewrite list_elem_of_singleton. intros ->. by apply (Hnew m).
    + rewrite Forall_app, Forall_singleton. simpl. by rewrite Ha.
    + rewrite Forall_app, Forall_singleton. simpl. rewrite Ha. simpl.
      split; [by apply Hup|lia].
    + rewrite Forall_app, Forall_singleton. done.
    + rewrite Forall_app, Forall_singleton. done.
Qed.

(** The search by agent, as [getProxyForToken] and [getProxyUrlForAgent] run
    it, finds the key of the record that holds the agent. *)
Lemma findUrlOfAgent_of_get m n u h :
  wfHealth m n → health_get u m = Some h → findUrlOfAgent m (agent h) = Some u.
Proof.
  intros [Hk Hi _ _ _ _]. induction m as [|[k h0] m IH]; simpl; [done|].
  rewrite fmap_cons in Hk. rewrite fmap_cons in Hi. simpl in Hi.
  apply NoDup_cons in Hk as [_ Hk]. apply NoDup_cons in Hi as [Hn Hi].
  destruct (String.eqb k u) eqn:E.
  - apply eqb_true in E as ->. intros [= ->].
    unfold same_agent. by rewrite Nat.eqb_refl.
  - intros Hget. unfold same_agent.
    destruct (Nat.eqb_spec (agent_id (agent h0)) (agent_id (agent h))) as [Eid|_];
      [|by apply IH].
    exfalso. apply Hn. rewrite Eid. apply list_elem_of_fmap.
    exists (u, h). split; [done|]. by apply health_get_Some_elem.
Qed.

Lemma findUrlOfAgent_Some m a u :
  findUrlOfAgent m a = Some u →
  ∃ h, (u, h) ∈ m ∧ agent_id (agent h) = agent_id a.
Proof.
  induction m as [|[k h0] m IH]; simpl; [done|]. unfold same_agent.
  destruct (Nat.eqb_spec (agent_id (agent h0)) (agent_id a)) as [E|_].
  - intros [= ->]. exists h0. split; [left|done].
  - intros H. destruct (IH H) as (h & Hin & E). exists h. split; [by right|done].
Qed.
End WfHealth.

(** ** [getHealthyProxies] *)

Section GetHealthyProxies.
Variables now interval : Z.
Implicit Types (m : HealthMap) (h : ProxyHealth) (p : ProxyConfig) (l : list ProxyConfig).

Lemma eligibleRecord_promote h :
  eligibleRecord now interval (promoteRecord now interval h)
  = eligibleRecord now interval h.
Proof.
  unfold promoteRecord. destruct (isHealthy h) eqn:E; [done|].
  destruct (eligibleRecord now interval h) eqn:F; [reflexivity|exact F].
Qed.

Lemma promoteRecord_idem h :
  promoteRecord now interval (promoteRecord now interval h)
  = promoteRecord now interval h.
Proof.
  unfold promoteRecord. destruct (isHealthy h) eqn:E; [by rewrite E|].
  destruct (eligibleRecord now interval h) eqn:F; simpl; [done|by rewrite E, F].
Qed.

Lemma promoteRecord_agent h : agent (promoteRecord now interval h) = agent h.
Proof.
  unfold promoteRecord. by destruct (isHealthy h), (eligibleRecord now interval h).
Qed.

Lemma promoteRecord_failures h :
  0 <= failures h → 0 <= failures (promoteRecord now interval h).
Proof.
  unfold promoteRecord. by destruct (isHealthy h), (eligibleRecord now interval h).
Qed.

Lemma promoteRecord_healthy h :
  isHealthy h = true → promoteRecord now interval h = h.
Proof. unfold promoteRecord. by intros ->. Qed.

(** One step of the filter: the verdict is [eligible], the write is
    [promoteRecord] on the record of this proxy. *)
Lemma checkHealthy_spec m p :
  checkHealthy now interval m p
  = (match health_get (getProxyUrl p) m with
     | Some h =>
         if isHealthy h then m
         else if eligibleRecord now interval h
              then health_set (getProxyUrl p) (promoteRecord now interval h) m
              else m
     | None => m
     end,
     eligible now interval m (getProxyUrl p)).
Proof.
  unfold checkHealthy, eligible, promoteRecord, eligibleRecord.
  destruct (health_get (getProxyUrl p) m) as [h|]; [|done].
  destruct (isHealthy h) eqn:E; simpl; [done|].
  by destruct (match lastFailure h with Some lf => inCooldown now lf interval | None => false end).
Qed.

Lemma checkHealthy_get m p v :
  health_get v (fst (checkHealthy now interval m p))
  = if decide (v = getProxyUrl p)
    then promoteRecord now interval <$> health_get v m
    else health_get v m.
Proof.
  rewrite checkHealthy_spec. simpl.
  destruct (decide (v = getProxyUrl p)) as [->|Hne].
  - destruct (health_get (getProxyUrl p) m) as [h|] eqn:Hget; [|by rewrite Hget].
    simpl. unfold promoteRecord.
    destruct (isHealthy h) eqn:E; [by rewrite Hget|].
    destruct (eligibleRecord now interval h) eqn:F; [|by rewrite Hget].
    by rewrite health_get_set_eq.
  - destruct (health_get (getProxyUrl p) m) as [h|] eqn:Hget; [|done].
    destruct (isHealthy h); [done|].
    destruct (eligibleRecord now interval h); [|done].
    by rewrite health_get_set_ne.
Qed.

Lemma checkHealthy_wf m p n :
  wfHealth m n → wfHealth (fst (checkHealthy now interval m p)) n.
Proof.
  intros Hwf. rewrite checkHealthy_spec. simpl.
  destruct (health_get (getProxyUrl p) m) as [h|] eqn:Hget; [|done].
  destruct (isHealthy h); [done|].
  destruct (eligibleRecord now interval h); [|done].
  eapply wfHealth_update; [done|done|apply promoteRecord_agent|].
  apply promoteRecord_failures.
  destruct Hwf as [_ _ _ _ Hc _]. rewrite Forall_forall in Hc.
  apply (Hc (getProxyUrl p, h)). by apply health_get_Some_elem.
Qed.

Lemma checkHealthy_eligible m p v :
  eligible now interval (fst (checkHealthy now interval m p)) v
  = eligible now interval m v.
Proof.
  unfold eligible. rewrite checkHealthy_get.
  case_decide; [|done].
  destruct (health_get v m) as [h|]; [|done]. simpl. apply eligibleRecord_promote.
Qed.

(** The whole filter: it keeps the eligible proxies, and promotes the record
    of every proxy of the list whose cooldown is over. *)
Lemma filterHealthy_list m l :
  snd (filterHealthy now interval m l)
  = filter (λ p, eligible now interval m (getProxyUrl p) = true) l.
Proof.
  revert m. induction l as [|p l IH]; intros m; [done|].
  simpl. destruct (checkHealthy now interval m p) as [m1 keep] eqn:Hc.
  specialize (IH m1). destruct (filterHealthy now interval m1 l) as [m2 r].
  simpl in *. subst r.
  assert (keep = eligible now interval m (getProxyUrl p)) as ->.
  { rewrite checkHealthy_spec in Hc. by injection Hc. }
  assert (m1 = fst (checkHealthy now interval m p)) as -> by by rewrite Hc.
  rewrite filter_cons.
  assert (filter (λ p0, eligible now interval (checkHealthy now interval m p).1
                          (getProxyUrl p0) = true) l
          = filter (λ p0, eligible now interval m (getProxyUrl p0) = true) l) as ->.
  { apply list_filter_iff. intros q. by rewrite checkHealthy_eligible. }
  destruct (eligible now interval m (getProxyUrl p)) eqn:E.
  - by rewrite decide_True by done.
  - rewrite decide_False; [done|]. by intros ?.
Qed.

Lemma filterHealthy_get m l v :
  health_get v (fst (filterHealthy now interval m l))
  = if decide (v ∈ getProxyUrl <$> l)
    then promoteRecord now interval <$> health_get v m
    else health_get v m.
Proof.
  revert m. induction l as [|p l IH]; intros m.
  - cbn [filterHealthy fst]. case_decide as H; [|done].
    rewrite fmap_nil in H. by apply elem_of_nil in H.
  - cbn [filterHealthy]. destruct (checkHealthy now interval m p) as [m1 keep] eqn:Hc.
    specialize (IH m1). destruct (filterHealthy now interval m1 l) as [m2 r].
    cbn [fst] in *. rewrite IH.
    assert (m1 = fst (checkHealthy now interval m p)) as -> by by rewrite Hc.
    rewrite checkHealthy_get, fmap_cons.
    destruct (decide (v = getProxyUrl p)) as [->|Hne].
    + rewrite (decide_True (P := _ ∈ _ :: _)) by left.
      case_decide; [|done].
      destruct (health_get (getProxyUrl p) m); [|done]. simpl.
      by rewrite promoteRecord_idem.
    + case_decide as Hin.
      * rewrite decide_True; [done|by right].
      * rewrite decide_False; [done|].
        rewrite not_elem_of_cons. done.
Qed.

Lemma filterHealthy_wf m l n :
  wfHealth m n → wfHealth (fst (filterHealthy now interval m l)) n.
Proof.
  revert m. induction l as [|p l IH]; intros m Hwf; [done|].
  simpl. pose proof (checkHealthy_wf m p n Hwf) as Hwf1.
  destruct (checkHealthy now interval m p) as [m1 keep].
  specialize (IH m1 Hwf1). by destruct (filterHealthy now interval m1 l).
Qed.

(** Nothing is marked down: the filter keeps every proxy and writes
    nothing. *)
Lemma filterHealthy_all_up m l :
  Forall (λ p, notMarkedDown m (getProxyUrl p) = true) l →
  filterHealthy now interval m l = (m, l).
Proof.
  induction 1 as [|p l Hp Hl IH]; [done|].
  simpl. rewrite checkHealthy_spec.
  unfold notMarkedDown, eligible, eligibleRecord in *.
  destruct (health_get (getProxyUrl p) m) as [h|].
  - rewrite Hp. simpl. by rewrite IH.
  - by rewrite IH.
Qed.
End GetHealthyProxies.

(** ** The operations of the manager *)

Section Operations.
Implicit Types (pm : ProxyManager) (p : ProxyConfig) (a : ProxyAgent) (u v : string).

Lemma getHealthyProxies_spec pm now :
  getHealthyProxies pm now = (promoted pm now, eligibleProxies pm now).
Proof.
  unfold getHealthyProxies, promoted, eligibleProxies.
  rewrite <- filterHealthy_list.
  by destruct (filterHealthy now (healthCheckInterval pm) (proxyHealth pm) (proxies pm)).
Qed.

Lemma promoted_wf pm now : wf pm → wf (promoted pm now).
Proof. apply filterHealthy_wf. Qed.

Lemma promoted_get pm now v :
  health_get v (proxyHealth (promoted pm now))
  = if decide (v ∈ getProxyUrl <$> proxies pm)
    then promoteRecord now (healthCheckInterval pm) <$> health_get v (proxyHealth pm)
    else health_get v (proxyHealth pm).
Proof. apply filterHealthy_get. Qed.

Lemma eligibleProxies_elem pm now p :
  p ∈ eligibleProxies pm now ↔
  p ∈ proxies pm
  ∧ eligible now (healthCheckInterval pm) (proxyHealth pm) (getProxyUrl p) = true.
Proof. unfold eligibleProxies. rewrite list_elem_of_filter. tauto. Qed.

(** [markProxyFailed] and [markProxySuccess] *)

Lemma markProxyFailed_wf pm now u : wf pm → wf (markProxyFailed pm now u).
Proof.
  intros Hwf. unfold markProxyFailed.
  destruct (health_get u (proxyHealth pm)) as [h|] eqn:Hget; [|done].
  eapply wfHealth_update; [exact Hwf|exact Hget|done|]. simpl.
  destruct Hwf as [_ _ _ _ Hc _]. rewrite Forall_forall in Hc.
  specialize (Hc (u, h) (health_get_Some_elem _ _ _ Hget)). simpl in Hc. lia.
Qed.

Lemma markProxySuccess_wf pm now u : wf pm → wf (markProxySuccess pm now u).
Proof.
  intros Hwf. unfold markProxySuccess.
  destruct (health_get u (proxyHealth pm)) as [h|] eqn:Hget; [|done].
  by eapply wfHealth_update; [exact Hwf|exact Hget|done|].
Qed.

(** [getOrCreateAgent]: the agent returned sits, marked healthy, in the
    record of the proxy; no other record changes. *)
Lemma getOrCreateAgent_spec pm now p pm' a :
  getOrCreateAgent pm now p = (pm', a) →
  (∃ h, health_get (getProxyUrl p) (proxyHealth pm') = Some h
        ∧ agent h = a ∧ isHealthy h = true)
  ∧ (∀ v, v ≠ getProxyUrl p →
          health_get v (proxyHealth pm') = health_get v (proxyHealth pm))
  ∧ (healthyRecord pm (getProxyUrl p) = true → pm' = pm)
  ∧ (healthyRecord pm (getProxyUrl p) = false →
     a = mkAgent (nextAgent pm) (getProxyUrl p))
  ∧ proxies pm' = proxies pm ∧ proxyMap pm' = proxyMap pm
  ∧ currentIndex pm' = currentIndex pm ∧ rotationMode pm' = rotationMode pm
  ∧ maxFailures pm' = maxFailures pm
  ∧ healthCheckInterval pm' = healthCheckInterval pm.
Proof.
  unfold getOrCreateAgent, healthyRecord.
  destruct (health_get (getProxyUrl p) (proxyHealth pm)) as [h|] eqn:Hget.
  - destruct (isHealthy h) eqn:Hh; intros [= <- <-]; simpl.
    + split_and!; try done. by exists h.
    + rewrite health_get_set_eq. split_and!; try done.
      * by eexists.
      * intros v Hv. by rewrite health_get_set_ne.
  - intros [= <- <-]; simpl. rewrite health_get_set_eq. split_and!; try done.
    + by eexists.
    + intros v Hv. by rewrite health_get_set_ne.
Qed.

Lemma getOrCreateAgent_wf pm now p :
  wf pm → wf (fst (getOrCreateAgent pm now p)).
Proof.
  intros Hwf. unfold getOrCreateAgent.
  assert (wf (with_nextAgent
                (with_proxyHealth pm
                   (health_set (getProxyUrl p)
                      (mkHealth (mkAgent (nextAgent pm) (getProxyUrl p)) 0 None
                         (Some now) true) (proxyHealth pm)))
                (S (nextAgent pm)))) as Hnew.
  { by apply wfHealth_create. }
  destruct (health_get (getProxyUrl p) (proxyHealth pm)) as [h|]; [|done].
  by destruct (isHealthy h).
Qed.

(** The agent [getOrCreateAgent] returns resolves to the URL of the proxy. *)
Lemma getOrCreateAgent_url pm now p pm' a :
  wf pm → getOrCreateAgent pm now p = (pm', a) →
  getProxyUrlForAgent pm' a = Some (getProxyUrl p) ∧ agent_url a = getProxyUrl p.
Proof.
  intros Hwf Hg. pose proof (getOrCreateAgent_wf pm now p Hwf) as Hwf'.
  rewrite Hg in Hwf'. simpl in Hwf'.
  destruct (getOrCreateAgent_spec _ _ _ _ _ Hg) as ((h & Hget & <- & _) & _).
  split; [by eapply findUrlOfAgent_of_get|].
  destruct Hwf' as [_ _ Hu _ _ _]. rewrite Forall_forall in Hu.
  apply (Hu (getProxyUrl p, h)). by apply health_get_Some_elem.
Qed.

(** Selection from a list *)

Lemma findProxyOfAgent_elem (m : HealthMap) a l p :
  findProxyOfAgent m a l = Some p → p ∈ l.
Proof.
  induction l as [|q l IH]; simpl; [done|].
  destruct (health_get (getProxyUrl q) m) as [h|].
  - destruct (same_agent (agent h) a).
    + intros [= ->]. left.
    + intros H. right. auto.
  - intros H. right. auto.
Qed.

Lemma selectProxyFromList_spec pm l token rnd :
  ∃ i, fst (selectProxyFromList pm l token rnd) = with_currentIndex pm i
       ∧ ∀ p, snd (selectProxyFromList pm l token rnd) = Some p → p ∈ l.
Proof.
  assert (∃ i, fst (roundRobin pm l) = with_currentIndex pm i
               ∧ ∀ p, snd (roundRobin pm l) = Some p → p ∈ l) as Hrr.
  { eexists. split; [reflexivity|]. simpl. intros p Hp.
    by eapply list_elem_of_lookup_2. }
  assert (∃ i, pm = with_currentIndex pm i) as [i0 Hid].
  { exists (currentIndex pm). by destruct pm. }
  unfold selectProxyFromList. destruct l as [|q l]; [by exists i0|].
  destruct (rotationMode pm).
  - destruct (if Js.truthy token then proxyMap pm !! token else None) as [ex|]; [|done].
    destruct (findProxyOfAgent (proxyHealth pm) ex (q :: l)) as [p|] eqn:Hf; [|done].
    exists i0. split; [done|]. simpl. intros p' [= <-].
    by eapply findProxyOfAgent_elem.
  - exists i0. split; [done|]. simpl. intros p Hp. by eapply list_elem_of_lookup_2.
  - done.
Qed.

Lemma selectProxy_spec pm token now rnd :
  ∃ i, fst (selectProxy pm token now rnd) = with_currentIndex (promoted pm now) i
       ∧ ∀ p, snd (selectProxy pm token now rnd) = Some p →
              p ∈ proxies pm
              ∧ (eligibleProxies pm now ≠ [] → p ∈ eligibleProxies pm now).
Proof.
  unfold selectProxy. rewrite getHealthyProxies_spec.
  destruct (eligibleProxies pm now) as [|q l] eqn:He.
  - change (proxies (promoted pm now)) with (proxies pm).
    destruct (proxies pm) as [|q l] eqn:Hp.
    + exists (currentIndex pm). simpl. split; [by destruct pm|done].
    + destruct (selectProxyFromList_spec (promoted pm now) (q :: l) token rnd)
        as (i & Hi & Hin).
      exists i. split; [done|]. intros p Hsel. split; [by apply Hin|done].
  - destruct (selectProxyFromList_spec (promoted pm now) (q :: l) token rnd)
      as (i & Hi & Hin).
    exists i. split; [done|]. intros p Hsel. specialize (Hin p Hsel).
    split; [|done]. rewrite <- He in Hin. by apply eligibleProxies_elem in Hin as [? _].
Qed.
End Operations.

Section Selection.
Implicit Types (pm : ProxyManager) (p : ProxyConfig) (a : ProxyAgent) (u v : string).

(** The sticky shortcut returns an agent that resolves to a record marked
    healthy. *)
Lemma stickyCached_Some pm token a :
  stickyCached pm token = Some a →
  rotationMode pm = sticky ∧ proxyMap pm !! token = Some a
  ∧ ∃ u, getProxyUrlForAgent pm a = Some u ∧ healthyRecord pm u = true.
Proof.
  unfold stickyCached, getProxyUrlForAgent, healthyRecord.
  destruct (rotationMode pm); [|done..].
  destruct (proxyMap pm !! token) as [c|]; [|done].
  destruct (findUrlOfAgent (proxyHealth pm) c) as [u|] eqn:Hf; [|done].
  destruct (Js.truthy u); [|done].
  destruct (health_get u (proxyHealth pm)) as [h|] eqn:Hget; [|done].
  destruct (isHealthy h) eqn:Hh; [|done].
  intros [= <-]. split_and!; [done..|]. exists u. by rewrite Hget.
Qed.

(** Past the shortcut, [getProxyForToken] returns nothing, or selects a
    proxy and returns the agent [getOrCreateAgent] has for it. *)
Lemma getProxyForToken_selects pm token now rnd :
  stickyCached pm token = None →
  (snd (getProxyForToken pm token now rnd) = None
   ∧ (fst (getProxyForToken pm token now rnd) = pm
      ∨ ∃ i, fst (getProxyForToken pm token now rnd)
             = with_currentIndex (promoted pm now) i))
  ∨ (∃ i p pm2 a,
       snd (selectProxy pm token now rnd) = Some p
       ∧ getOrCreateAgent (with_currentIndex (promoted pm now) i) now p = (pm2, a)
       ∧ getProxyForToken pm token now rnd
         = (match rotationMode pm with
            | sticky => with_proxyMap pm2 (<[token := a]> (proxyMap pm))
            | _ => pm2
            end, Some a)).
Proof.
  intros Hs. unfold getProxyForToken. rewrite Hs.
  destruct (proxies pm) as [|q l] eqn:Hp; [left; split; [done|by left]|].
  destruct (selectProxy_spec pm token now rnd) as (i & Hi & _).
  destruct (selectProxy pm token now rnd) as [pm1 [p|]]; simpl in Hi; subst pm1.
  - right. destruct (getOrCreateAgent (with_currentIndex (promoted pm now) i) now p)
      as [pm2 a] eqn:Hg.
    exists i, p, pm2, a. split_and!; [done..|].
    destruct (getOrCreateAgent_spec _ _ _ _ _ Hg) as (_ & _ & _ & _ & _ & Hm & _ & Hr & _).
    simpl in Hm, Hr. by rewrite Hr, Hm.
  - left. split; [done|]. right. by exists i.
Qed.

Lemma getRandomAgent_selects pm now rnd :
  (snd (getRandomAgent pm now rnd) = None
   ∧ fst (getRandomAgent pm now rnd) = promoted pm now)
  ∨ (∃ p, p ∈ proxies pm
         ∧ (eligibleProxies pm now ≠ [] → p ∈ eligibleProxies pm now)
         ∧ getRandomAgent pm now rnd
           = (fst (getOrCreateAgent (promoted pm now) now p),
              Some (snd (getOrCreateAgent (promoted pm now) now p)))).
Proof.
  unfold getRandomAgent. rewrite getHealthyProxies_spec.
  change (proxies (promoted pm now)) with (proxies pm).
  set (pool := match eligibleProxies pm now with
               | [] => proxies pm
               | _ => eligibleProxies pm now
               end).
  assert (∀ p, p ∈ pool →
               p ∈ proxies pm
               ∧ (eligibleProxies pm now ≠ [] → p ∈ eligibleProxies pm now)) as Hpool.
  { intros p. subst pool. destruct (eligibleProxies pm now) as [|q l] eqn:He; [done|].
    intros Hin. split; [|done]. rewrite <- He in Hin.
    by apply eligibleProxies_elem in Hin as [? _]. }
  destruct pool as [|q l] eqn:Hq; [by left|].
  destruct ((q :: l) !! Js.floor_mul rnd (length (q :: l))) as [p|] eqn:Hl; [|by left].
  right. exists p. apply list_elem_of_lookup_2 in Hl.
  destruct (Hpool p Hl) as [? ?]. split_and!; [done..|].
  by destruct (getOrCreateAgent (promoted pm now) now p).
Qed.

Lemma getProxyForToken_wf pm token now rnd :
  wf pm → wf (fst (getProxyForToken pm token now rnd)).
Proof.
  intros Hwf. destruct (stickyCached pm token) as [c|] eqn:Hs.
  - unfold getProxyForToken. by rewrite Hs.
  - destruct (getProxyForToken_selects pm token now rnd Hs)
      as [[_ [->| [i ->]]]|(i & p & pm2 & a & _ & Hg & ->)]; [done|by apply promoted_wf|].
    assert (wf pm2) as Hwf2.
    { change pm2 with (fst (pm2, a)). rewrite <- Hg. apply getOrCreateAgent_wf.
      by apply promoted_wf. }
    simpl. by destruct (rotationMode pm).
Qed.

Lemma getRandomAgent_wf pm now rnd :
  wf pm → wf (fst (getRandomAgent pm now rnd)).
Proof.
  intros Hwf. destruct (getRandomAgent_selects pm now rnd)
    as [[_ ->]|(p & _ & _ & ->)]; [by apply promoted_wf|].
  simpl. apply getOrCreateAgent_wf. by apply promoted_wf.
Qed.

Lemma setRotationMode_health pm mode :
  proxyHealth (setRotationMode pm mode) = proxyHealth pm
  ∧ nextAgent (setRotationMode pm mode) = nextAgent pm.
Proof. by destruct mode. Qed.

Lemma loadProxies_health pm file :
  proxyHealth (loadProxies pm file) = proxyHealth pm
  ∧ nextAgent (loadProxies pm file) = nextAgent pm
  ∧ proxyMap (loadProxies pm file) = proxyMap pm
  ∧ rotationMode (loadProxies pm file) = rotationMode pm.
Proof.
  unfold loadProxies. destruct file as [content|]; [|done].
  by destruct (filterProxies (parseProxies content)).
Qed.

(** Every call keeps the state well formed. *)
Lemma exec_wf pm c : wf pm → wf (fst (exec pm c)).
Proof.
  intros Hwf. destruct c; simpl.
  - unfold wf. by destruct (loadProxies_health pm file) as (-> & -> & _).
  - by apply markProxyFailed_wf.
  - by apply markProxySuccess_wf.
  - by apply getProxyForToken_wf.
  - by apply getRandomAgent_wf.
  - unfold wf. by destruct (setRotationMode_health pm mode) as (-> & ->).
  - rewrite getHealthyProxies_spec. by apply promoted_wf.
Qed.

Lemma execAll_wf pm cs : wf pm → wf (execAll pm cs).
Proof.
  revert pm. induction cs as [|c cs IH]; intros pm Hwf; [done|].
  simpl. apply IH. by apply exec_wf.
Qed.

Lemma newProxyManager_wf mode maxF interval : wf (newProxyManager mode maxF interval).
Proof. apply wfHealth_nil. Qed.
End Selection.

(** ** Health records are made by selection only *)

Lemma promoted_get_None (pm : ProxyManager) (now : Z) (u : string) :
  health_get u (proxyHealth pm) = None →
  health_get u (proxyHealth (promoted pm now)) = None.
Proof. intros H. rewrite promoted_get, H. by case_decide. Qed.

(** A record that appears for [u] was made by [getOrCreateAgent] for a proxy of
    the pool with that URL, and holds the new agent. *)
Lemma getOrCreateAgent_makes (pm pm' : ProxyManager) (now : Z) (p : ProxyConfig)
    (a : ProxyAgent) (u : string) :
  getOrCreateAgent pm now p = (pm', a) →
  health_get u (proxyHealth pm) = None →
  health_get u (proxyHealth pm') ≠ None →
  getProxyUrl p = u ∧ a = mkAgent (nextAgent pm) u
  ∧ ∃ h, health_get u (proxyHealth pm') = Some h ∧ agent h = a ∧ isHealthy h = true.
Proof.
  intros Hg Hnone Hsome.
  destruct (getOrCreateAgent_spec _ _ _ _ _ Hg) as (Hrec & Hother & _ & Hnew & _).
  destruct (decide (u = getProxyUrl p)) as [->|Hne].
  - split_and!; [done| |done]. apply Hnew. unfold healthyRecord. by rewrite Hnone.
  - rewrite Hother in Hsome by done. done.
Qed.

(** C10: for a proxy URL without a health record, [markProxyFailed] and
    [markProxySuccess] return the manager as it was; and whichever public
    method is called, a record for that URL exists afterwards only if the call
    was a selection ([getProxyForToken] or [getRandomAgent]) that picked a
    proxy of the pool with this URL and returned the agent which
    [getOrCreateAgent] allocated for it. *)
Theorem health_record_only_by_selection (pm : ProxyManager) (u : string)
    (Hnone : health_get u (proxyHealth pm) = None) :
  (∀ now, markProxyFailed pm now u = pm ∧ markProxySuccess pm now u = pm)
  ∧ ∀ c, health_get u (proxyHealth (fst (exec pm c))) ≠ None →
         ((∃ token now rnd, c = CallGetProxyForToken token now rnd)
          ∨ (∃ now rnd, c = CallGetRandomAgent now rnd))
         ∧ (∃ p, p ∈ proxies pm ∧ getProxyUrl p = u)
         ∧ snd (exec pm c) = Some (mkAgent (nextAgent pm) u)
         ∧ ∃ h, health_get u (proxyHealth (fst (exec pm c))) = Some h
                ∧ agent h = mkAgent (nextAgent pm) u ∧ isHealthy h = true.
Proof.
  split.
  { intros now. unfold markProxyFailed, markProxySuccess. by rewrite Hnone. }
  intros c Hsome. destruct c; simpl in *.
  - by destruct (loadProxies_health pm file) as (E & _); rewrite E in Hsome.
  - exfalso. apply Hsome. unfold markProxyFailed.
    destruct (health_get proxyUrl (proxyHealth pm)) eqn:Hg; [|done].
    simpl. rewrite health_get_set. case_decide; [congruence|done].
  - exfalso. apply Hsome. unfold markProxySuccess.
    destruct (health_get proxyUrl (proxyHealth pm)) eqn:Hg; [|done].
    simpl. rewrite health_get_set. case_decide; [congruence|done].
  - split; [left; eauto|].
    destruct (stickyCached pm token) as [cached|] eqn:Hs.
    { unfold getProxyForToken in Hsome. rewrite Hs in Hsome. done. }
    destruct (getProxyForToken_selects pm token now rnd Hs)
      as [[_ [E|[i E]]]|(i & p & pm2 & a & Hsel & Hg & E)]; rewrite E in *; simpl in *.
    + done.
    + exfalso. by apply Hsome, promoted_get_None.
    + assert (proxyHealth (match rotationMode pm with
                           | sticky => with_proxyMap pm2 (<[token:=a]> (proxyMap pm))
                           | _ => pm2
                           end) = proxyHealth pm2) as Eh by by destruct (rotationMode pm).
      rewrite Eh in *.
      destruct (getOrCreateAgent_makes _ _ _ _ _ u Hg) as (Hu & -> & Hh);
        [by apply promoted_get_None|done|].
      destruct (selectProxy_spec pm token now rnd) as (_ & _ & Hin).
      destruct (Hin p Hsel) as [Hp _]. split_and!; [by exists p|done|done].
  - split; [right; eauto|].
    destruct (getRandomAgent_selects pm now rnd) as [[_ E]|(p & Hp & _ & E)];
      rewrite E in *; simpl in *.
    + exfalso. by apply Hsome, promoted_get_None.
    + destruct (getOrCreateAgent (promoted pm now) now p) as [pm2 a] eqn:Hg. simpl in *.
      destruct (getOrCreateAgent_makes _ _ _ _ _ u Hg) as (Hu & -> & Hh);
        [by apply promoted_get_None|done|].
      split_and!; [by exists p|done|done].
  - by destruct (setRotationMode_health pm mode) as (E & _); rewrite E in Hsome.
  - rewrite getHealthyProxies_spec in Hsome. exfalso. by apply Hsome, promoted_get_None.
Qed.

(** ** [loadProxies] *)

Lemma keepProxy_true (p : ProxyConfig) :
  keepProxy p = Js.Normal true ↔ validEntry p.
Proof.
  unfold keepProxy, validEntry, placeholderHost.
  destruct (host p) as [h|]; [|split; [done|by intros (? & ? & ? & _)]].
  destruct (Js.includes "example.com" h
            || Js.includes "example" h
            || String.eqb h "localhost"
            || String.eqb h "127.0.0.1"
            || negb (Js.truthy h)
            || negb (match port p with Some q => Js.truthy q | None => false end)) eqn:E.
  - split; [done|]. intros (h' & po & [= <-] & Hpo & Hh & Hq & Hn). exfalso.
    rewrite Hpo in E. rewrite !orb_true_iff, !negb_true_iff in E.
    destruct E as [[[[[E|E]|E]|E]|E]|E].
    + apply includes_spec in E as (b & c & ->). apply Hn. left.
      exists b, (".com" +:+ c). clear. induction b; [done|]. simpl. by f_equal.
    + apply includes_spec in E. by apply Hn; left.
    + apply eqb_true in E. by apply Hn; right; left.
    + apply eqb_true in E. by apply Hn; right; right.
    + apply truthy_true in Hh. congruence.
    + apply truthy_true in Hq. congruence.
  - split; [|done]. intros _.
    rewrite !orb_false_iff, !negb_false_iff in E.
    destruct E as (((((_ & E2) & E3) & E4) & E5) & E6).
    destruct (port p) as [po|]; [|done].
    exists h, po. split_and!; [done|done|by apply truthy_true|by apply truthy_true|].
    intros [Hx|[->| ->]]; [|done..].
    apply includes_spec in Hx. congruence.
Qed.

Lemma filterProxies_elem (l r : list ProxyConfig) (p : ProxyConfig) :
  filterProxies l = Js.Normal r → p ∈ r → p ∈ l ∧ validEntry p.
Proof.
  revert r. induction l as [|q l IH]; intros r; simpl.
  - intros [= <-]. by rewrite elem_of_nil.
  - destruct (keepProxy q) as [b|] eqn:Hk; [|done].
    destruct (filterProxies l) as [r'|]; [|done].
    intros [= <-] Hin. destruct b.
    + apply elem_of_cons in Hin as [->|Hin].
      * split; [left|by apply keepProxy_true].
      * destruct (IH r' eq_refl Hin). split; [by right|done].
    + destruct (IH r' eq_refl Hin). split; [by right|done].
Qed.

(** When every entry has a host field, the filter does not throw and keeps
    exactly the valid entries. *)
Lemma filterProxies_complete (l : list ProxyConfig) :
  Forall (λ p, host p ≠ None) l →
  ∃ r, filterProxies l = Js.Normal r ∧ ∀ p, p ∈ r ↔ p ∈ l ∧ validEntry p.
Proof.
  induction 1 as [|q l Hq Hl (r & Hr & Hiff)]; simpl.
  - exists []. split; [done|]. intros p. rewrite elem_of_nil. tauto.
  - assert (∃ b, keepProxy q = Js.Normal b) as [b Hb].
    { unfold keepProxy. destruct (host q); [|done].
      match goal with |- context [if ?c then _ else _] => destruct c end; by eexists. }
    rewrite Hb, Hr. eexists. split; [done|]. intros p.
    pose proof (keepProxy_true q) as Hv. rewrite Hb in Hv.
    rewrite elem_of_cons. destruct b.
    + rewrite elem_of_cons, Hiff. split.
      * intros [->|[? ?]]; [split; [by left|by apply Hv]|by split; [right|]].
      * intros [[->|?] ?]; [by left|by right].
    + rewrite Hiff. split; [intros [? ?]; by split; [right|]|].
      intros [[->|?] Hp]; [|done]. apply Hv in Hp. done.
Qed.

Lemma loadProxies_elem (pm : ProxyManager) (file : option string) (p : ProxyConfig) :
  p ∈ proxies (loadProxies pm file) →
  validEntry p ∧ ∃ content, file = Some content ∧ p ∈ parseProxies content.
Proof.
  unfold loadProxies. destruct file as [content|]; [|simpl; by rewrite elem_of_nil].
  destruct (filterProxies (parseProxies content)) as [r|] eqn:Hf;
    [|simpl; by rewrite elem_of_nil].
  simpl. intros Hin. destruct (filterProxies_elem _ _ _ Hf Hin). eauto.
Qed.

(** C8: after [loadProxies], every entry of the pool has a host and a port,
    neither empty, and a host that is no example domain and none of the
    loopback names, so that selection, which draws from the pool, never picks
    another entry; when every line of the file has a host field, the pool is
    made of exactly the valid entries of the file; the file of the spec's
    example yields a pool with just its second entry; and when no entry is
    left, [getProxyForToken] on the manager so initialised returns [null] and
    changes nothing. *)
Theorem loadProxies_discards_invalid :
  (∀ pm file p, p ∈ proxies (loadProxies pm file) → validEntry p)
  ∧ (∀ pm content,
       Forall (λ p, host p ≠ None) (parseProxies content) →
       ∀ p, p ∈ proxies (loadProxies pm (Some content))
            ↔ p ∈ parseProxies content ∧ validEntry p)
  ∧ (∀ pm file token now rnd p,
       snd (selectProxy (loadProxies pm file) token now rnd) = Some p → validEntry p)
  ∧ (∀ pm, proxies (loadProxies pm (Some twoProxies)) = [realhost])
  ∧ (∀ mode maxF interval file token now rnd,
       proxies (loadProxies (newProxyManager mode maxF interval) file) = [] →
       getProxyForToken (loadProxies (newProxyManager mode maxF interval) file)
         token now rnd
       = (loadProxies (newProxyManager mode maxF interval) file, None)).
Proof.
  split_and!.
  - intros pm file p Hin. by apply loadProxies_elem in Hin as [? _].
  - intros pm content Hall p. unfold loadProxies.
    by destruct (filterProxies_complete _ Hall) as (r & -> & Hiff).
  - intros pm file token now rnd p Hsel.
    destruct (selectProxy_spec (loadProxies pm file) token now rnd) as (_ & _ & Hin).
    destruct (Hin p Hsel) as [Hp _]. by apply loadProxies_elem in Hp as [? _].
  - intros pm. reflexivity.
  - intros mode maxF interval file token now rnd Hempty.
    unfold getProxyForToken.
    assert (stickyCached (loadProxies (newProxyManager mode maxF interval) file) token
            = None) as ->.
    { unfold stickyCached.
      destruct (loadProxies_health (newProxyManager mode maxF interval) file)
        as (_ & _ & -> & ->).
      simpl. destruct mode; [|done..]. by rewrite lookup_empty. }
    by rewrite Hempty.
Qed.

(** ** [fetchCSRFToken] and [getCSRFToken] *)

Lemma own_names_not_inherited :
  (overrideToken1 ∉ Js.prototypeNames) ∧ (overrideToken2 ∉ Js.prototypeNames).
Proof. split; apply (bool_decide_unpack _); vm_compute; exact I. Qed.

Lemma overrideFor_1 : overrideFor overrideToken1 = Some (Js.Str overrideCt0_1).
Proof. unfold overrideFor, Js.get, CT0_OVERRIDES. by rewrite lookup_insert_eq. Qed.

Lemma overrideFor_2 : overrideFor overrideToken2 = Some (Js.Str overrideCt0_2).
Proof.
  unfold overrideFor, Js.get, CT0_OVERRIDES.
  rewrite lookup_insert_ne by done. by rewrite lookup_insert_eq.
Qed.

Lemma CT0_OVERRIDES_other (token : string) :
  token ≠ overrideToken1 → token ≠ overrideToken2 → CT0_OVERRIDES !! token = None.
Proof.
  intros H1 H2. unfold CT0_OVERRIDES.
  rewrite lookup_insert_ne by done. rewrite lookup_insert_ne by done.
  by rewrite lookup_empty.
Qed.

(** A token that is no key of the table and no name of [Object.prototype]
    has no override. *)
Lemma overrideFor_other (token : string) :
  token ≠ overrideToken1 → token ≠ overrideToken2 → token ∉ Js.prototypeNames →
  overrideFor token = None.
Proof.
  intros H1 H2 Hp. unfold overrideFor, Js.get. rewrite CT0_OVERRIDES_other by done.
  by rewrite bool_decide_eq_false_2.
Qed.

(** Under a name of [Object.prototype] the table answers with what it
    inherits. *)
Lemma overrideFor_inherited (token : string) :
  token ∈ Js.prototypeNames → overrideFor token = Some (Js.Builtin token).
Proof.
  intros Hp. destruct own_names_not_inherited as [N1 N2].
  unfold overrideFor, Js.get. rewrite CT0_OVERRIDES_other by congruence.
  by rewrite bool_decide_eq_true_2.
Qed.

(** Apart from those names, an override is a string that is not empty. *)
Lemma overrideFor_string (token : string) (v : Js.Value) :
  token ∉ Js.prototypeNames → overrideFor token = Some v →
  ∃ s, v = Js.Str s ∧ s ≠ "".
Proof.
  intros Hp. unfold overrideFor, Js.get.
  destruct (CT0_OVERRIDES !! token) as [s|].
  - simpl. destruct (Js.truthy s) eqn:E; [|done]. intros [= <-].
    exists s. split; [done|]. by apply truthy_true.
  - by rewrite bool_decide_eq_false_2.
Qed.

Lemma fetchCSRFToken_inherited (token : string) (env : DerivationEnv) :
  token ∈ Js.prototypeNames →
  fetchCSRFToken token env = Js.Normal (mkCt0 (Js.Builtin token) FromOverride []).
Proof.
  intros Hp. unfold fetchCSRFToken, fetchCSRFToken_try.
  by rewrite (overrideFor_inherited token Hp).
Qed.

(** C9, at the auth token [constructor].  The token is neither of the two
    keys of [CT0_OVERRIDES], and yet [fetchCSRFToken] takes the override
    branch: whatever the network would answer, it issues no request and
    returns what the object inherits under that name, which is no string. *)
Theorem fetchCSRFToken_inherited_override :
  "constructor" ≠ overrideToken1 ∧ "constructor" ≠ overrideToken2
  ∧ CT0_OVERRIDES !! "constructor" = None
  ∧ ∀ env, fetchCSRFToken "constructor" env
           = Js.Normal (mkCt0 (Js.Builtin "constructor") FromOverride []).
Proof.
  split_and!; [done|done|reflexivity|]. intros env.
  apply fetchCSRFToken_inherited. unfold Js.prototypeNames. left.
Qed.

Lemma toString16_nonempty (n : nat) : toString16 n ≠ "".
Proof. unfold toString16. by destruct (Nat.to_hex_uint n). Qed.

Lemma toString16_digit (n : nat) : (n < 16)%nat → String.length (toString16 n) = 1%nat.
Proof.
  intros Hn. do 16 (destruct n as [|n]; [reflexivity|]). lia.
Qed.

Lemma floor_mul_lt (r : Js.Rand01) (n : nat) :
  Js.rand_valid r → (0 < n)%nat → (Js.floor_mul r n < n)%nat.
Proof.
  unfold Js.rand_valid, Js.floor_mul. intros Hr Hn.
  apply Nat.Div0.div_lt_upper_bound. nia.
Qed.

Lemma length_append (s t : string) :
  String.length (s +:+ t) = (String.length s + String.length t)%nat.
Proof. induction s; simpl; [done|]. by rewrite IHs. Qed.

Lemma generateFallbackCT0_nonempty (draws : nat → Js.Rand01) :
  generateFallbackCT0 draws ≠ "".
Proof.
  unfold generateFallbackCT0. cbn [seq foldr].
  pose proof (toString16_nonempty (Js.floor_mul (draws 0%nat) 16)) as H.
  by destruct (toString16 (Js.floor_mul (draws 0%nat) 16)).
Qed.

(** With values of [Math.random()] below one, the fallback has 32 digits. *)
Lemma generateFallbackCT0_length (draws : nat → Js.Rand01) :
  (∀ i, Js.rand_valid (draws i)) →
  String.length (generateFallbackCT0 draws) = 32%nat.
Proof.
  intros Hv. unfold generateFallbackCT0.
  assert (∀ l, String.length
                 (foldr (λ i acc, toString16 (Js.floor_mul (draws i) 16) +:+ acc) "" l)
               = length l) as H.
  { induction l as [|i l IH]; [done|]. simpl. rewrite length_append, IH.
    rewrite toString16_digit; [done|]. apply floor_mul_lt; [done|lia]. }
  by rewrite H, length_seq.
Qed.

Lemma matchCt0_nonempty (stop : ascii → bool) (s t : string) :
  matchCt0 stop s = Some t → t ≠ "".
Proof.
  induction s as [|c s IH]; [done|].
  cbn [matchCt0]. destruct (Js.startsWith "ct0=" (String c s)); [|done].
  destruct (takeWhile (λ c0, negb (stop c0)) (dropChars 4 (String c s))); [done|].
  by intros [= <-].
Qed.

(** [fetchCSRFToken] always completes normally.  What it returns is a string
    that is not empty, unless the override branch was taken under a name of
    [Object.prototype]. *)
Lemma fetchCSRFToken_total (authToken : string) (env : DerivationEnv) :
  ∃ r, fetchCSRFToken authToken env = Js.Normal r
       ∧ ct0_requests r = fst (fetchCSRFToken_try authToken env)
       ∧ (authToken ∉ Js.prototypeNames → ∃ t, ct0_value r = Js.Str t ∧ t ≠ "")
       ∧ (derivationFails authToken env →
          ct0_value r = Js.Str (generateFallbackCT0 (fallbackDraws env))
          ∧ ct0_source r = FromFallback).
Proof.
  unfold fetchCSRFToken, derivationFails.
  destruct (fetchCSRFToken_try authToken env) as [reqs [[t src]|e]] eqn:Htry; simpl.
  - eexists. split_and!; [done|done| |]; simpl.
    + intros Hp. revert Htry. unfold fetchCSRFToken_try.
      pose proof (generateFallbackCT0_nonempty (fallbackDraws env)) as Hfb.
      destruct (overrideFor authToken) as [o|] eqn:Ho.
      { intros [= <- <- <-]. by apply (overrideFor_string authToken). }
      destruct (moduleLoad env); [|done].
      destruct (credentialsResponse env) as [resp|]; [|done].
      destruct (from_option _ _ _) as [t1|] eqn:H1.
      { intros [= <- <- <-]. eexists. split; [done|].
        destruct (orElse (headers_get resp "set-cookie") None); [|done].
        by eapply matchCt0_nonempty. }
      destruct (matchCt0 semicolonCommaSpace _) as [t2|] eqn:H2.
      { intros [= <- <- <-]. eexists. split; [done|]. by eapply matchCt0_nonempty. }
      destruct (homeResponse env) as [home|]; [|done].
      destruct (matchCt0 semicolon _) as [t3|] eqn:H3.
      { intros [= <- <- <-]. eexists. split; [done|]. by eapply matchCt0_nonempty. }
      intros [= <- <- <-]. by eexists.
    + intros ->. split; [|done]. revert Htry. unfold fetchCSRFToken_try.
      destruct (overrideFor authToken); [done|].
      destruct (moduleLoad env); [|done].
      destruct (credentialsResponse env) as [resp|]; [|done].
      destruct (from_option _ _ _); [done|].
      destruct (matchCt0 semicolonCommaSpace _); [done|].
      destruct (homeResponse env) as [home|]; [|done].
      destruct (matchCt0 semicolon _); [done|].
      by intros [= <- <-].
  - unfold fetchCSRFToken_catch. eexists. split_and!; [done|done| |done]; simpl.
    intros _. eexists. split; [done|]. apply generateFallbackCT0_nonempty.
Qed.

(** A transport error on the first request is one way for the derivation to
    fail; a response without a [ct0] cookie, twice, is another. *)
Lemma derivationFails_network (authToken : string) (env : DerivationEnv) (e : JsError) :
  overrideFor authToken = None →
  credentialsResponse env = Js.Throw e →
  derivationFails authToken env.
Proof.
  intros Ho He. unfold derivationFails, fetchCSRFToken_try. rewrite Ho, He.
  by destruct (moduleLoad env).
Qed.

Lemma derivationFails_malformed (authToken : string) (env : DerivationEnv) :
  overrideFor authToken = None →
  credentialsResponse env = Js.Normal [] →
  homeResponse env = Js.Normal [] →
  derivationFails authToken env.
Proof.
  intros Ho H1 H2. unfold derivationFails, fetchCSRFToken_try. rewrite Ho, H1, H2.
  by destruct (moduleLoad env).
Qed.


(** When the line is logged, a token that is returned is a string, and the
    cache holds it. *)
Lemma getCSRFToken_loud (c c1 : TwitterClient) (token : string) (env : DerivationEnv)
    (now : Z) (rnd : Js.Rand01) (v : Js.Value) (reqs : list string) :
  getCSRFToken c token false env now rnd = (c1, Js.Normal v, reqs) →
  cachedString (tokenCache c1) token ∧ ∃ s, v = Js.Str s.
Proof.
  unfold getCSRFToken, logCt0.
  destruct (tokenCache c !! token) as [cached|] eqn:Hhit.
  - destruct (ct0 cached) as [s|n] eqn:Hs; [|done]. intros [= <- <- <-].
    split; [by exists cached, s|by exists s].
  - destruct (fetchCSRFToken_total token env) as (r & -> & _).
    destruct (getAgent _ _ _ _) as [pm1 a].
    destruct (ct0_value r) as [s|n] eqn:Hs; [|done]. intros [= <- <- <-].
    split; [|by exists s]. eexists _, s. simpl. by rewrite lookup_insert_eq.
Qed.

(** C3, at the auth token [constructor] on a new client.  [fetchCSRFToken]
    answers with the inherited function; [getCSRFToken] writes it into the
    cache and then throws on the line it logs, having issued no request; every
    later call finds the entry and throws again. *)
Theorem getCSRFToken_throws_at_inherited_name :
  tokenCache newTwitterClient !! "constructor" = None
  ∧ ∀ env now rnd,
      ∃ c' e,
        getCSRFToken newTwitterClient "constructor" false env now rnd
        = (c', Js.Throw e, [])
        ∧ ct0 <$> tokenCache c' !! "constructor" = Some (Js.Builtin "constructor")
        ∧ ∀ env' now' rnd',
            ∃ e', getCSRFToken c' "constructor" false env' now' rnd'
                  = (c', Js.Throw e', []).
Proof.
  split; [reflexivity|]. intros env now rnd. unfold getCSRFToken at 1.
  change (tokenCache newTwitterClient !! "constructor") with (@None TokenCache).
  rewrite fetchCSRFToken_inherited by (unfold Js.prototypeNames; left).
  destruct (getAgent _ _ _ _) as [pm1 a]. cbn [ct0_value ct0_requests logCt0].
  eexists _, _. split; [reflexivity|]. cbn [tokenCache].
  rewrite lookup_insert_eq. split; [done|].
  intros env' now' rnd'. unfold getCSRFToken. cbn [tokenCache].
  rewrite lookup_insert_eq. cbn [ct0 logCt0]. by eexists.
Qed.

(** X15: apart from the names of [Object.prototype], [getCSRFToken] completes
    normally whatever the derivation does.  On a cache hit it returns the
    cached string, issues no request and leaves the client as it was.  On a
    cache miss it returns a string that is not empty and caches it; when the
    derivation fails, by a transport error or by responses that carry no ct0,
    that string is the locally generated fallback, 32 hexadecimal digits
    long. *)
Theorem getCSRFToken_string (c : TwitterClient) (token : string) (silent : bool)
    (env : DerivationEnv) (now : Z) (rnd : Js.Rand01)
    (Hname : token ∉ Js.prototypeNames) :
  (∀ cached s, tokenCache c !! token = Some cached → ct0 cached = Js.Str s →
               getCSRFToken c token silent env now rnd = (c, Js.Normal (Js.Str s), []))
  ∧ (tokenCache c !! token = None →
     ∃ c' t,
       getCSRFToken c token silent env now rnd
       = (c', Js.Normal (Js.Str t), fst (fetchCSRFToken_try token env))
       ∧ t ≠ ""
       ∧ ct0 <$> tokenCache c' !! token = Some (Js.Str t)
       ∧ (derivationFails token env →
          t = generateFallbackCT0 (fallbackDraws env)
          ∧ ((∀ i, Js.rand_valid (fallbackDraws env i)) → String.length t = 32%nat))).
Proof.
  pose proof Hname as Hp. split.
  - intros cached s Hhit Hs. unfold getCSRFToken, logCt0. rewrite Hhit, Hs.
    by destruct silent.
  - intros Hmiss. unfold getCSRFToken, logCt0. rewrite Hmiss.
    destruct (fetchCSRFToken_total token env) as (r & -> & Hreq & Hstr & Hfail).
    destruct (Hstr Hp) as (t & Ht & Hne).
    destruct (getAgent (proxyManager c) token now rnd) as [pm1 a].
    rewrite Hreq, Ht. exists (mkClient pm1
      (<[token := mkTokenCache (Js.Str t) a (bool_decide (a ≠ None))]> (tokenCache c))), t.
    split; [by destruct silent|]. simpl.
    split_and!; [done|by rewrite lookup_insert_eq|].
    intros Hf. destruct (Hfail Hf) as [E _]. rewrite Ht in E. injection E as ->.
    split; [done|]. apply generateFallbackCT0_length.
Qed.

(** ** Round-robin rotation *)

Section RoundRobin.
Implicit Types (pm : ProxyManager) (p : ProxyConfig) (a : ProxyAgent).

Lemma with_proxyHealth_id pm : with_proxyHealth pm (proxyHealth pm) = pm.
Proof. by destruct pm. Qed.

Lemma getHealthyProxies_allUp pm now :
  allUp pm → getHealthyProxies pm now = (pm, proxies pm).
Proof.
  intros Hup. unfold getHealthyProxies.
  rewrite filterHealthy_all_up by done. by rewrite with_proxyHealth_id.
Qed.

(** One selection in round-robin mode over a pool that is up. *)
Lemma roundRobin_step pm token now rnd :
  wf pm → rotationMode pm = round_robin → allUp pm → proxies pm ≠ [] →
  ∃ p a pm',
    proxies pm !! (currentIndex pm mod length (proxies pm))%nat = Some p
    ∧ getProxyForToken pm token now rnd = (pm', Some a)
    ∧ agent_url a = getProxyUrl p
    ∧ getProxyUrlForAgent pm' a = Some (getProxyUrl p)
    ∧ wf pm' ∧ rotationMode pm' = round_robin ∧ allUp pm'
    ∧ proxies pm' = proxies pm
    ∧ currentIndex pm' = S (currentIndex pm).
Proof.
  intros Hwf Hmode Hup Hne.
  destruct (lookup_lt_is_Some_2 (proxies pm)
              (currentIndex pm mod length (proxies pm))%nat) as [p Hp].
  { apply Nat.mod_upper_bound. by destruct (proxies pm). }
  unfold getProxyForToken, stickyCached, selectProxy. rewrite Hmode.
  rewrite getHealthyProxies_allUp by done.
  unfold selectProxyFromList. rewrite Hmode.
  destruct (proxies pm) as [|q l] eqn:Hl; [done|].
  unfold roundRobin. rewrite Hp.
  destruct (getOrCreateAgent (with_currentIndex pm (S (currentIndex pm))) now p)
    as [pm2 a] eqn:Hg.
  assert (wf (with_currentIndex pm (S (currentIndex pm)))) as Hwf1 by done.
  destruct (getOrCreateAgent_url _ _ _ _ _ Hwf1 Hg) as [Hres Hurl].
  pose proof (getOrCreateAgent_wf _ now p Hwf1) as Hwf2. rewrite Hg in Hwf2.
  destruct (getOrCreateAgent_spec _ _ _ _ _ Hg)
    as ((h & Hget & _ & Hh) & Hother & _ & _ & Hps & _ & Hci & Hrm & _).
  simpl in *. rewrite Hrm, Hmode.
  exists p, a, pm2. split_and!; try done.
  - by rewrite Hrm.
  - unfold allUp in *. rewrite Hps.
    eapply Forall_impl; [exact Hup|]. intros x Hx. unfold notMarkedDown in *.
    destruct (decide (getProxyUrl x = getProxyUrl p)) as [->|Hne'].
    + by rewrite Hget.
    + by rewrite Hother.
  - by rewrite Hps.
Qed.

(** [k] selections return the agents of the proxies at the next [k]
    positions of the cursor. *)
Lemma roundRobin_steps pm reqs :
  wf pm → rotationMode pm = round_robin → allUp pm → proxies pm ≠ [] →
  ∃ agents,
    snd (getProxiesForTokens pm reqs) = Some <$> agents
    ∧ length agents = length reqs
    ∧ (∀ j a, agents !! j = Some a →
              ∃ p, proxies pm !! ((currentIndex pm + j) mod length (proxies pm))%nat
                   = Some p
                   ∧ agent_url a = getProxyUrl p)
    ∧ currentIndex (fst (getProxiesForTokens pm reqs))
      = (currentIndex pm + length reqs)%nat
    ∧ proxies (fst (getProxiesForTokens pm reqs)) = proxies pm.
Proof.
  revert pm. induction reqs as [|[[token now] rnd] reqs IH]; intros pm Hwf Hmode Hup Hne.
  - exists []. simpl. split_and!; [done|done| |lia|done]. intros j a. by rewrite lookup_nil.
  - destruct (roundRobin_step pm token now rnd Hwf Hmode Hup Hne)
      as (p & a & pm1 & Hp & Hsel & Hurl & _ & Hwf1 & Hmode1 & Hup1 & Hps & Hci).
    cbn [getProxiesForTokens]. rewrite Hsel.
    destruct (IH pm1 Hwf1 Hmode1 Hup1) as (agents & Hag & Hlen & Hidx & Hcur & Hpool).
    { by rewrite Hps. }
    destruct (getProxiesForTokens pm1 reqs) as [pm2 r]. simpl in *. subst r.
    exists (a :: agents). split_and!.
    + done.
    + simpl. by rewrite Hlen.
    + intros [|j] b Hb; simpl in Hb.
      * injection Hb as <-. exists p. by rewrite Nat.add_0_r.
      * destruct (Hidx j b Hb) as (q & Hq & Hu). exists q. split; [|done].
        rewrite Hps, Hci in Hq. rewrite <- Hq. f_equal. f_equal. lia.
    + rewrite Hcur, Hci. lia.
    + by rewrite Hpool.
Qed.

Lemma rotate_nat_add_mod (n i len : nat) :
  rotate_nat_add n i len = ((n + i) mod len)%nat.
Proof.
  unfold rotate_nat_add. rewrite <- Nat2Z.inj_add, <- Nat2Z.inj_mod.
  apply Nat2Z.id.
Qed.

Lemma rotate_Permutation {A} (n : nat) (l : list A) : rotate n l ≡ₚ l.
Proof.
  unfold rotate. rewrite Permutation_app_comm. by rewrite take_drop.
Qed.
End RoundRobin.

(** C7: in round-robin mode, on a pool of [N] proxies none of which is marked
    down, [N] consecutive selections, whatever their tokens, all return an
    agent; the URLs of these agents are those of the pool read from the cursor
    onwards and wrapping, so that each proxy of the pool is returned exactly
    once; and the cursor has advanced by one per selection. *)
Theorem round_robin_visits_all (pm : ProxyManager) (reqs : list (string * Z * Js.Rand01))
    (Hwf : wf pm) (Hmode : rotationMode pm = round_robin) (Hup : allUp pm)
    (Hlen : length reqs = length (proxies pm)) :
  ∃ agents,
    snd (getProxiesForTokens pm reqs) = Some <$> agents
    ∧ agent_url <$> agents = getProxyUrl <$> rotate (currentIndex pm) (proxies pm)
    ∧ agent_url <$> agents ≡ₚ getProxyUrl <$> proxies pm
    ∧ currentIndex (fst (getProxiesForTokens pm reqs))
      = (currentIndex pm + length (proxies pm))%nat.
Proof.
  destruct (decide (proxies pm = [])) as [Hnil|Hne].
  { rewrite Hnil in Hlen |- *. destruct reqs; [|simpl in Hlen; lia]. exists []. simpl.
    split_and!; [done|unfold rotate; by rewrite drop_nil, take_nil|constructor|lia]. }
  destruct (roundRobin_steps pm reqs Hwf Hmode Hup Hne)
    as (agents & Hag & Hn & Hidx & Hcur & _).
  assert (agent_url <$> agents = getProxyUrl <$> rotate (currentIndex pm) (proxies pm)) as E.
  { apply list_eq_same_length with (length reqs).
    - by rewrite length_fmap, length_rotate.
    - by rewrite length_fmap.
    - intros j x y Hj Hx Hy.
      rewrite list_lookup_fmap in Hx. rewrite list_lookup_fmap in Hy.
      destruct (agents !! j) as [a|] eqn:Ha; [|done]. injection Hx as <-.
      destruct (Hidx j a Ha) as (p & Hp & Hu).
      rewrite lookup_rotate_r, rotate_nat_add_mod in Hy by lia.
      rewrite Hp in Hy. simpl in Hy. congruence. }
  exists agents. split_and!; [done|done| |by rewrite Hcur, Hlen].
  rewrite E. by rewrite rotate_Permutation.
Qed.

(** ** Sticky rotation *)

Section Sticky.
Implicit Types (pm : ProxyManager) (p : ProxyConfig) (a : ProxyAgent) (u v : string).

Lemma findUrlOfAgent_by_id (m : HealthMap) a b :
  same_agent a b = true → findUrlOfAgent m a = findUrlOfAgent m b.
Proof.
  unfold same_agent. intros E%Nat.eqb_eq.
  induction m as [|[k h] m IH]; simpl; [done|].
  unfold same_agent. by rewrite E, IH.
Qed.

Lemma same_agent_sym a b : same_agent a b = same_agent b a.
Proof. unfold same_agent. apply Nat.eqb_sym. Qed.

Lemma healthyUnder_resolves pm u a :
  wf pm → healthyUnder pm u a → getProxyUrlForAgent pm a = Some u.
Proof.
  intros Hwf (h & Hget & Hid & _). unfold getProxyUrlForAgent.
  rewrite same_agent_sym in Hid. rewrite (findUrlOfAgent_by_id _ _ _ Hid).
  by eapply findUrlOfAgent_of_get.
Qed.

(** The shortcut: a cached agent in a healthy record is returned as it is,
    and the manager does not change. *)
Lemma sticky_hit pm token a u now rnd :
  wf pm → rotationMode pm = sticky → proxyMap pm !! token = Some a →
  healthyUnder pm u a →
  getProxyForToken pm token now rnd = (pm, Some a).
Proof.
  intros Hwf Hmode Hmap Hu.
  pose proof (healthyUnder_resolves pm u a Hwf Hu) as Hres.
  destruct Hu as (h & Hget & _ & Hh).
  assert (Js.truthy u = true) as Htr.
  { destruct Hwf as [_ _ _ _ _ Ht]. rewrite Forall_forall in Ht.
    apply (Ht (u, h)). by apply health_get_Some_elem. }
  unfold getProxyForToken, stickyCached. unfold getProxyUrlForAgent in Hres.
  by rewrite Hmode, Hmap, Hres, Htr, Hget, Hh.
Qed.

(** A selection that returns an agent leaves it cached for the token, in a
    record marked healthy. *)
Lemma sticky_assigns pm token now rnd pm' a :
  wf pm → rotationMode pm = sticky →
  getProxyForToken pm token now rnd = (pm', Some a) →
  wf pm' ∧ rotationMode pm' = sticky ∧ proxyMap pm' !! token = Some a
  ∧ ∃ u, healthyUnder pm' u a.
Proof.
  intros Hwf Hmode Hsel.
  assert (wf pm') as Hwf'.
  { change pm' with (fst (pm', Some a)). rewrite <- Hsel. by apply getProxyForToken_wf. }
  destruct (stickyCached pm token) as [c|] eqn:Hs.
  - unfold getProxyForToken in Hsel. rewrite Hs in Hsel. injection Hsel as <- <-.
    unfold stickyCached in Hs. rewrite Hmode in Hs.
    destruct (proxyMap pm !! token) as [c'|] eqn:Hmap; [|done].
    destruct (findUrlOfAgent (proxyHealth pm) c') as [u|] eqn:Hf; [|done].
    destruct (Js.truthy u); [|done].
    destruct (health_get u (proxyHealth pm)) as [h|] eqn:Hget; [|done].
    destruct (isHealthy h) eqn:Hh; [|done]. injection Hs as <-.
    split_and!; [done..|]. exists u.
    destruct (findUrlOfAgent_Some _ _ _ Hf) as (h' & Hin & Hid).
    rewrite (wfHealth_get _ _ _ _ Hwf Hin) in Hget. injection Hget as ->.
    exists h. split_and!; [by eapply wfHealth_get|by apply Nat.eqb_eq|done].
  - destruct (getProxyForToken_selects pm token now rnd Hs)
      as [[Hnone _]|(i & p & pm2 & b & _ & Hg & E)].
    { by rewrite Hsel in Hnone. }
    rewrite Hsel, Hmode in E. injection E as -> ->.
    destruct (getOrCreateAgent_spec _ _ _ _ _ Hg)
      as ((h & Hget & Ha & Hh) & _ & _ & _ & _ & _ & _ & Hr & _).
    simpl in *. split_and!; [done|by rewrite Hr|by rewrite lookup_insert_eq|].
    exists (getProxyUrl p), h. split_and!; [done| |done].
    rewrite Ha. unfold same_agent. apply Nat.eqb_refl.
Qed.

Lemma promoted_keeps pm now u h :
  health_get u (proxyHealth pm) = Some h → isHealthy h = true →
  health_get u (proxyHealth (promoted pm now)) = Some h.
Proof.
  intros Hget Hh. rewrite promoted_get, Hget. simpl.
  rewrite promoteRecord_healthy by done. by case_decide.
Qed.

Lemma getOrCreateAgent_keeps pm now p u h :
  health_get u (proxyHealth pm) = Some h → isHealthy h = true →
  health_get u (proxyHealth (fst (getOrCreateAgent pm now p))) = Some h.
Proof.
  intros Hget Hh. destruct (getOrCreateAgent pm now p) as [pm' a] eqn:Hg.
  destruct (getOrCreateAgent_spec _ _ _ _ _ Hg) as (_ & Hother & Hsame & _).
  simpl. destruct (decide (u = getProxyUrl p)) as [->|Hne].
  - rewrite Hsame; [done|]. unfold healthyRecord. by rewrite Hget.
  - by rewrite Hother.
Qed.

(** No call takes the agent out of a record marked healthy. *)
Lemma exec_keeps_agent pm c u h :
  health_get u (proxyHealth pm) = Some h → isHealthy h = true →
  ∃ h', health_get u (proxyHealth (fst (exec pm c))) = Some h' ∧ agent h' = agent h.
Proof.
  intros Hget Hh. destruct c; simpl.
  - destruct (loadProxies_health pm file) as (-> & _). eauto.
  - unfold markProxyFailed.
    destruct (health_get proxyUrl (proxyHealth pm)) as [hf|] eqn:Hf; [|eauto].
    simpl. rewrite health_get_set. case_decide; [|eauto].
    subst. rewrite Hget in Hf. injection Hf as ->. eauto.
  - unfold markProxySuccess.
    destruct (health_get proxyUrl (proxyHealth pm)) as [hf|] eqn:Hf; [|eauto].
    simpl. rewrite health_get_set. case_decide; [|eauto].
    subst. rewrite Hget in Hf. injection Hf as ->. eauto.
  - destruct (stickyCached pm token) as [cached|] eqn:Hs.
    { unfold getProxyForToken. rewrite Hs. eauto. }
    destruct (getProxyForToken_selects pm token now rnd Hs)
      as [[_ [->|[i ->]]]|(i & p & pm2 & a & _ & Hg & ->)].
    + eauto.
    + exists h. split; [|done]. by apply promoted_keeps.
    + exists h. split; [|done].
      assert (health_get u (proxyHealth pm2) = Some h) as Hk.
      { change pm2 with (fst (pm2, a)). rewrite <- Hg.
        apply getOrCreateAgent_keeps; [|done]. by apply promoted_keeps. }
      simpl. by destruct (rotationMode pm).
  - destruct (getRandomAgent_selects pm now rnd) as [[_ ->]|(p & _ & _ & ->)].
    + exists h. split; [|done]. by apply promoted_keeps.
    + exists h. split; [|done]. simpl.
      apply getOrCreateAgent_keeps; [|done]. by apply promoted_keeps.
  - destruct (setRotationMode_health pm mode) as (-> & _). eauto.
  - rewrite getHealthyProxies_spec. exists h. split; [|done]. by apply promoted_keeps.
Qed.

(** No call other than a selection for [token] itself, or a change of the
    mode, touches the agent cached for [token]. *)
Lemma exec_keeps_assignment pm c token a u :
  wf pm → rotationMode pm = sticky → proxyMap pm !! token = Some a →
  healthyUnder pm u a →
  rotationMode (fst (exec pm c)) = sticky →
  proxyMap (fst (exec pm c)) !! token = Some a.
Proof.
  intros Hwf Hmode Hmap Hu Hmode'. destruct c; simpl in *.
  - by destruct (loadProxies_health pm file) as (_ & _ & -> & _).
  - unfold markProxyFailed. by destruct (health_get proxyUrl (proxyHealth pm)).
  - unfold markProxySuccess. by destruct (health_get proxyUrl (proxyHealth pm)).
  - destruct (decide (token0 = token)) as [->|Hne].
    { by rewrite (sticky_hit pm token a u now rnd). }
    destruct (stickyCached pm token0) as [cached|] eqn:Hs.
    { unfold getProxyForToken. by rewrite Hs. }
    destruct (getProxyForToken_selects pm token0 now rnd Hs)
      as [[_ [->|[i ->]]]|(i & p & pm2 & b & _ & Hg & ->)]; [done..|].
    rewrite Hmode. simpl. by rewrite lookup_insert_ne.
  - destruct (getRandomAgent_selects pm now rnd) as [[_ ->]|(p & _ & _ & ->)]; [done|].
    simpl. destruct (getOrCreateAgent (promoted pm now) now p) as [pm2 b] eqn:Hg.
    destruct (getOrCreateAgent_spec _ _ _ _ _ Hg) as (_ & _ & _ & _ & _ & Hm & _).
    simpl. by rewrite Hm.
  - destruct mode; [done|done..].
  - by rewrite getHealthyProxies_spec.
Qed.
End Sticky.

(** C6: in sticky mode, once [getProxyForToken] has returned an agent for a
    token, every later call for that token returns the same agent and leaves
    the manager unchanged, whatever calls were made in between, as long as the
    manager stayed in sticky mode and the record of the proxy the agent belongs
    to stayed marked healthy. *)
Theorem sticky_returns_same (pm0 pm1 : ProxyManager) (token : string) (t0 : Z)
    (r0 : Js.Rand01) (a : ProxyAgent) (u : string) (cs : list Call)
    (Hwf : wf pm0) (Hmode : rotationMode pm0 = sticky)
    (Hfirst : getProxyForToken pm0 token t0 r0 = (pm1, Some a))
    (Hurl : getProxyUrlForAgent pm1 a = Some u)
    (Hstays : staysHealthy pm1 u cs) :
  ∀ now rnd,
    getProxyForToken (execAll pm1 cs) token now rnd = (execAll pm1 cs, Some a).
Proof.
  destruct (sticky_assigns _ _ _ _ _ _ Hwf Hmode Hfirst) as (Hwf1 & Hmode1 & Hmap1 & u' & Hu').
  assert (u' = u) as ->.
  { pose proof (healthyUnder_resolves _ _ _ Hwf1 Hu') as E. congruence. }
  clear Hfirst Hurl Hwf Hmode. revert pm1 Hwf1 Hmode1 Hmap1 Hu' Hstays.
  induction cs as [|c cs IH]; intros pm Hwf1 Hmode1 Hmap1 Hu Hstays now rnd; simpl.
  - by apply (sticky_hit pm token a u).
  - destruct Hstays as (Hmode2 & Hrec & Hstays).
    apply IH; [by apply exec_wf|done|by eapply exec_keeps_assignment| |done].
    destruct Hu as (h & Hget & Hid & Hh).
    destruct (exec_keeps_agent pm c u h Hget Hh) as (h' & Hget' & Ha).
    exists h'. split_and!; [done|by rewrite Ha|].
    unfold healthyRecord in Hrec. by rewrite Hget' in Hrec.
Qed.

(** ** Failure streaks and the cooldown *)

Section Cooldown.
Implicit Types (pm : ProxyManager) (p : ProxyConfig) (a : ProxyAgent) (u v : string)
  (h : ProxyHealth).

Lemma markProxyFailed_frame pm now u :
  ∃ m, markProxyFailed pm now u = with_proxyHealth pm m.
Proof.
  unfold markProxyFailed. destruct (health_get u (proxyHealth pm)); [by eexists|].
  exists (proxyHealth pm). by destruct pm.
Qed.

Lemma markProxyFailedAt_frame pm u times :
  ∃ m, markProxyFailedAt pm u times = with_proxyHealth pm m.
Proof.
  revert pm. unfold markProxyFailedAt.
  induction times as [|t ts IH]; intros pm; cbn [foldl].
  - exists (proxyHealth pm). by destruct pm.
  - destruct (markProxyFailed_frame pm t u) as [m ->].
    destruct (IH (with_proxyHealth pm m)) as [m' ->]. by exists m'.
Qed.

Lemma markProxyFailedAt_wf pm u times : wf pm → wf (markProxyFailedAt pm u times).
Proof.
  revert pm. induction times as [|t ts IH]; intros pm Hwf; [done|].
  apply IH. by apply markProxyFailed_wf.
Qed.

(** A streak of failures: the count goes up by its length, the time of the
    last one is recorded, and the record is marked down once the count has
    reached [maxFailures]. *)
Lemma markProxyFailedAt_record pm u h times :
  health_get u (proxyHealth pm) = Some h →
  ∃ h', health_get u (proxyHealth (markProxyFailedAt pm u times)) = Some h'
        ∧ agent h' = agent h
        ∧ failures h' = failures h + Z.of_nat (length times)
        ∧ lastFailure h' = from_option Some (lastFailure h) (last times)
        ∧ (times ≠ [] → maxFailures pm <= failures h' → isHealthy h' = false).
Proof.
  revert pm h. induction times as [|t ts IH]; intros pm h Hget.
  - exists h. simpl. split_and!; [done|done|lia|done|done].
  - cbn [markProxyFailedAt foldl].
    set (h1 := mkHealth (agent h) (failures h + 1) (Some t) (lastSuccess h)
                 (if maxFailures pm <=? failures h + 1 then false else isHealthy h)).
    assert (markProxyFailed pm t u
            = with_proxyHealth pm (health_set u h1 (proxyHealth pm))) as E.
    { unfold markProxyFailed. by rewrite Hget. }
    destruct (IH (markProxyFailed pm t u) h1) as (h' & Hget' & Ha & Hf & Hl & Hd).
    { rewrite E. simpl. apply health_get_set_eq. }
    exists h'. fold (markProxyFailedAt (markProxyFailed pm t u) u ts).
    split_and!; [done|done| | |].
    + rewrite Hf. simpl. lia.
    + rewrite Hl. simpl. destruct ts as [|t' ts']; [done|].
      rewrite last_cons_cons.
      destruct (last (t' :: ts')) eqn:El; [done|]. by apply last_None in El.
    + intros _ Hmax. destruct ts as [|t' ts'].
      * simpl in Hget'. rewrite E in Hget'. simpl in Hget'.
        rewrite health_get_set_eq in Hget'. injection Hget' as <-.
        simpl in *. destruct (Z.leb_spec (maxFailures pm) (failures h + 1)); [done|lia].
      * apply Hd; [done|]. by rewrite E.
Qed.

(** During the cooldown the proxy is not in the eligible set, its record is
    left alone, and a selection that has an eligible proxy to choose from
    returns the agent of another proxy. *)
Lemma cooldown_excludes pm u h lf now :
  wf pm →
  health_get u (proxyHealth pm) = Some h → isHealthy h = false →
  lastFailure h = Some lf → now - lf < healthCheckInterval pm * 1000 →
  (∀ p, p ∈ snd (getHealthyProxies pm now) → getProxyUrl p ≠ u)
  ∧ health_get u (proxyHealth (fst (getHealthyProxies pm now))) = Some h
  ∧ ∀ token rnd pm' a,
      snd (getHealthyProxies pm now) ≠ [] →
      getProxyForToken pm token now rnd = (pm', Some a) →
      getProxyUrlForAgent pm' a ≠ Some u
      ∧ health_get u (proxyHealth pm') = Some h.
Proof.
  intros Hwf Hget Hh Hlf Hcool. rewrite getHealthyProxies_spec. simpl.
  assert (eligibleRecord now (healthCheckInterval pm) h = false) as Hel.
  { unfold eligibleRecord, inCooldown. rewrite Hh, Hlf. simpl.
    apply negb_false_iff, Z.ltb_lt. lia. }
  assert (∀ p, p ∈ eligibleProxies pm now → getProxyUrl p ≠ u) as Hex.
  { intros p [_ He]%eligibleProxies_elem Hu. unfold eligible in He.
    rewrite Hu, Hget in He. congruence. }
  assert (health_get u (proxyHealth (promoted pm now)) = Some h) as Hprom.
  { rewrite promoted_get, Hget. simpl. unfold promoteRecord. rewrite Hh, Hel.
    by case_decide. }
  split_and!; [done|done|].
  intros token rnd pm' a Hne Hsel.
  destruct (stickyCached pm token) as [c|] eqn:Hs.
  - unfold getProxyForToken in Hsel. rewrite Hs in Hsel. injection Hsel as <- <-.
    split; [|done].
    destruct (stickyCached_Some _ _ _ Hs) as (_ & _ & u' & Hres & Hrec).
    rewrite Hres. intros [= ->]. unfold healthyRecord in Hrec.
    rewrite Hget in Hrec. congruence.
  - destruct (getProxyForToken_selects pm token now rnd Hs)
      as [[Hnone _]|(i & p & pm2 & b & Hp & Hg & E)].
    { by rewrite Hsel in Hnone. }
    rewrite Hsel in E. injection E as -> ->.
    destruct (selectProxy_spec pm token now rnd) as (_ & _ & Hin).
    destruct (Hin p Hp) as [_ Hel']. specialize (Hex p (Hel' Hne)).
    assert (wf (with_currentIndex (promoted pm now) i)) as Hwf1 by by apply promoted_wf.
    destruct (getOrCreateAgent_url _ _ _ _ _ Hwf1 Hg) as [Hres _].
    destruct (getOrCreateAgent_spec _ _ _ _ _ Hg) as (_ & Hother & _).
    assert (getProxyUrlForAgent pm2 b ≠ Some u
            ∧ health_get u (proxyHealth pm2) = Some h) as Hfin.
    { split; [rewrite Hres; congruence|]. rewrite Hother by done. exact Hprom. }
    by destruct (rotationMode pm).
Qed.

(** Once the cooldown is over, the filter keeps the proxy and resets its
    record. *)
Lemma cooldown_over pm u h lf now :
  health_get u (proxyHealth pm) = Some h → isHealthy h = false →
  lastFailure h = Some lf → healthCheckInterval pm * 1000 <= now - lf →
  (∀ p, p ∈ proxies pm → getProxyUrl p = u → p ∈ snd (getHealthyProxies pm now))
  ∧ (u ∈ getProxyUrl <$> proxies pm →
     health_get u (proxyHealth (fst (getHealthyProxies pm now)))
     = Some (mkHealth (agent h) 0 (lastFailure h) (lastSuccess h) true)).
Proof.
  intros Hget Hh Hlf Hover. rewrite getHealthyProxies_spec. cbn [fst snd].
  assert (eligibleRecord now (healthCheckInterval pm) h = true) as Hel.
  { unfold eligibleRecord, inCooldown. rewrite Hh, Hlf. simpl.
    apply negb_true_iff, Z.ltb_ge. lia. }
  split.
  - intros p Hp Hu. apply eligibleProxies_elem. split; [done|].
    unfold eligible. by rewrite Hu, Hget.
  - intros Hin. rewrite promoted_get, Hget. simpl. unfold promoteRecord.
    rewrite Hh, Hel. by rewrite decide_True.
Qed.
End Cooldown.

(** C1, as stated, fails: one second after its third failure in a row, the
    only proxy of the pool is marked down and in its cooldown, and
    [getProxyForToken] returns an agent for it all the same. *)
Lemma only_proxy_selected_in_cooldown :
  healthyRecord lonelyManager (getProxyUrl realhost) = false
  ∧ (lastFailure <$> health_get (getProxyUrl realhost) (proxyHealth lonelyManager))
    = Some (Some 4000)
  ∧ inCooldown 5000 4000 (healthCheckInterval lonelyManager) = true
  ∧ ∃ a, snd (getProxyForToken lonelyManager "token" 5000 (Js.mkRand 0 1)) = Some a
         ∧ getProxyUrlForAgent
             (fst (getProxyForToken lonelyManager "token" 5000 (Js.mkRand 0 1))) a
           = Some (getProxyUrl realhost)
         ∧ agent_url a = getProxyUrl realhost.
Proof.
  split_and!; [reflexivity..|]. eexists. split_and!; reflexivity.
Qed.

(** C1, amended: when a proxy has a health record, [maxFailures] consecutive
    [markProxyFailed] calls leave the record marked unhealthy with the time of
    the last call.  From then on, while less than [healthCheckInterval]
    seconds have passed since that time, [getHealthyProxies] leaves the proxy
    out and its record alone, and [getProxyForToken], whenever some proxy is
    eligible, returns the agent of another proxy; once the interval has
    passed, [getHealthyProxies] keeps the proxy again and resets its record to
    healthy with a failure count of 0. *)
Theorem cooldown_after_max_failures (pm : ProxyManager) (u : string) (h : ProxyHealth)
    (times : list Z) (tlast : Z)
    (Hwf : wf pm)
    (Hget : health_get u (proxyHealth pm) = Some h)
    (Hlen : Z.of_nat (length times) = maxFailures pm)
    (Hlast : last times = Some tlast) :
  ∃ h',
    health_get u (proxyHealth (markProxyFailedAt pm u times)) = Some h'
    ∧ isHealthy h' = false ∧ lastFailure h' = Some tlast
    ∧ maxFailures pm <= failures h'
    ∧ ∀ now,
        (now - tlast < healthCheckInterval pm * 1000 →
         (∀ p, p ∈ snd (getHealthyProxies (markProxyFailedAt pm u times) now) →
               getProxyUrl p ≠ u)
         ∧ health_get u
             (proxyHealth (fst (getHealthyProxies (markProxyFailedAt pm u times) now)))
           = Some h'
         ∧ ∀ token rnd pm' a,
             snd (getHealthyProxies (markProxyFailedAt pm u times) now) ≠ [] →
             getProxyForToken (markProxyFailedAt pm u times) token now rnd
             = (pm', Some a) →
             getProxyUrlForAgent pm' a ≠ Some u
             ∧ health_get u (proxyHealth pm') = Some h')
        ∧ (healthCheckInterval pm * 1000 <= now - tlast →
           (∀ p, p ∈ proxies pm → getProxyUrl p = u →
                 p ∈ snd (getHealthyProxies (markProxyFailedAt pm u times) now))
           ∧ (u ∈ getProxyUrl <$> proxies pm →
              ∃ h'', health_get u
                       (proxyHealth
                          (fst (getHealthyProxies (markProxyFailedAt pm u times) now)))
                     = Some h''
                     ∧ failures h'' = 0 ∧ isHealthy h'' = true
                     ∧ agent h'' = agent h)).
Proof.
  destruct (markProxyFailedAt_record pm u h times Hget) as (h' & Hget' & Ha & Hf & Hl & Hd).
  pose proof (markProxyFailedAt_wf pm u times Hwf) as Hwf'.
  destruct (markProxyFailedAt_frame pm u times) as [m Hframe].
  assert (0 <= failures h) as Hpos.
  { destruct Hwf as [_ _ _ _ Hc _]. rewrite Forall_forall in Hc.
    apply (Hc (u, h)). by apply health_get_Some_elem. }
  assert (times ≠ []) as Hne by (intros ->; done).
  assert (isHealthy h' = false) as Hh' by (apply Hd; [done|lia]).
  assert (lastFailure h' = Some tlast) as Hl' by (by rewrite Hl, Hlast).
  assert (healthCheckInterval (markProxyFailedAt pm u times) = healthCheckInterval pm
          ∧ proxies (markProxyFailedAt pm u times) = proxies pm) as [Ei Ep].
  { by rewrite Hframe. }
  exists h'. split_and!; [done|done|done|lia|].
  intros now. split.
  - intros Hcool. apply (cooldown_excludes _ u h' tlast now); try done.
    by rewrite Ei.
  - intros Hover.
    destruct (cooldown_over (markProxyFailedAt pm u times) u h' tlast now) as [Hin Hrec];
      try done.
    { by rewrite Ei. }
    rewrite Ep in Hin, Hrec. split; [done|].
    intros Hu. eexists. split; [by apply Hrec|]. simpl. by rewrite Ha.
Qed.

(** ** [makeRequest] *)

Section MakeRequest.
Implicit Types (c : TwitterClient) (options : RequestOptions) (env : DerivationEnv)
  (att : Attempt) (script : list Attempt) (err : JsError)
  (again : TwitterClient → option Outcome).



Lemma csrfOf_Normal c options env att csrf :
  csrfOf c options env att = Js.Normal csrf →
  ∃ c1 reqs,
    getCSRFToken c (authToken options) false env (csrfTime att) (csrfDraw att)
    = (c1, Js.Normal csrf, reqs)
    ∧ cachedString (tokenCache c1) (authToken options).
Proof.
  unfold csrfOf.
  destruct (getCSRFToken c (authToken options) false env (csrfTime att) (csrfDraw att))
    as [[c1 t] reqs] eqn:Hg.
  simpl. intros ->. exists c1, reqs. split; [done|].
  by destruct (getCSRFToken_loud _ _ _ _ _ _ _ _ Hg).
Qed.













(** An error the [catch] clause would tag as a TLS error is retryable only
    when it also carries one of the marks [isRetryableError] looks for that
    the tagging does not: [ETIMEDOUT] or [fetch failed] in the message, or
    the code [ECONNRESET]. *)
Lemma tls_retryable err :
  failureKind err = TlsError →
  isRetryableError err
  = Js.includes "ETIMEDOUT" (message err) || Js.includes "fetch failed" (message err)
    || codeEq err "ECONNRESET".
Proof.
  unfold failureKind, isRetryableError.
  destruct (Js.includes "ECONNREFUSED" (message err)); [done|].
  destruct (Js.includes "ENOTFOUND" (message err)); [done|].
  destruct (codeEq err "ENOTFOUND"); [done|].
  destruct (codeEq err "ECONNREFUSED"); [done|].
  destruct (Js.includes "timeout" (message err)); [done|].
  destruct (codeEq err "ETIMEDOUT"); [done|].
  intros _. cbn [orb]. by rewrite !orb_false_r.
Qed.
End MakeRequest.


(** In sticky mode the retry goes out through the agent that has just failed:
    [getRandomAgent] returns the agent of the other proxy, which is stored in
    the token cache, and the next pass asks [getAgent], which answers from the
    manager's own sticky map. *)
Example retry_reuses_sticky_agent :
  snd (retryCandidate
         (fst (fst (atFetch twoProxyClient sampleOptions sampleEnv
                      (refusedAttempt (Js.mkRand 1 2)))))
         (Some (mkAgent 0 "http://u:p@alpha.test:1"))
         (refusedAttempt (Js.mkRand 1 2)))
  = Some (mkAgent 1 "http://u:p@beta.test:2")
  ∧ (snd <$> observed
       (makeRequest twoProxyClient sampleTarget sampleOptions 0 2 sampleEnv
          [refusedAttempt (Js.mkRand 1 2); successfulAttempt]))
    = Some [mkSent (Some (mkAgent 0 "http://u:p@alpha.test:1")) "abc" "GET";
            mkSent (Some (mkAgent 0 "http://u:p@alpha.test:1")) "abc" "GET"].
Proof. split; reflexivity. Qed.

Example certificate_error_kind :
  isRetryableError certificateExpired = false
  ∧ failureKind certificateExpired = TlsError
  ∧ failureMessage certificateExpired
    = "SSL/TLS error: Certificate issue. certificate has expired (code: CERT_HAS_EXPIRED)".
Proof. split_and!; reflexivity. Qed.


(** ** The theorems at work *)

(** The states of the examples are well formed. *)
Lemma loaded_wf (file : option string) : wf (loadProxies defaultProxyManager file).
Proof.
  change (wf (fst (exec defaultProxyManager (CallLoadProxies file)))).
  apply exec_wf, newProxyManager_wf.
Qed.

Lemma lonelyStart_wf : wf lonelyStart.
Proof. apply getProxyForToken_wf, loaded_wf. Qed.

Lemma twoProxyManager_wf : wf (proxyManager twoProxyClient).
Proof. apply loaded_wf. Qed.

Lemma roundRobinManager_wf : wf roundRobinManager.
Proof.
  change (wf (fst (exec (proxyManager twoProxyClient) (CallSetRotationMode round_robin)))).
  apply exec_wf, loaded_wf.
Qed.

(** Three failures of the only proxy: its record is marked down. *)
Lemma cooldown_after_max_failures_witness :
  wf lonelyStart
  ∧ health_get (getProxyUrl realhost) (proxyHealth lonelyStart) = Some lonelyRecord
  ∧ Z.of_nat (length [2000; 3000; 4000]) = maxFailures lonelyStart
  ∧ last [2000; 3000; 4000] = Some 4000
  ∧ ∃ h', health_get (getProxyUrl realhost)
            (proxyHealth
               (markProxyFailedAt lonelyStart (getProxyUrl realhost) [2000; 3000; 4000]))
          = Some h'
          ∧ isHealthy h' = false ∧ lastFailure h' = Some 4000.
Proof.
  split_and!; [exact lonelyStart_wf|reflexivity..|].
  destruct (cooldown_after_max_failures lonelyStart (getProxyUrl realhost) lonelyRecord
              [2000; 3000; 4000] 4000) as (h' & Hget & Hh & Hl & _).
  - exact lonelyStart_wf.
  - reflexivity.
  - reflexivity.
  - reflexivity.
  - exists h'. split_and!; assumption.
Defined.


(** A selection, five calls, and the selection again. *)
Lemma sticky_returns_same_witness :
  wf (proxyManager twoProxyClient)
  ∧ rotationMode (proxyManager twoProxyClient) = sticky
  ∧ staysHealthy
      (fst (getProxyForToken (proxyManager twoProxyClient) "token" 1000 (Js.mkRand 0 1)))
      alphaUrl stickyCalls
  ∧ snd (getProxyForToken
           (execAll
              (fst (getProxyForToken (proxyManager twoProxyClient) "token" 1000
                      (Js.mkRand 0 1)))
              stickyCalls)
           "token" 9000 (Js.mkRand 1 2))
    = Some (mkAgent 0 alphaUrl).
Proof.
  assert (staysHealthy
            (fst (getProxyForToken (proxyManager twoProxyClient) "token" 1000
                    (Js.mkRand 0 1)))
            alphaUrl stickyCalls) as Hstays.
  { unfold stickyCalls. cbn [staysHealthy]. repeat split; vm_compute; reflexivity. }
  split_and!; [exact twoProxyManager_wf|reflexivity|exact Hstays|].
  rewrite (sticky_returns_same (proxyManager twoProxyClient)
             (fst (getProxyForToken (proxyManager twoProxyClient) "token" 1000
                     (Js.mkRand 0 1)))
             "token" 1000 (Js.mkRand 0 1) (mkAgent 0 alphaUrl) alphaUrl stickyCalls).
  - reflexivity.
  - exact twoProxyManager_wf.
  - reflexivity.
  - reflexivity.
  - reflexivity.
  - exact Hstays.
Defined.

(** Two selections over the two proxies. *)
Lemma round_robin_visits_all_witness :
  wf roundRobinManager
  ∧ rotationMode roundRobinManager = round_robin
  ∧ allUp roundRobinManager
  ∧ ∃ agents,
      snd (getProxiesForTokens roundRobinManager
             [("first", 1000, Js.mkRand 0 1); ("second", 1001, Js.mkRand 0 1)])
      = Some <$> agents
      ∧ agent_url <$> agents ≡ₚ getProxyUrl <$> proxies roundRobinManager.
Proof.
  assert (allUp roundRobinManager) as Hup.
  { unfold allUp. simpl. repeat constructor. }
  split_and!; [exact roundRobinManager_wf|reflexivity|exact Hup|].
  destruct (round_robin_visits_all roundRobinManager
              [("first", 1000, Js.mkRand 0 1); ("second", 1001, Js.mkRand 0 1)])
    as (agents & Hsel & _ & Hperm & _).
  - exact roundRobinManager_wf.
  - reflexivity.
  - exact Hup.
  - reflexivity.
  - exists agents. split; assumption.
Defined.

(** The file of the example, and a file with a placeholder only. *)
Lemma loadProxies_discards_invalid_witness :
  realhost ∈ proxies (loadProxies defaultProxyManager (Some twoProxies))
  ∧ validEntry realhost
  ∧ proxies (loadProxies (newProxyManager sticky 3 300) (Some "user:pass:example.com:8080"))
    = []
  ∧ getProxyForToken
      (loadProxies (newProxyManager sticky 3 300) (Some "user:pass:example.com:8080"))
      "token" 1000 (Js.mkRand 0 1)
    = (loadProxies (newProxyManager sticky 3 300) (Some "user:pass:example.com:8080"),
       None).
Proof.
  assert (realhost ∈ proxies (loadProxies defaultProxyManager (Some twoProxies))) as Hin.
  { simpl. left. }
  split_and!; [exact Hin| |reflexivity|].
  - exact (proj1 loadProxies_discards_invalid defaultProxyManager (Some twoProxies)
             realhost Hin).
  - apply (proj2 (proj2 (proj2 (proj2 loadProxies_discards_invalid)))). reflexivity.
Defined.

(** A proxy that was loaded and never selected. *)
Lemma health_record_only_by_selection_witness :
  health_get (getProxyUrl realhost) (proxyHealth (proxyManager oneProxyClient)) = None
  ∧ markProxyFailed (proxyManager oneProxyClient) 1000 (getProxyUrl realhost)
    = proxyManager oneProxyClient
  ∧ markProxySuccess (proxyManager oneProxyClient) 1000 (getProxyUrl realhost)
    = proxyManager oneProxyClient.
Proof.
  split; [reflexivity|].
  exact (proj1 (health_record_only_by_selection (proxyManager oneProxyClient)
                  (getProxyUrl realhost) eq_refl) 1000).
Defined.

(** * Further properties of the code *)

(** ** Reachable states of the manager *)

Section Reachable.
Implicit Types (pm : ProxyManager) (u v : string) (h : ProxyHealth) (a : ProxyAgent).

Lemma wf_record pm u h :
  wf pm → health_get u (proxyHealth pm) = Some h →
  agent_url (agent h) = u ∧ u ≠ "" ∧ 0 <= failures h
  ∧ (agent_id (agent h) < nextAgent pm)%nat.
Proof.
  intros [_ _ Hu Hf Hc Ht] Hget. apply health_get_Some_elem in Hget.
  rewrite Forall_forall in Hu, Hf, Hc, Ht.
  specialize (Hu _ Hget). specialize (Hf _ Hget). specialize (Hc _ Hget).
  specialize (Ht _ Hget). simpl in *. by apply truthy_true in Ht.
Qed.

Lemma wf_agent_unique pm u v h h' :
  wf pm → health_get u (proxyHealth pm) = Some h →
  health_get v (proxyHealth pm) = Some h' →
  agent_id (agent h') = agent_id (agent h) → v = u.
Proof.
  intros Hwf Hu Hv Hid.
  pose proof (findUrlOfAgent_of_get _ _ _ _ Hwf Hu) as Fu.
  pose proof (findUrlOfAgent_of_get _ _ _ _ Hwf Hv) as Fv.
  rewrite (findUrlOfAgent_by_id _ (agent h') (agent h)) in Fv; [congruence|].
  unfold same_agent. by apply Nat.eqb_eq.
Qed.

(** X1: in every state the public methods can reach from a new manager, each
    health record is filed under the URL of its agent, the URL is not empty,
    the failure count is not negative, [getProxyUrlForAgent] finds the record
    from its agent, and no two records hold the same agent. *)
Theorem reachable_health_records (mode : RotationMode) (maxF interval : Z)
    (cs : list Call) (u : string) (h : ProxyHealth) :
  let pm := execAll (newProxyManager mode maxF interval) cs in
  health_get u (proxyHealth pm) = Some h →
  agent_url (agent h) = u ∧ u ≠ "" ∧ 0 <= failures h
  ∧ getProxyUrlForAgent pm (agent h) = Some u
  ∧ ∀ v h', health_get v (proxyHealth pm) = Some h' →
            same_agent (agent h') (agent h) = true → v = u.
Proof.
  intros pm Hget.
  assert (wf pm) as Hwf by apply execAll_wf, newProxyManager_wf.
  destruct (wf_record _ _ _ Hwf Hget) as (Hu & Hne & Hf & _).
  split_and!; try done.
  - by eapply findUrlOfAgent_of_get.
  - intros v h' Hv Hs. eapply wf_agent_unique; try done.
    by apply Nat.eqb_eq.
Qed.

Lemma reachable_health_records_witness :
  health_get (getProxyUrl realhost)
    (proxyHealth
       (execAll (newProxyManager sticky 3 300)
          [CallLoadProxies (Some twoProxies);
           CallGetProxyForToken "token" 1000 (Js.mkRand 0 1)]))
  = Some lonelyRecord
  ∧ getProxyUrlForAgent
      (execAll (newProxyManager sticky 3 300)
         [CallLoadProxies (Some twoProxies);
          CallGetProxyForToken "token" 1000 (Js.mkRand 0 1)])
      (agent lonelyRecord)
    = Some (getProxyUrl realhost).
Proof.
  split; [reflexivity|].
  destruct (reachable_health_records sticky 3 300
              [CallLoadProxies (Some twoProxies);
               CallGetProxyForToken "token" 1000 (Js.mkRand 0 1)]
              (getProxyUrl realhost) lonelyRecord eq_refl) as (_ & _ & _ & Hres & _).
  exact Hres.
Defined.

(** The URL under which [reportOutcome] files the result of a request. *)
Lemma reportOutcome_at mark pm a u now :
  wf pm → getProxyUrlForAgent pm a = Some u →
  reportOutcome mark pm (Some a) now = mark pm now u.
Proof.
  intros Hwf Hu. unfold reportOutcome. rewrite Hu.
  destruct (findUrlOfAgent_Some _ _ _ Hu) as (h & Hin & _).
  pose proof (wfHealth_get _ _ _ _ Hwf Hin) as Hget.
  destruct (wf_record _ _ _ Hwf Hget) as (_ & Hne & _).
  simpl. by rewrite (proj2 (truthy_true u) Hne).
Qed.

Lemma selected_resolves pm c a :
  wf pm → snd (exec pm c) = Some a →
  ∃ u, getProxyUrlForAgent (fst (exec pm c)) a = Some u
       ∧ healthyRecord (fst (exec pm c)) u = true.
Proof.
  intros Hwf Hsel. destruct c as [file|t u0|t u0|token now rnd|now rnd|mode|now];
    simpl in Hsel |- *; try done.
  - destruct (stickyCached pm token) as [ca|] eqn:Hs.
    + unfold getProxyForToken in *. rewrite Hs in *. simpl in *.
      injection Hsel as ->. by destruct (stickyCached_Some _ _ _ Hs) as (_ & _ & ?).
    + destruct (getProxyForToken_selects pm token now rnd Hs)
        as [[Hn _]|(i & p & pm2 & a' & _ & Hg & Heq)]; [congruence|].
      rewrite Heq in *. simpl in *. injection Hsel as ->.
      assert (wf (with_currentIndex (promoted pm now) i)) as Hwf1
        by by apply (promoted_wf pm now).
      destruct (getOrCreateAgent_url _ _ _ _ _ Hwf1 Hg) as [Hurl _].
      destruct (getOrCreateAgent_spec _ _ _ _ _ Hg) as ((h & Hget & _ & Hh) & _).
      exists (getProxyUrl p).
      assert (∀ m, getProxyUrlForAgent (with_proxyMap pm2 m) a
                   = getProxyUrlForAgent pm2 a) as E1 by done.
      assert (∀ m v, healthyRecord (with_proxyMap pm2 m) v = healthyRecord pm2 v)
        as E2 by done.
      assert (healthyRecord pm2 (getProxyUrl p) = true) as Hr
        by (unfold healthyRecord; by rewrite Hget).
      destruct (rotationMode pm); by rewrite ?E1, ?E2.
  - destruct (getRandomAgent_selects pm now rnd) as [[Hn _]|(p & _ & _ & Heq)];
      [congruence|].
    rewrite Heq in *. simpl in *. injection Hsel as <-.
    destruct (getOrCreateAgent (promoted pm now) now p) as [pm2 a'] eqn:Hg.
    destruct (getOrCreateAgent_url _ _ _ _ _ (promoted_wf pm now Hwf) Hg) as [Hurl _].
    destruct (getOrCreateAgent_spec _ _ _ _ _ Hg) as ((h & Hget & _ & Hh) & _).
    exists (getProxyUrl p). split; [done|]. unfold healthyRecord. simpl. by rewrite Hget.
Qed.

(** X2: an agent handed out by [getProxyForToken] or [getRandomAgent] is the
    agent of a record that is marked healthy at that moment, and
    [getProxyUrlForAgent] resolves it, so that the outcome of the request is
    always filed under that record. *)
Theorem selected_agent_has_record (pm : ProxyManager) (c : Call) (a : ProxyAgent)
    (Hwf : wf pm) (Hsel : snd (exec pm c) = Some a) :
  ∃ u, getProxyUrlForAgent (fst (exec pm c)) a = Some u
       ∧ healthyRecord (fst (exec pm c)) u = true
       ∧ ∀ now,
           reportOutcome markProxyFailed (fst (exec pm c)) (Some a) now
           = markProxyFailed (fst (exec pm c)) now u
           ∧ reportOutcome markProxySuccess (fst (exec pm c)) (Some a) now
             = markProxySuccess (fst (exec pm c)) now u.
Proof.
  destruct (selected_resolves pm c a Hwf Hsel) as (u & Hu & Hh).
  exists u. split_and!; [done|done|]. intros now.
  pose proof (exec_wf pm c Hwf) as Hwf'.
  split; by apply reportOutcome_at.
Qed.

Lemma selected_agent_has_record_witness :
  wf (proxyManager twoProxyClient)
  ∧ snd (exec (proxyManager twoProxyClient) (CallGetRandomAgent 1000 (Js.mkRand 1 2)))
    = Some (mkAgent 0 "http://u:p@beta.test:2")
  ∧ ∃ u, getProxyUrlForAgent
           (fst (exec (proxyManager twoProxyClient)
                   (CallGetRandomAgent 1000 (Js.mkRand 1 2))))
           (mkAgent 0 "http://u:p@beta.test:2") = Some u.
Proof.
  split; [apply twoProxyManager_wf|]. split; [reflexivity|].
  destruct (selected_agent_has_record (proxyManager twoProxyClient)
              (CallGetRandomAgent 1000 (Js.mkRand 1 2))
              (mkAgent 0 "http://u:p@beta.test:2") twoProxyManager_wf eq_refl)
    as (u & Hu & _).
  by exists u.
Defined.

End Reachable.

(** ** When selection answers [null] *)

Section Availability.
Implicit Types (pm : ProxyManager) (l : list ProxyConfig) (rnd : Js.Rand01).

Lemma lookup_mod_is_Some {A} (l : list A) (i : nat) :
  l ≠ [] → is_Some (l !! (i mod length l)%nat).
Proof.
  intros Hl. apply lookup_lt_is_Some. apply Nat.mod_upper_bound.
  by destruct l.
Qed.

Lemma lookup_floor_mul_is_Some {A} (l : list A) rnd :
  l ≠ [] → Js.rand_valid rnd → is_Some (l !! Js.floor_mul rnd (length l)).
Proof.
  intros Hl Hr. apply lookup_lt_is_Some. apply floor_mul_lt; [done|].
  destruct l; [done|simpl; lia].
Qed.

Lemma selectProxyFromList_is_Some pm l token rnd :
  l ≠ [] → (rotationMode pm = random → Js.rand_valid rnd) →
  is_Some (snd (selectProxyFromList pm l token rnd)).
Proof.
  intros Hl Hr. unfold selectProxyFromList. destruct l as [|q l]; [done|].
  pose proof (lookup_mod_is_Some (q :: l) (currentIndex pm) Hl) as Hrr.
  destruct (rotationMode pm) eqn:Hm.
  - destruct (if Js.truthy token then proxyMap pm !! token else None) as [ex|]; [|done].
    by destruct (findProxyOfAgent (proxyHealth pm) ex (q :: l)).
  - apply (lookup_floor_mul_is_Some (q :: l)); [done|]. by apply Hr.
  - done.
Qed.

Lemma selectProxy_is_Some pm token now rnd :
  proxies pm ≠ [] → (rotationMode pm = random → Js.rand_valid rnd) →
  is_Some (snd (selectProxy pm token now rnd)).
Proof.
  intros Hp Hr. unfold selectProxy. rewrite getHealthyProxies_spec.
  destruct (eligibleProxies pm now) as [|q l] eqn:He.
  - change (proxies (promoted pm now)) with (proxies pm).
    destruct (proxies pm) as [|q l] eqn:Hps; [done|].
    by apply selectProxyFromList_is_Some.
  - by apply selectProxyFromList_is_Some.
Qed.

(** X3: [getProxyForToken] answers [null] exactly when the pool is empty and
    the token has no usable sticky assignment; [getRandomAgent] exactly when
    the pool is empty.  With a pool that is not empty a request is never sent
    without a proxy, whatever the health records say. *)
Theorem selection_null_iff (pm : ProxyManager) (token : string) (now : Z)
    (rnd : Js.Rand01) (Hrnd : Js.rand_valid rnd) :
  (snd (getProxyForToken pm token now rnd) = None
   ↔ proxies pm = [] ∧ stickyCached pm token = None)
  ∧ (snd (getRandomAgent pm now rnd) = None ↔ proxies pm = []).
Proof.
  split.
  - unfold getProxyForToken. destruct (stickyCached pm token) as [ca|] eqn:Hs.
    + simpl. naive_solver.
    + destruct (proxies pm) as [|q l] eqn:Hp; [done|].
      destruct (selectProxy_is_Some pm token now rnd) as [p Hsel];
        [by rewrite Hp|done|].
      destruct (selectProxy pm token now rnd) as [pm1 sel]. simpl in Hsel. subst sel.
      destruct (getOrCreateAgent pm1 now p) as [pm2 a]. simpl. naive_solver.
  - unfold getRandomAgent. rewrite getHealthyProxies_spec.
    change (proxies (promoted pm now)) with (proxies pm).
    destruct (eligibleProxies pm now) as [|q l] eqn:He.
    + destruct (proxies pm) as [|q l] eqn:Hp; [done|].
      destruct (lookup_floor_mul_is_Some (q :: l) rnd) as [p Hl]; [done..|].
      rewrite Hl. destruct (getOrCreateAgent (promoted pm now) now p). simpl.
      naive_solver.
    + destruct (lookup_floor_mul_is_Some (q :: l) rnd) as [p Hl]; [done..|].
      rewrite Hl. destruct (getOrCreateAgent (promoted pm now) now p). simpl.
      split; [done|]. intros Hp.
      assert (q ∈ eligibleProxies pm now) as Hq by (rewrite He; left).
      apply eligibleProxies_elem in Hq as [Hq _]. rewrite Hp in Hq.
      by apply elem_of_nil in Hq.
Qed.

Lemma selection_null_iff_witness :
  Js.rand_valid (Js.mkRand 1 2)
  ∧ snd (getRandomAgent lonelyManager 5000 (Js.mkRand 1 2)) ≠ None.
Proof.
  assert (Js.rand_valid (Js.mkRand 1 2)) as Hr by (unfold Js.rand_valid; simpl; lia).
  split; [exact Hr|].
  intros Hn.
  apply (proj2 (selection_null_iff lonelyManager "token" 5000 (Js.mkRand 1 2) Hr)) in Hn.
  vm_compute in Hn. discriminate Hn.
Defined.

End Availability.

(** ** Failure streaks below the threshold *)

Section Streak.
Implicit Types (pm : ProxyManager) (u : string) (h : ProxyHealth).

Lemma markProxyFailedAt_below pm u h times :
  health_get u (proxyHealth pm) = Some h →
  failures h + Z.of_nat (length times) < maxFailures pm →
  ∃ h', health_get u (proxyHealth (markProxyFailedAt pm u times)) = Some h'
        ∧ agent h' = agent h
        ∧ failures h' = failures h + Z.of_nat (length times)
        ∧ lastSuccess h' = lastSuccess h
        ∧ isHealthy h' = isHealthy h.
Proof.
  revert pm h. induction times as [|t times IH]; intros pm h Hget Hlt.
  - exists h. simpl. split_and!; try done. lia.
  - unfold markProxyFailedAt. cbn [foldl].
    change (foldl (λ pm' t0, markProxyFailed pm' t0 u) (markProxyFailed pm t u) times)
      with (markProxyFailedAt (markProxyFailed pm t u) u times).
    simpl length in Hlt.
    assert (health_get u (proxyHealth (markProxyFailed pm t u))
            = Some (mkHealth (agent h) (failures h + 1) (Some t) (lastSuccess h)
                      (isHealthy h))) as Hget1.
    { unfold markProxyFailed. rewrite Hget. simpl. rewrite health_get_set_eq.
      destruct (maxFailures pm <=? failures h + 1) eqn:E; [|done].
      apply Z.leb_le in E. lia. }
    assert (maxFailures (markProxyFailed pm t u) = maxFailures pm) as Hmax.
    { unfold markProxyFailed. by destruct (health_get u (proxyHealth pm)). }
    destruct (IH _ _ Hget1) as (h' & Hg & Ha & Hf & Hs & Hh).
    { rewrite Hmax. simpl. lia. }
    exists h'. simpl in *. split_and!; try done. lia.
Qed.

(** X4: a success wipes the failure streak.  After [markProxySuccess], fewer
    than [maxFailures] failures in a row leave the proxy marked healthy, with
    the failure count equal to their number. *)
Theorem success_resets_streak (pm : ProxyManager) (u : string) (h : ProxyHealth)
    (t : Z) (times : list Z)
    (Hget : health_get u (proxyHealth pm) = Some h)
    (Hlen : Z.of_nat (length times) < maxFailures pm) :
  ∃ h',
    health_get u (proxyHealth (markProxyFailedAt (markProxySuccess pm t u) u times))
    = Some h'
    ∧ isHealthy h' = true
    ∧ failures h' = Z.of_nat (length times)
    ∧ lastSuccess h' = Some t
    ∧ agent h' = agent h.
Proof.
  assert (health_get u (proxyHealth (markProxySuccess pm t u))
          = Some (mkHealth (agent h) 0 (lastFailure h) (Some t) true)) as Hget1.
  { unfold markProxySuccess. rewrite Hget. simpl. by rewrite health_get_set_eq. }
  assert (maxFailures (markProxySuccess pm t u) = maxFailures pm) as Hmax.
  { unfold markProxySuccess. by rewrite Hget. }
  destruct (markProxyFailedAt_below _ _ _ times Hget1) as (h' & Hg & Ha & Hf & Hs & Hh).
  { rewrite Hmax. simpl. lia. }
  exists h'. simpl in *. by split_and!.
Qed.

Lemma success_resets_streak_witness :
  health_get (getProxyUrl realhost) (proxyHealth lonelyManager)
  = Some (mkHealth (mkAgent 0 (getProxyUrl realhost)) 3 (Some 4000) (Some 1000) false)
  ∧ Z.of_nat (length [6000; 7000]) < maxFailures lonelyManager
  ∧ ∃ h',
      health_get (getProxyUrl realhost)
        (proxyHealth
           (markProxyFailedAt (markProxySuccess lonelyManager 5000 (getProxyUrl realhost))
              (getProxyUrl realhost) [6000; 7000]))
      = Some h'
      ∧ isHealthy h' = true ∧ failures h' = 2.
Proof.
  split; [reflexivity|]. split; [vm_compute; reflexivity|].
  destruct (success_resets_streak lonelyManager (getProxyUrl realhost)
              (mkHealth (mkAgent 0 (getProxyUrl realhost)) 3 (Some 4000) (Some 1000) false)
              5000 [6000; 7000] eq_refl eq_refl)
    as (h' & Hg & Hh & Hf & _).
  exists h'. split_and!; done.
Defined.

End Streak.

(** ** [getStats] *)

Section GetStats.
Implicit Types (pm : ProxyManager) (p : ProxyConfig) (u : string).

Lemma coolingDown_eligible now interval m u :
  coolingDown now interval m u = negb (eligible now interval m u).
Proof.
  unfold coolingDown, eligible, eligibleRecord.
  destruct (health_get u m) as [h|]; [|done].
  destruct (isHealthy h); [done|]. simpl. by rewrite negb_involutive.
Qed.

Lemma length_filter_split {A} (f : A → bool) (l : list A) :
  (length (filter (λ x, f x = true) l) + length (filter (λ x, negb (f x) = true) l))%nat
  = length l.
Proof.
  induction l as [|x l IH]; [done|].
  rewrite !filter_cons. destruct (f x) eqn:E.
  - rewrite decide_True by done. rewrite decide_False by done. simpl. lia.
  - rewrite decide_False by done. rewrite decide_True by done. simpl. lia.
Qed.

Lemma getStats_spec pm now :
  getStats pm now
  = (promoted pm now,
     mkStats (Z.of_nat (length (proxies pm)))
       (Z.of_nat (length (eligibleProxies pm now)))
       (Z.of_nat (length (proxies pm)) - Z.of_nat (length (eligibleProxies pm now)))).
Proof. unfold getStats. by rewrite getHealthyProxies_spec. Qed.

(** X5: the three numbers of [getStats] split the pool: [total] is the size
    of the pool, [unhealthy] counts the entries whose record is marked down
    with a failure younger than the cooldown interval, [healthy] counts the
    others, and neither count is negative. *)
Theorem getStats_partition (pm : ProxyManager) (now : Z) :
  let s := snd (getStats pm now) in
  total s = Z.of_nat (length (proxies pm))
  ∧ unhealthy s
    = Z.of_nat (length (filter
        (λ p, coolingDown now (healthCheckInterval pm) (proxyHealth pm) (getProxyUrl p)
              = true)
        (proxies pm)))
  ∧ healthy s + unhealthy s = total s
  ∧ 0 <= healthy s ∧ 0 <= unhealthy s.
Proof.
  rewrite getStats_spec. simpl.
  pose proof (length_filter_split
                (λ p, eligible now (healthCheckInterval pm) (proxyHealth pm) (getProxyUrl p))
                (proxies pm)) as Hs.
  assert (filter (λ p, coolingDown now (healthCheckInterval pm) (proxyHealth pm)
                         (getProxyUrl p) = true) (proxies pm)
          = filter (λ p, negb (eligible now (healthCheckInterval pm) (proxyHealth pm)
                                 (getProxyUrl p)) = true) (proxies pm)) as ->.
  { apply list_filter_iff. intros p. by rewrite coolingDown_eligible. }
  cbv beta in Hs. unfold eligibleProxies. split_and!; lia.
Qed.

Lemma filterHealthy_stable now interval (m : HealthMap) (l : list ProxyConfig) :
  (∀ p h, p ∈ l → health_get (getProxyUrl p) m = Some h →
          isHealthy h = true ∨ eligibleRecord now interval h = false) →
  fst (filterHealthy now interval m l) = m.
Proof.
  induction l as [|p l IH]; intros Hl; [done|].
  cbn [filterHealthy].
  assert (fst (checkHealthy now interval m p) = m) as E.
  { rewrite checkHealthy_spec. simpl.
    destruct (health_get (getProxyUrl p) m) as [h|] eqn:Hget; [|done].
    destruct (Hl p h) as [->| ->]; [left|done|done|]. by destruct (isHealthy h). }
  destruct (checkHealthy now interval m p) as [m1 keep]. simpl in E. subst m1.
  specialize (IH (λ q h Hq, Hl q h (list_elem_of_further _ _ _ Hq))).
  destruct (filterHealthy now interval m l) as [m2 r]. by simpl in *.
Qed.

Lemma promoteRecord_settled now interval (h : ProxyHealth) :
  isHealthy (promoteRecord now interval h) = true
  ∨ eligibleRecord now interval (promoteRecord now interval h) = false.
Proof.
  unfold promoteRecord. destruct (isHealthy h) eqn:Hh; [by left|].
  destruct (eligibleRecord now interval h) eqn:He; [by left|by right].
Qed.

Lemma promoted_promoted pm now : promoted (promoted pm now) now = promoted pm now.
Proof.
  unfold promoted at 1. cbn [healthCheckInterval proxies with_proxyHealth promoted].
  rewrite filterHealthy_stable.
  - unfold promoted. by destruct pm.
  - intros p h Hp Hget.
    change (health_get (getProxyUrl p) (proxyHealth (promoted pm now)) = Some h) in Hget.
    rewrite promoted_get in Hget. rewrite decide_True in Hget.
    2:{ apply list_elem_of_fmap. by exists p. }
    destruct (health_get (getProxyUrl p) (proxyHealth pm)) as [h0|]; [|done].
    injection Hget as <-. apply promoteRecord_settled.
Qed.

Lemma eligible_promoted pm now now' p :
  p ∈ proxies pm → now <= now' →
  eligible now (healthCheckInterval pm) (proxyHealth pm) (getProxyUrl p) = true →
  eligible now' (healthCheckInterval pm) (proxyHealth (promoted pm now)) (getProxyUrl p)
  = true.
Proof.
  intros Hp Hle. unfold eligible. rewrite promoted_get.
  rewrite decide_True by (apply list_elem_of_fmap; by exists p).
  destruct (health_get (getProxyUrl p) (proxyHealth pm)) as [h|]; [|done]. simpl.
  intros He. unfold promoteRecord. rewrite He.
  by destruct (isHealthy h) eqn:Hh; unfold eligibleRecord; simpl; rewrite ?Hh.
Qed.

Lemma eligible_promoted_same pm now p :
  p ∈ proxies pm →
  eligible now (healthCheckInterval pm) (proxyHealth (promoted pm now)) (getProxyUrl p)
  = eligible now (healthCheckInterval pm) (proxyHealth pm) (getProxyUrl p).
Proof.
  intros Hp. unfold eligible. rewrite promoted_get.
  rewrite decide_True by (apply list_elem_of_fmap; by exists p).
  destruct (health_get (getProxyUrl p) (proxyHealth pm)) as [h|]; [|done]. simpl.
  apply eligibleRecord_promote.
Qed.

Lemma filter_ext_in {A} (P Q : A → Prop) `{∀ x, Decision (P x)} `{∀ x, Decision (Q x)}
    (l : list A) :
  (∀ x, x ∈ l → P x ↔ Q x) → filter P l = filter Q l.
Proof.
  induction l as [|x l IH]; intros Hl; [done|].
  rewrite !filter_cons.
  rewrite IH by (intros y Hy; apply Hl; by right).
  destruct (decide (P x)) as [HP|HP], (decide (Q x)) as [HQ|HQ]; try done.
  - exfalso. apply HQ. apply Hl; [left|done].
  - exfalso. apply HP. apply Hl; [left|done].
Qed.

Lemma length_filter_mono {A} (P Q : A → Prop) `{∀ x, Decision (P x)}
    `{∀ x, Decision (Q x)} (l : list A) :
  (∀ x, x ∈ l → P x → Q x) → (length (filter P l) <= length (filter Q l))%nat.
Proof.
  induction l as [|x l IH]; intros Hl; [done|].
  rewrite !filter_cons.
  specialize (IH (λ y Hy, Hl y (list_elem_of_further _ _ _ Hy))).
  destruct (decide (P x)) as [HP|HP], (decide (Q x)) as [HQ|HQ]; simpl; try lia.
  exfalso. apply HQ. apply Hl; [left|done].
Qed.

(** X6: [getStats] writes the records it finds out of their cooldown, but
    asking again changes nothing more: a second call at the same time returns
    the same numbers and leaves the manager as the first call left it, and a
    second call at a later time never reports fewer healthy proxies. *)
Theorem getStats_again (pm : ProxyManager) (now now' : Z) (Hlater : now <= now') :
  getStats (fst (getStats pm now)) now = (fst (getStats pm now), snd (getStats pm now))
  ∧ healthy (snd (getStats pm now)) <= healthy (snd (getStats (fst (getStats pm now)) now')).
Proof.
  rewrite !getStats_spec. cbn [fst snd]. rewrite ?getStats_spec. cbn [fst snd healthy].
  change (proxies (promoted pm now)) with (proxies pm).
  split.
  - rewrite promoted_promoted. do 2 f_equal.
    all: unfold eligibleProxies; cbn [healthCheckInterval proxies promoted with_proxyHealth];
      erewrite filter_ext_in; [reflexivity|];
      intros p Hp; simpl;
      change (fst (filterHealthy now (healthCheckInterval pm) (proxyHealth pm) (proxies pm)))
        with (proxyHealth (promoted pm now));
      by rewrite eligible_promoted_same.
  - apply inj_le. unfold eligibleProxies.
    cbn [healthCheckInterval proxies promoted with_proxyHealth].
    apply length_filter_mono. intros p Hp He.
    change (fst (filterHealthy now (healthCheckInterval pm) (proxyHealth pm) (proxies pm)))
      with (proxyHealth (promoted pm now)).
    by apply eligible_promoted.
Qed.

Lemma getStats_again_witness :
  5000 <= 400000
  ∧ snd (getStats lonelyManager 5000) = mkStats 1 0 1
  ∧ healthy (snd (getStats lonelyManager 5000))
    <= healthy (snd (getStats (fst (getStats lonelyManager 5000)) 400000))
  ∧ snd (getStats (fst (getStats lonelyManager 5000)) 400000) = mkStats 1 1 0.
Proof.
  split; [lia|]. split; [reflexivity|].
  split; [|reflexivity].
  apply (getStats_again lonelyManager 5000 400000). lia.
Defined.

End GetStats.

(** ** Calls that touch health records only *)

Lemma markProxySuccess_frame pm now u :
  ∃ m, markProxySuccess pm now u = with_proxyHealth pm m.
Proof.
  unfold markProxySuccess. destruct (health_get u (proxyHealth pm)).
  - by eexists.
  - exists (proxyHealth pm). by destruct pm.
Qed.

Lemma getOrCreateAgent_frame pm now p :
  ∃ m n, fst (getOrCreateAgent pm now p) = with_nextAgent (with_proxyHealth pm m) n.
Proof.
  unfold getOrCreateAgent.
  assert (∃ m n, pm = with_nextAgent (with_proxyHealth pm m) n) as Hid.
  { exists (proxyHealth pm), (nextAgent pm). by destruct pm. }
  destruct (health_get (getProxyUrl p) (proxyHealth pm)) as [h|].
  - destruct (isHealthy h); [done|]. simpl. by eexists _, _.
  - simpl. by eexists _, _.
Qed.

(** X7: [markProxyFailed], [markProxySuccess], [getRandomAgent] and [getStats]
    write health records only: the pool, the sticky assignments, the
    round-robin cursor, the rotation mode and the two thresholds are as
    before.  In particular the agent [getRandomAgent] picks for a retry is
    never recorded as the assignment of a token. *)
Theorem health_calls_frame (pm : ProxyManager) (c : Call) (Hc : healthCall c = true) :
  proxies (fst (exec pm c)) = proxies pm
  ∧ proxyMap (fst (exec pm c)) = proxyMap pm
  ∧ currentIndex (fst (exec pm c)) = currentIndex pm
  ∧ rotationMode (fst (exec pm c)) = rotationMode pm
  ∧ maxFailures (fst (exec pm c)) = maxFailures pm
  ∧ healthCheckInterval (fst (exec pm c)) = healthCheckInterval pm.
Proof.
  assert (∃ m n, fst (exec pm c) = with_nextAgent (with_proxyHealth pm m) n) as (m & n & ->).
  { destruct c as [file|t u|t u|token now rnd|now rnd|mode|now]; try done; simpl.
    - destruct (markProxyFailed_frame pm t u) as [m ->].
      exists m, (nextAgent pm). by destruct pm.
    - destruct (markProxySuccess_frame pm t u) as [m ->].
      exists m, (nextAgent pm). by destruct pm.
    - destruct (getRandomAgent_selects pm now rnd) as [[_ ->]|(p & _ & _ & ->)].
      + exists (proxyHealth (promoted pm now)), (nextAgent pm). unfold promoted. by destruct pm.
      + simpl. destruct (getOrCreateAgent_frame (promoted pm now) now p) as (m & n & ->).
        by exists m, n.
    - rewrite getHealthyProxies_spec. simpl.
      exists (proxyHealth (promoted pm now)), (nextAgent pm). unfold promoted. by destruct pm. }
  done.
Qed.

Lemma health_calls_frame_witness :
  healthCall (CallGetRandomAgent 2000 (Js.mkRand 1 2)) = true
  ∧ proxyMap (fst (exec lonelyStart (CallGetRandomAgent 2000 (Js.mkRand 1 2))))
    = proxyMap lonelyStart.
Proof.
  split; [reflexivity|].
  apply (health_calls_frame lonelyStart (CallGetRandomAgent 2000 (Js.mkRand 1 2))).
  reflexivity.
Defined.

(** ** A malformed line *)

Lemma filterProxies_throws (l : list ProxyConfig) (p : ProxyConfig) :
  p ∈ l → host p = None → filterProxies l = Js.Throw tt.
Proof.
  intros Hin Hh. induction l as [|q l IH]; [by apply elem_of_nil in Hin|].
  simpl. apply elem_of_cons in Hin as [<-|Hin].
  - unfold keepProxy. by rewrite Hh.
  - rewrite (IH Hin). destruct (keepProxy q) as [b|[]]; done.
Qed.

(** X8: one malformed line costs the whole pool.  If some line of the file,
    once trimmed, is not empty, is made of ASCII characters and has fewer than
    three fields between its colons, reading [proxy.host.includes] throws inside the filter and the
    [catch] clause leaves the pool empty, whatever the other lines hold and
    whatever the pool held before; a file that cannot be read does the
    same. *)
Theorem loadProxies_malformed_line (pm : ProxyManager) (content line : string)
    (Hline : line ∈ Js.trim <$> Js.split "010" content)
    (Hne : line ≠ "")
    (Hascii : asciiOnly line = true)
    (Hfields : (length (Js.split ":" line) < 3)%nat) :
  proxies (loadProxies pm (Some content)) = []
  ∧ proxies (loadProxies pm None) = [].
Proof.
  split; [|done]. unfold loadProxies.
  rewrite (filterProxies_throws (parseProxies content) (parseLine line)); [done| |].
  - unfold parseProxies. apply list_elem_of_In, in_map, list_elem_of_In.
    apply list_elem_of_filter. split.
    + apply Nat.ltb_lt. destruct line; [done|simpl; lia].
    + apply list_elem_of_In. apply list_elem_of_In. exact Hline.
  - unfold parseLine. simpl. by apply lookup_ge_None_2; lia.
Qed.

Lemma loadProxies_malformed_line_witness :
  "host.test:8080" ∈ Js.trim <$> Js.split "010" "u:p:alpha.test:1
host.test:8080"
  ∧ proxies (loadProxies (proxyManager twoProxyClient) (Some "u:p:alpha.test:1
host.test:8080")) = [].
Proof.
  assert ("host.test:8080" ∈ Js.trim <$> Js.split "010" "u:p:alpha.test:1
host.test:8080") as Hin.
  { vm_compute. right. left. }
  split; [exact Hin|].
  apply (loadProxies_malformed_line (proxyManager twoProxyClient) _ "host.test:8080" Hin).
  - discriminate.
  - reflexivity.
  - vm_compute. lia.
Defined.

(** ** New tokens in sticky mode *)

Section StickyNew.
Implicit Types (pm : ProxyManager) (p : ProxyConfig) (a : ProxyAgent).

(** The first selection for a token without an assignment. *)
Lemma sticky_step pm token now rnd :
  wf pm → rotationMode pm = sticky → allUp pm → proxies pm ≠ [] →
  proxyMap pm !! token = None →
  ∃ p a pm',
    proxies pm !! (currentIndex pm mod length (proxies pm))%nat = Some p
    ∧ getProxyForToken pm token now rnd = (pm', Some a)
    ∧ agent_url a = getProxyUrl p
    ∧ wf pm' ∧ rotationMode pm' = sticky ∧ allUp pm'
    ∧ proxies pm' = proxies pm
    ∧ currentIndex pm' = S (currentIndex pm)
    ∧ proxyMap pm' = <[token := a]> (proxyMap pm).
Proof.
  intros Hwf Hmode Hup Hne Hnew.
  destruct (lookup_lt_is_Some_2 (proxies pm)
              (currentIndex pm mod length (proxies pm))%nat) as [p Hp].
  { apply Nat.mod_upper_bound. by destruct (proxies pm). }
  unfold getProxyForToken, stickyCached, selectProxy. rewrite Hmode, Hnew.
  rewrite getHealthyProxies_allUp by done.
  unfold selectProxyFromList. rewrite Hmode, Hnew.
  destruct (proxies pm) as [|q l] eqn:Hl; [done|].
  assert ((if Js.truthy token then @None ProxyAgent else None) = None) as ->
    by by destruct (Js.truthy token).
  unfold roundRobin. rewrite Hp.
  destruct (getOrCreateAgent (with_currentIndex pm (S (currentIndex pm))) now p)
    as [pm2 a] eqn:Hg.
  assert (wf (with_currentIndex pm (S (currentIndex pm)))) as Hwf1 by done.
  destruct (getOrCreateAgent_url _ _ _ _ _ Hwf1 Hg) as [Hres Hurl].
  pose proof (getOrCreateAgent_wf _ now p Hwf1) as Hwf2. rewrite Hg in Hwf2.
  destruct (getOrCreateAgent_spec _ _ _ _ _ Hg)
    as ((h & Hget & _ & Hh) & Hother & _ & _ & Hps & Hpm & Hci & Hrm & _).
  simpl in *. rewrite Hrm, Hmode.
  exists p, a, (with_proxyMap pm2 (<[token := a]> (proxyMap pm2))).
  split_and!; try done.
  - simpl. congruence.
  - unfold allUp in *. simpl. rewrite Hps.
    eapply Forall_impl; [exact Hup|]. intros x Hx. unfold notMarkedDown in *.
    destruct (decide (getProxyUrl x = getProxyUrl p)) as [->|Hne'].
    + by rewrite Hget.
    + by rewrite Hother.
  - simpl. congruence.
  - simpl. by rewrite Hpm.
Qed.

End StickyNew.

(** X9: in sticky mode, tokens that have no assignment yet are spread over the
    pool in rotation.  On a pool none of whose proxies is marked down, the
    [j]-th of a run of distinct new tokens is given the agent of the proxy [j]
    places after the cursor, wrapping; the assignment is recorded for the
    token, and the assignments of other tokens are not touched. *)
Theorem sticky_spreads_new_tokens (pm : ProxyManager)
    (reqs : list (string * Z * Js.Rand01))
    (Hwf : wf pm) (Hmode : rotationMode pm = sticky) (Hup : allUp pm)
    (Hpool : proxies pm ≠ [])
    (Hdup : NoDup (tokensOf reqs))
    (Hnew : ∀ token, token ∈ tokensOf reqs → proxyMap pm !! token = None) :
  ∃ agents,
    snd (getProxiesForTokens pm reqs) = Some <$> agents
    ∧ length agents = length reqs
    ∧ (∀ j a, agents !! j = Some a →
              ∃ p, proxies pm !! ((currentIndex pm + j) mod length (proxies pm))%nat
                   = Some p
                   ∧ agent_url a = getProxyUrl p)
    ∧ (∀ j token a, tokensOf reqs !! j = Some token → agents !! j = Some a →
                    proxyMap (fst (getProxiesForTokens pm reqs)) !! token = Some a)
    ∧ (∀ token, token ∉ tokensOf reqs →
                proxyMap (fst (getProxiesForTokens pm reqs)) !! token
                = proxyMap pm !! token).
Proof.
  revert pm Hwf Hmode Hup Hpool Hdup Hnew.
  induction reqs as [|[[token now] rnd] reqs IH];
    intros pm Hwf Hmode Hup Hne Hdup Hnew.
  - exists []. simpl. split_and!; try done.
    all: intros; match goal with H : [] !! _ = Some _ |- _ => by rewrite lookup_nil in H end.
  - unfold tokensOf in Hdup, Hnew. rewrite fmap_cons in Hdup, Hnew. simpl in Hdup, Hnew.
    fold (tokensOf reqs) in Hdup, Hnew.
    apply NoDup_cons in Hdup as [Hnotin Hdup].
    destruct (sticky_step pm token now rnd Hwf Hmode Hup Hne)
      as (p & a & pm1 & Hp & Hsel & Hurl & Hwf1 & Hmode1 & Hup1 & Hps & Hci & Hpm).
    { apply Hnew. left. }
    cbn [getProxiesForTokens]. rewrite Hsel.
    destruct (IH pm1 Hwf1 Hmode1 Hup1) as (agents & Hag & Hlen & Hidx & Hasg & Hrest).
    { by rewrite Hps. }
    { done. }
    { intros t Ht. rewrite Hpm. rewrite lookup_insert_ne.
      - apply Hnew. by right.
      - intros ->. done. }
    destruct (getProxiesForTokens pm1 reqs) as [pm2 r]. simpl in *. subst r.
    exists (a :: agents). split_and!.
    + done.
    + simpl. by rewrite Hlen.
    + intros [|j] b Hb; simpl in Hb.
      * injection Hb as <-. exists p. by rewrite Nat.add_0_r.
      * destruct (Hidx j b Hb) as (q & Hq & Hu). exists q. split; [|done].
        rewrite Hps, Hci in Hq. rewrite <- Hq. f_equal. f_equal. lia.
    + intros [|j] t b Ht Hb; simpl in Ht, Hb.
      * injection Ht as <-. injection Hb as <-.
        rewrite (Hrest token Hnotin), Hpm. by rewrite lookup_insert_eq.
      * by eapply Hasg.
    + intros t Ht. change (t ∉ token :: tokensOf reqs) in Ht.
      apply not_elem_of_cons in Ht as [Hne' Ht].
      rewrite (Hrest t Ht), Hpm. by rewrite lookup_insert_ne.
Qed.

Lemma sticky_spreads_new_tokens_witness :
  wf (proxyManager twoProxyClient)
  ∧ rotationMode (proxyManager twoProxyClient) = sticky
  ∧ allUp (proxyManager twoProxyClient)
  ∧ NoDup (tokensOf [("first", 1000, Js.mkRand 0 1); ("second", 1001, Js.mkRand 0 1)])
  ∧ ∃ agents,
      snd (getProxiesForTokens (proxyManager twoProxyClient)
             [("first", 1000, Js.mkRand 0 1); ("second", 1001, Js.mkRand 0 1)])
      = Some <$> agents
      ∧ length agents = 2%nat.
Proof.
  assert (allUp (proxyManager twoProxyClient)) as Hup.
  { unfold allUp. simpl. repeat constructor. }
  assert (NoDup (tokensOf [("first", 1000, Js.mkRand 0 1);
                           ("second", 1001, Js.mkRand 0 1)])) as Hdup.
  { apply (bool_decide_unpack _). vm_compute. exact I. }
  split_and!; [exact twoProxyManager_wf|reflexivity|exact Hup|exact Hdup|].
  destruct (sticky_spreads_new_tokens (proxyManager twoProxyClient)
              [("first", 1000, Js.mkRand 0 1); ("second", 1001, Js.mkRand 0 1)]
              twoProxyManager_wf eq_refl Hup)
    as (agents & Hsel & Hlen & _).
  - discriminate.
  - exact Hdup.
  - intros token _. reflexivity.
  - exists agents. split; assumption.
Defined.

(** ** The passes of [makeRequest], counted *)

Section Passes.
Implicit Types (c : TwitterClient) (options : RequestOptions) (env : DerivationEnv)
  (att : Attempt) (script : list Attempt) (err : JsError)
  (again : TwitterClient → option Outcome).

Lemma catchClause_cases again c3 options agent sent att retryCount maxRetries err c' r sents :
  catchClause again c3 options agent sent att retryCount maxRetries err = Some (c', r, sents) →
  sents = [sent]
  ∨ (retryCount < maxRetries
     ∧ ∃ c4 more, again c4 = Some (c', r, more) ∧ sents = sent :: more).
Proof.
  unfold catchClause. destruct agent as [failed|]; [|intros [= <- <- <-]; by left].
  destruct (isRetryableError err); [|intros [= <- <- <-]; by left].
  destruct (Z.ltb_spec retryCount maxRetries) as [Hlt|_]; [|intros [= <- <- <-]; by left].
  cbn [andb]. destruct (getRandomAgent _ _ _) as [pm5 [new|]];
    [|intros [= <- <- <-]; by left].
  destruct (negb (same_agent new failed)); [|intros [= <- <- <-]; by left].
  destruct (again _) as [[[c'' r'] more]|] eqn:Ha; [|done].
  intros [= <- <- <-]. right. split; [done|]. by eexists _, _.
Qed.

End Passes.

(** X10: the retry budget bounds the transport calls of one [makeRequest]: it
    sends at most one request more than the retries left, three with the
    defaults, whatever the proxies and the network do. *)
Theorem makeRequest_bounded (c : TwitterClient) (target : RequestTarget)
    (options : RequestOptions) (retryCount maxRetries : Z) (env : DerivationEnv)
    (script : list Attempt) (c' : TwitterClient)
    (r : Js.Completion JsError ResponseData) (sents : list Sent)
    (Hrun : makeRequest c target options retryCount maxRetries env script
            = Some (c', r, sents)) :
  (length sents <= 1 + Z.to_nat (maxRetries - retryCount))%nat.
Proof.
  revert c retryCount c' r sents Hrun.
  induction script as [|att rest IH]; intros c retryCount c' r sents.
  - cbn [makeRequest]. destruct (negb (Js.truthy (authToken options))); [|done].
    intros [= <- <- <-]. simpl. lia.
  - cbn [makeRequest]. destruct (negb (Js.truthy (authToken options))).
    { intros [= <- <- <-]. simpl. lia. }
    destruct (getCSRFToken c (authToken options) false env (csrfTime att) (csrfDraw att))
      as [[c1 [t|e]] reqs]; [|intros [= <- <- <-]; simpl; lia].
    destruct (getAgent _ _ _ _) as [pm2 ag].
    destruct (urlPath target); [|intros [= <- <- <-]; simpl; lia].
    assert (∀ c3 err,
              catchClause
                (λ c4, makeRequest c4 target options (retryCount + 1) maxRetries env rest)
                c3 options ag
                (mkSent ag t (default "GET" (orElse (method options) None)))
                att retryCount maxRetries err = Some (c', r, sents) →
              (length sents <= 1 + Z.to_nat (maxRetries - retryCount))%nat) as Hcatch.
    { intros c3 err Hc.
      destruct (catchClause_cases _ _ _ _ _ _ _ _ _ _ _ _ Hc)
        as [->|(Hlt & c4 & more & Hagain & ->)]; [simpl; lia|].
      apply IH in Hagain. simpl. lia. }
    destruct (fetchResult att) as [response|err]; [|apply Hcatch].
    destruct (r_text response) as [text|err]; [|apply Hcatch].
    intros [= <- <- <-]. simpl. lia.
Qed.

Lemma makeRequest_bounded_witness :
  ∃ c' r sents,
    makeRequest twoProxyClient sampleTarget sampleOptions 0 2 sampleEnv
      [refusedAttempt (Js.mkRand 1 2); successfulAttempt] = Some (c', r, sents)
    ∧ (length sents <= 3)%nat.
Proof.
  destruct (makeRequest twoProxyClient sampleTarget sampleOptions 0 2 sampleEnv
              [refusedAttempt (Js.mkRand 1 2); successfulAttempt])
    as [[[c' r] sents]|] eqn:Hrun; [|vm_compute in Hrun; discriminate Hrun].
  exists c', r, sents. split; [reflexivity|].
  exact (makeRequest_bounded _ _ _ _ _ _ _ _ _ _ Hrun).
Defined.

(** ** A pass that gets an answer *)

Section Answer.
Implicit Types (c : TwitterClient) (options : RequestOptions) (env : DerivationEnv)
  (att : Attempt) (pm : ProxyManager).

Lemma getCSRFToken_wf c token silent env now rnd :
  wf (proxyManager c) →
  wf (proxyManager (fst (fst (getCSRFToken c token silent env now rnd)))).
Proof.
  intros Hwf. unfold getCSRFToken.
  destruct (tokenCache c !! token) as [cached|].
  - by destruct (logCt0 silent "cached.ct0" (ct0 cached)).
  - destruct (fetchCSRFToken_total token env) as (r & -> & _).
    pose proof (getProxyForToken_wf (proxyManager c) token now rnd Hwf) as Hwf1.
    unfold getAgent. destruct (getProxyForToken _ _ _ _) as [pm1 a].
    by destruct (logCt0 silent "ct0" (ct0_value r)).
Qed.

(** The record of a proxy after a success has been filed under it. *)
Lemma markProxySuccess_record pm a u now :
  wf pm → getProxyUrlForAgent pm a = Some u →
  ∃ h, getProxyUrlForAgent (markProxySuccess pm now u) a = Some u
       ∧ health_get u (proxyHealth (markProxySuccess pm now u)) = Some h
       ∧ failures h = 0 ∧ isHealthy h = true ∧ lastSuccess h = Some now.
Proof.
  intros Hwf Hu.
  destruct (findUrlOfAgent_Some _ _ _ Hu) as (h0 & Hin & Hid).
  pose proof (wfHealth_get _ _ _ _ Hwf Hin) as Hget.
  pose proof (markProxySuccess_wf pm now u Hwf) as Hwf'.
  unfold markProxySuccess in *. rewrite Hget in *. simpl in *.
  eexists. split_and!; [|apply health_get_set_eq|done..].
  unfold getProxyUrlForAgent. simpl.
  rewrite (findUrlOfAgent_by_id _ a (agent h0)).
  - change (agent h0)
      with (agent (mkHealth (agent h0) 0 (lastFailure h0) (Some now) true)).
    eapply findUrlOfAgent_of_get; [exact Hwf'|]. apply health_get_set_eq.
  - unfold same_agent. apply Nat.eqb_eq. done.
Qed.

End Answer.

(** X11: a response is a success of the proxy, whatever its status.  When the
    transport call of a pass resolves and its body can be read, [makeRequest]
    returns the envelope of that response, with the parsed body or, when the
    body is no JSON, its text, after exactly one request; and the record of
    the proxy the request went through is marked healthy with a failure count
    of zero and the time of the answer as its last success. *)
Theorem makeRequest_answer (c : TwitterClient) (target : RequestTarget) (path : string)
    (options : RequestOptions) (retryCount maxRetries : Z) (env : DerivationEnv)
    (att : Attempt) (rest : list Attempt) (csrf : Js.Value)
    (response : FetchResponse) (text : string)
    (Hwf : wf (proxyManager c))
    (Hauth : Js.truthy (authToken options) = true)
    (Hurl : urlPath target = Some path)
    (Hcsrf : csrfOf c options env att = Js.Normal csrf)
    (Hresp : fetchResult att = Js.Normal response)
    (Htext : r_text response = Js.Normal text) :
  ∃ c',
    makeRequest c target options retryCount maxRetries env (att :: rest)
    = Some (c',
            Js.Normal
              (mkResponseData (r_ok response) (r_status response) (r_statusText response)
                 (r_headers response) (default (BodyText text) (r_json response))),
            [sentBy c options env att])
    ∧ ∀ a, sent_via (sentBy c options env att) = Some a →
           ∃ u h,
             getProxyUrlForAgent (proxyManager c') a = Some u
             ∧ health_get u (proxyHealth (proxyManager c')) = Some h
             ∧ failures h = 0 ∧ isHealthy h = true
             ∧ lastSuccess h = Some (settleTime att).
Proof.
  cbn [makeRequest]. rewrite Hauth. cbn [negb]. unfold sentBy, atFetch.
  destruct (csrfOf_Normal _ _ _ _ _ Hcsrf) as (c1 & reqs & Hg & _).
  pose proof (getCSRFToken_wf c (authToken options) false env (csrfTime att)
                (csrfDraw att) Hwf) as Hwf1.
  rewrite Hg in *. cbn [fst] in Hwf1.
  pose proof (exec_wf (proxyManager c1)
                (CallGetProxyForToken (authToken options) (selectTime att) (selectDraw att))
                Hwf1) as Hwf2.
  pose proof (selected_resolves (proxyManager c1)
                (CallGetProxyForToken (authToken options) (selectTime att) (selectDraw att)))
    as Hsel.
  cbn [exec] in Hwf2, Hsel. unfold getAgent.
  destruct (getProxyForToken (proxyManager c1) (authToken options) (selectTime att)
              (selectDraw att)) as [pm2 ag].
  cbn [fst snd] in *. rewrite Hurl, Hresp, Htext.
  eexists. split; [reflexivity|]. cbn [proxyManager sent_via].
  intros a ->. destruct (Hsel a Hwf1 eq_refl) as (u & Hu & _).
  rewrite (reportOutcome_at markProxySuccess pm2 a u (settleTime att) Hwf2 Hu).
  destruct (markProxySuccess_record pm2 a u (settleTime att) Hwf2 Hu)
    as (h & H1 & H2 & H3 & H4 & H5).
  by exists u, h.
Qed.

Lemma makeRequest_answer_witness :
  wf (proxyManager oneProxyClient)
  ∧ csrfOf oneProxyClient sampleOptions sampleEnv successfulAttempt
    = Js.Normal (Js.Str "abc")
  ∧ ∃ c',
      makeRequest oneProxyClient sampleTarget sampleOptions 0 2 sampleEnv
        [successfulAttempt]
      = Some (c', Js.Normal (mkResponseData true 200 "OK" [] (BodyObject None)),
              [sentBy oneProxyClient sampleOptions sampleEnv successfulAttempt]).
Proof.
  assert (wf (proxyManager oneProxyClient)) as Hwf by apply loaded_wf.
  split; [exact Hwf|]. split; [reflexivity|].
  destruct (makeRequest_answer oneProxyClient sampleTarget
              "/i/api/1.1/statuses/update.json" sampleOptions 0 2 sampleEnv
              successfulAttempt [] (Js.Str "abc")
              (mkFetchResponse true 200 "OK" [] (Js.Normal "{}") (Some (BodyObject None)))
              "{}" Hwf eq_refl eq_refl eq_refl eq_refl eq_refl) as (c' & Hrun & _).
  exists c'. exact Hrun.
Defined.

(** ** The refresh of the ct0 *)

Lemma matchCt0_includes (stop : ascii → bool) (s t : string) :
  matchCt0 stop s = Some t → Js.includes "ct0=" s = true.
Proof.
  induction s as [|a s IH]; [done|].
  cbn [matchCt0 Js.includes].
  destruct (Js.startsWith "ct0=" (String a s)); [done|].
  intros H. rewrite (IH H). apply orb_true_r.
Qed.

(** X12: a ct0 that comes back in the [set-cookie] header of a response
    replaces the cached one: the next [getCSRFToken] for the same auth token
    returns it, without a request. *)
Theorem makeRequest_refreshes_ct0 (c : TwitterClient) (target : RequestTarget)
    (path : string) (options : RequestOptions) (retryCount maxRetries : Z)
    (env : DerivationEnv) (att : Attempt) (rest : list Attempt) (csrf : Js.Value)
    (response : FetchResponse) (text setCookie newCt0 : string)
    (Hauth : Js.truthy (authToken options) = true)
    (Hurl : urlPath target = Some path)
    (Hcsrf : csrfOf c options env att = Js.Normal csrf)
    (Hresp : fetchResult att = Js.Normal response)
    (Htext : r_text response = Js.Normal text)
    (Hcookie : assoc "set-cookie" (r_headers response) = Some setCookie)
    (Hmatch : matchCt0 semicolon setCookie = Some newCt0) :
  ∃ c' r sents,
    makeRequest c target options retryCount maxRetries env (att :: rest)
    = Some (c', r, sents)
    ∧ ∀ silent env' now rnd,
        getCSRFToken c' (authToken options) silent env' now rnd
        = (c', Js.Normal (Js.Str newCt0), []).
Proof.
  cbn [makeRequest]. rewrite Hauth. cbn [negb].
  destruct (csrfOf_Normal _ _ _ _ _ Hcsrf) as (c1 & reqs & -> & (entry & s & Hhit & Hs)).
  destruct (getAgent _ _ _ _) as [pm2 ag].
  rewrite Hurl, Hresp, Htext. eexists _, _, _. split; [reflexivity|].
  intros silent env' now rnd. unfold getCSRFToken, logCt0, refreshCt0. cbn [tokenCache].
  rewrite Hcookie.
  assert (setCookie ≠ "") as Hne.
  { intros ->. by vm_compute in Hmatch. }
  rewrite (proj2 (orElse_None_Some (Some setCookie) setCookie)) by done.
  rewrite (matchCt0_includes _ _ _ Hmatch), Hmatch.
  rewrite (proj2 (orElse_None_Some (Some newCt0) newCt0))
    by (split; [done|by eapply matchCt0_nonempty]).
  rewrite Hhit. rewrite lookup_insert_eq. cbn [ct0]. by destruct silent.
Qed.

Lemma makeRequest_refreshes_ct0_witness :
  csrfOf oneProxyClient sampleOptions sampleEnv
    (mkAttempt 3000 (Js.mkRand 0 1) 3000 (Js.mkRand 0 1)
       (Js.Normal (mkFetchResponse true 200 "OK" [("set-cookie", "ct0=fresh; Path=/")]
                     (Js.Normal "{}") (Some (BodyObject None))))
       4000 (Js.mkRand 0 1))
  = Js.Normal (Js.Str "abc")
  ∧ matchCt0 semicolon "ct0=fresh; Path=/" = Some "fresh"
  ∧ ∃ c' r sents,
      makeRequest oneProxyClient sampleTarget sampleOptions 0 2 sampleEnv
        [mkAttempt 3000 (Js.mkRand 0 1) 3000 (Js.mkRand 0 1)
           (Js.Normal (mkFetchResponse true 200 "OK" [("set-cookie", "ct0=fresh; Path=/")]
                         (Js.Normal "{}") (Some (BodyObject None))))
           4000 (Js.mkRand 0 1)]
      = Some (c', r, sents)
      ∧ getCSRFToken c' "token" false sampleEnv 5000 (Js.mkRand 0 1)
        = (c', Js.Normal (Js.Str "fresh"), []).
Proof.
  split; [reflexivity|]. split; [reflexivity|].
  destruct (makeRequest_refreshes_ct0 oneProxyClient sampleTarget
              "/i/api/1.1/statuses/update.json" sampleOptions 0 2 sampleEnv
              (mkAttempt 3000 (Js.mkRand 0 1) 3000 (Js.mkRand 0 1)
                 (Js.Normal (mkFetchResponse true 200 "OK"
                               [("set-cookie", "ct0=fresh; Path=/")]
                               (Js.Normal "{}") (Some (BodyObject None))))
                 4000 (Js.mkRand 0 1))
              [] (Js.Str "abc")
              (mkFetchResponse true 200 "OK" [("set-cookie", "ct0=fresh; Path=/")]
                 (Js.Normal "{}") (Some (BodyObject None)))
              "{}" "ct0=fresh; Path=/" "fresh"
              eq_refl eq_refl eq_refl eq_refl eq_refl eq_refl eq_refl)
    as (c' & r & sents & Hrun & Hnext).
  exists c', r, sents. split; [exact Hrun|]. apply Hnext.
Defined.

(** ** Which failures are retried *)

(** X13: the tag of a failure and the decision to retry it.  An error the
    [catch] clause tags as a network error, a timeout or a failed connection
    is always one [isRetryableError] accepts.  One tagged as a plain request
    failure is accepted exactly when its message names [ETIMEDOUT] or its code
    is [ECONNRESET], and one tagged as a TLS error exactly when, on top of
    that, its message may also hold [fetch failed]. *)
Theorem retryable_by_kind (err : JsError) :
  match failureKind err with
  | NetworkError | RequestTimeout | ConnectionFailed => isRetryableError err = true
  | RequestFailed =>
      isRetryableError err
      = Js.includes "ETIMEDOUT" (message err) || codeEq err "ECONNRESET"
  | TlsError =>
      isRetryableError err
      = Js.includes "ETIMEDOUT" (message err) || Js.includes "fetch failed" (message err)
        || codeEq err "ECONNRESET"
  end.
Proof.
  unfold failureKind, isRetryableError.
  destruct (Js.includes "ECONNREFUSED" (message err)); [done|].
  destruct (Js.includes "ENOTFOUND" (message err)); [done|].
  destruct (codeEq err "ENOTFOUND"); [by rewrite ?orb_true_r|].
  destruct (codeEq err "ECONNREFUSED"); [by rewrite ?orb_true_r|].
  destruct (Js.includes "timeout" (message err)); [done|].
  destruct (codeEq err "ETIMEDOUT"); [by rewrite ?orb_true_r|].
  cbn [orb].
  destruct (Js.includes "certificate" (message err) || Js.includes "SSL" (message err)
            || codeEq err "CERT_HAS_EXPIRED");
    destruct (Js.includes "fetch failed" (message err)) eqn:Hff;
    destruct (String.eqb (message err) "fetch failed") eqn:He;
    destruct (Js.includes "ETIMEDOUT" (message err)), (codeEq err "ECONNRESET");
    try done.
  all: apply eqb_true in He; rewrite He in Hff; by vm_compute in Hff.
Qed.

(** ** The table of overrides and the requests of a derivation *)

(** X14: the table at work.  For each of its two keys [fetchCSRFToken] returns
    the ct0 written next to it and issues no request; for every other auth
    token that is no name of [Object.prototype] the table answers [undefined],
    the result is no override, and, once the HTTP/2 module is loaded, the
    first derivation request has been sent. *)
Theorem fetchCSRFToken_own_overrides :
  (∀ env, fetchCSRFToken overrideToken1 env
          = Js.Normal (mkCt0 (Js.Str overrideCt0_1) FromOverride []))
  ∧ (∀ env, fetchCSRFToken overrideToken2 env
            = Js.Normal (mkCt0 (Js.Str overrideCt0_2) FromOverride []))
  ∧ ∀ token env,
      token ≠ overrideToken1 → token ≠ overrideToken2 → token ∉ Js.prototypeNames →
      Js.get CT0_OVERRIDES token = None
      ∧ ∃ r, fetchCSRFToken token env = Js.Normal r
             ∧ ct0_source r ≠ FromOverride
             ∧ (moduleLoad env = Js.Normal tt →
                ∃ rest, ct0_requests r = credentialsUrl :: rest).
Proof.
  split_and!.
  - intros env. unfold fetchCSRFToken, fetchCSRFToken_try. by rewrite overrideFor_1.
  - intros env. unfold fetchCSRFToken, fetchCSRFToken_try. by rewrite overrideFor_2.
  - intros token env H1 H2 Hp. split.
    { unfold Js.get. rewrite CT0_OVERRIDES_other by done.
      by rewrite bool_decide_eq_false_2. }
    unfold fetchCSRFToken, fetchCSRFToken_try, fetchCSRFToken_catch.
    rewrite (overrideFor_other token H1 H2 Hp).
    destruct (moduleLoad env) as [[]|e]; [|by eexists; split_and!].
    destruct (credentialsResponse env) as [resp|e]; [|by eexists; split_and!; eauto].
    destruct (from_option (matchCt0 semicolon) None
                (orElse (headers_get resp "set-cookie") None));
      [by eexists; split_and!; eauto|].
    destruct (matchCt0 semicolonCommaSpace _); [by eexists; split_and!; eauto|].
    destruct (homeResponse env) as [home|e]; [|by eexists; split_and!; eauto].
    destruct (matchCt0 semicolon _); by eexists; split_and!; eauto.
Qed.

Lemma fetchCSRFToken_own_overrides_witness :
  "token" ≠ overrideToken1 ∧ "token" ≠ overrideToken2
  ∧ ("token" ∉ Js.prototypeNames)
  ∧ Js.get CT0_OVERRIDES "token" = None
  ∧ ∃ r, fetchCSRFToken "token" sampleEnv = Js.Normal r ∧ ct0_source r ≠ FromOverride.
Proof.
  assert ("token" ≠ overrideToken1) as H1 by discriminate.
  assert ("token" ≠ overrideToken2) as H2 by discriminate.
  assert ("token" ∉ Js.prototypeNames) as Hp
    by (apply (bool_decide_unpack _); vm_compute; exact I).
  split_and!; [exact H1|exact H2|exact Hp|..];
    destruct (proj2 (proj2 fetchCSRFToken_own_overrides) "token" sampleEnv H1 H2 Hp)
      as (Hnone & r & Hrun & Hsrc & _).
  - exact Hnone.
  - exists r. split; assumption.
Defined.

(** A new client, and a derivation that meets a refused connection. *)
Lemma getCSRFToken_string_witness :
  ("token" ∉ Js.prototypeNames)
  ∧ tokenCache newTwitterClient !! "token" = None
  ∧ derivationFails "token" failingEnv
  ∧ ∃ c' t,
      getCSRFToken newTwitterClient "token" false failingEnv 1000 (Js.mkRand 0 1)
      = (c', Js.Normal (Js.Str t), [credentialsUrl])
      ∧ t ≠ "" ∧ t = "00112233445566778899aabbccddeeff".
Proof.
  assert ("token" ∉ Js.prototypeNames) as Hp
    by (apply (bool_decide_unpack _); vm_compute; exact I).
  assert (derivationFails "token" failingEnv) as Hfails by exact I.
  split_and!; [exact Hp|reflexivity|exact Hfails|].
  destruct (proj2 (getCSRFToken_string newTwitterClient "token" false failingEnv
                     1000 (Js.mkRand 0 1) Hp) eq_refl)
    as (c' & t & Hrun & Hne & _ & Hfb).
  exists c', t. split_and!; [exact Hrun|exact Hne|].
  destruct (Hfb Hfails) as [-> _]. reflexivity.
Defined.

(** The characters of a capture. *)
Lemma takeWhile_excludes (f : ascii → bool) (c : ascii) (s : string) :
  f c = false → Js.includes (String c "") (takeWhile f s) = false.
Proof.
  intros Hc. induction s as [|a s IH]; [done|].
  cbn [takeWhile]. destruct (f a) eqn:Ha; [|done].
  cbn [Js.includes Js.startsWith]. rewrite IH.
  destruct (Ascii.eqb_spec c a) as [->|_]; [congruence|done].
Qed.

Lemma matchCt0_excludes (stop : ascii → bool) (c : ascii) (s t : string) :
  stop c = true → matchCt0 stop s = Some t → Js.includes (String c "") t = false.
Proof.
  intros Hc. induction s as [|a s IH]; [done|].
  cbn [matchCt0]. destruct (Js.startsWith "ct0=" (String a s)); [|done].
  destruct (takeWhile (λ c0, negb (stop c0)) (dropChars 4 (String a s))) eqn:Ht;
    [done|].
  intros [= <-]. rewrite <- Ht. apply takeWhile_excludes. by rewrite Hc.
Qed.

(** X16: the requests of a derivation.  [fetchCSRFToken] always returns; it
    issues no request, or the credentials request, or the credentials request
    followed by the request for the home page, and nothing else; an override
    costs no request; and a ct0 taken from a response is a string that is not
    empty and holds no semicolon. *)
Theorem fetchCSRFToken_requests (token : string) (env : DerivationEnv) :
  ∃ r, fetchCSRFToken token env = Js.Normal r
       ∧ (ct0_requests r = [] ∨ ct0_requests r = [credentialsUrl]
          ∨ ct0_requests r = [credentialsUrl; homeUrl])
       ∧ (ct0_source r = FromOverride → ct0_requests r = [])
       ∧ (ct0_source r = FromNetwork →
          ct0_requests r ≠ []
          ∧ ∃ t, ct0_value r = Js.Str t ∧ t ≠ "" ∧ Js.includes ";" t = false).
Proof.
  assert (∀ s t, matchCt0 semicolon s = Some t → t ≠ "" ∧ Js.includes ";" t = false)
    as Hsemi.
  { intros s t Hm. split; [by eapply matchCt0_nonempty|].
    by eapply (matchCt0_excludes semicolon ";"). }
  assert (∀ s t, matchCt0 semicolonCommaSpace s = Some t →
                 t ≠ "" ∧ Js.includes ";" t = false) as Hscs.
  { intros s t Hm. split; [by eapply matchCt0_nonempty|].
    by eapply (matchCt0_excludes semicolonCommaSpace ";"). }
  unfold fetchCSRFToken, fetchCSRFToken_try, fetchCSRFToken_catch.
  destruct (overrideFor token) as [o|]; [eexists; split_and!; by eauto|].
  destruct (moduleLoad env) as [[]|e]; [|eexists; split_and!; by eauto].
  destruct (credentialsResponse env) as [resp|e]; [|eexists; split_and!; by eauto].
  destruct (from_option (matchCt0 semicolon) None
              (orElse (headers_get resp "set-cookie") None)) as [t1|] eqn:H1.
  { destruct (orElse (headers_get resp "set-cookie") None) as [sc|]; [|done].
    simpl in H1. destruct (Hsemi _ _ H1).
    eexists; split_and!; [done|by eauto|done|]. intros _. split; [done|]. by exists t1. }
  destruct (matchCt0 semicolonCommaSpace _) as [t2|] eqn:H2.
  { destruct (Hscs _ _ H2).
    eexists; split_and!; [done|by eauto|done|]. intros _. split; [done|]. by exists t2. }
  destruct (homeResponse env) as [home|e]; [|eexists; split_and!; by eauto].
  destruct (matchCt0 semicolon _) as [t3|] eqn:H3.
  { destruct (Hsemi _ _ H3).
    eexists; split_and!; [done|by eauto|done|]. intros _. split; [done|]. by exists t3. }
  eexists; split_and!; by eauto.
Qed.

(** ** [parseAuthToken] and the cookie of [getBaseHeaders] *)

Section Cookie.
Implicit Types (s t p sep cur rest : string) (c : ascii).

Lemma app_cons c s t : String c s +:+ t = String c (s +:+ t).
Proof. reflexivity. Qed.

Lemma app_nil_l t : "" +:+ t = t.
Proof. reflexivity. Qed.

Lemma append_nil_r s : s +:+ "" = s.
Proof. induction s as [|a s IH]; [done|]. by rewrite app_cons, IH. Qed.

Lemma append_assoc' s t p : (s +:+ t) +:+ p = s +:+ (t +:+ p).
Proof. induction s as [|a s IH]; [done|]. by rewrite !app_cons, IH. Qed.

Lemma rev_app_spec s t : String.rev_app s t = String.rev s +:+ t.
Proof.
  unfold String.rev. revert t. induction s as [|a s IH]; intros t; [done|].
  cbn [String.rev_app]. rewrite (IH (String a t)), (IH (String a "")).
  by rewrite append_assoc', app_cons, app_nil_l.
Qed.

Lemma rev_cons c s : String.rev (String c s) = String.rev s +:+ String c "".
Proof. unfold String.rev at 1. cbn [String.rev_app]. apply rev_app_spec. Qed.

(** The piece under construction stays at the head of the result. *)
Lemma splitOn_go_head sep s skip cur :
  ∃ first more, splitOn_go sep skip cur s = (String.rev cur +:+ first) :: more.
Proof.
  revert skip cur. induction s as [|c s IH]; intros skip cur.
  - exists "", []. cbn [splitOn_go]. by rewrite append_nil_r.
  - cbn [splitOn_go]. destruct skip as [|k]; [|apply IH].
    destruct (Js.startsWith sep (String c s)).
    + eexists "", _. by rewrite append_nil_r.
    + destruct (IH 0%nat (String c cur)) as (first & more & ->).
      exists (String c first), more. by rewrite rev_cons, append_assoc'.
Qed.

Lemma split_go_head (sep : ascii) s cur :
  ∃ first more, Js.split_go sep cur s = (String.rev cur +:+ first) :: more.
Proof.
  revert cur. induction s as [|c s IH]; intros cur.
  - exists "", []. cbn [Js.split_go]. by rewrite append_nil_r.
  - cbn [Js.split_go]. destruct (Ascii.eqb c sep).
    + eexists "", _. by rewrite append_nil_r.
    + destruct (IH (String c cur)) as (first & more & ->).
      exists (String c first), more. by rewrite rev_cons, append_assoc'.
Qed.

(** Where the separator occurs there is a second piece. *)
Lemma splitOn_go_second sep s cur :
  Js.includes sep s = true → sep ≠ "" →
  ∃ x, splitOn_go sep 0 cur s !! 1%nat = Some x.
Proof.
  intros Hin Hsep. revert cur Hin. induction s as [|c s IH]; intros cur Hin.
  - simpl in Hin. destruct sep; [done|]. by simpl in Hin.
  - cbn [splitOn_go]. cbn [Js.includes] in Hin.
    destruct (Js.startsWith sep (String c s)).
    + destruct (splitOn_go_head sep s (String.length sep - 1) "") as (f & m & ->).
      by eexists.
    + apply IH. by rewrite orb_false_l in Hin.
Qed.

(** A character that the prefix does not hold cannot complete it. *)
Lemma startsWith_across p s c rest :
  Js.startsWith p s = false → Js.includes (String c "") p = false →
  Js.startsWith p (s +:+ String c rest) = false.
Proof.
  revert s. induction p as [|b p IH]; intros s Hs Hc; [done|].
  cbn [Js.includes Js.startsWith] in Hc.
  apply orb_false_elim in Hc as [Hb Hp].
  destruct s as [|a s].
  - rewrite app_nil_l. cbn [Js.startsWith].
    destruct (Ascii.eqb_spec b c) as [->|_]; [|done].
    by rewrite Ascii.eqb_refl in Hb.
  - rewrite app_cons. cbn [Js.startsWith] in Hs |- *.
    destruct (Ascii.eqb b a); [|done]. by apply IH.
Qed.

(** A stretch without separator goes to the piece under construction. *)
Lemma splitOn_go_through sep t c rest cur :
  Js.includes sep t = false → Js.includes (String c "") sep = false → sep ≠ "" →
  ∃ first more,
    splitOn_go sep 0 cur (t +:+ String c rest)
    = (String.rev cur +:+ t +:+ String c first) :: more.
Proof.
  intros Ht Hc Hsep. revert cur Ht. induction t as [|a t IH]; intros cur Ht.
  - rewrite app_nil_l. cbn [splitOn_go].
    replace (Js.startsWith sep (String c rest)) with false.
    + destruct (splitOn_go_head sep rest 0 (String c cur)) as (f & m & ->).
      exists f, m. by rewrite rev_cons, append_assoc', app_nil_l.
    + symmetry. apply (startsWith_across sep "" c rest); [|done]. by destruct sep.
  - cbn [Js.includes] in Ht. apply orb_false_elim in Ht as [Hs Ht].
    pose proof (startsWith_across sep (String a t) c rest Hs Hc) as Hx.
    rewrite app_cons in Hx |- *. cbn [splitOn_go]. rewrite Hx.
    destruct (IH (String a cur) Ht) as (f & m & ->).
    exists f, m. by rewrite rev_cons, !append_assoc', !app_cons, app_nil_l.
Qed.

Lemma split_go_through (sep : ascii) t rest cur :
  Js.includes (String sep "") t = false →
  ∃ more, Js.split_go sep cur (t +:+ String sep rest) = (String.rev cur +:+ t) :: more.
Proof.
  revert cur. induction t as [|a t IH]; intros cur Ht.
  - rewrite app_nil_l. cbn [Js.split_go]. rewrite Ascii.eqb_refl.
    exists (Js.split_go sep "" rest). by rewrite append_nil_r.
  - cbn [Js.includes Js.startsWith] in Ht. apply orb_false_elim in Ht as [Ha Ht].
    rewrite app_cons. cbn [Js.split_go]. rewrite Ascii.eqb_sym.
    destruct (Ascii.eqb sep a); [done|].
    destruct (IH (String a cur) Ht) as (m & ->).
    exists m. by rewrite rev_cons, append_assoc', app_cons, app_nil_l.
Qed.

Lemma takeWhile_all (f : ascii → bool) t :
  (∀ c, f c = false → Js.includes (String c "") t = false) → takeWhile f t = t.
Proof.
  induction t as [|a t IH]; intros Ht; [done|].
  cbn [takeWhile]. destruct (f a) eqn:Ha.
  - f_equal. apply IH. intros c Hc. specialize (Ht c Hc).
    cbn [Js.includes] in Ht. by apply orb_false_elim in Ht as [_ ?].
  - specialize (Ht a Ha). cbn [Js.includes Js.startsWith] in Ht.
    by rewrite Ascii.eqb_refl in Ht.
Qed.

Lemma matchCt0_skip (stop : ascii → bool) t rest c :
  Js.includes "ct0=" t = false → Js.includes (String c "") "ct0=" = false →
  matchCt0 stop (t +:+ String c rest) = matchCt0 stop (String c rest).
Proof.
  intros Ht Hc. induction t as [|a t IH]; [done|].
  cbn [Js.includes] in Ht. apply orb_false_elim in Ht as [Hs Ht].
  pose proof (startsWith_across "ct0=" (String a t) c rest Hs Hc) as Hx.
  rewrite app_cons in Hx |- *. cbn [matchCt0]. rewrite Hx. by apply IH.
Qed.

Lemma splitOn_go_skip sep p s cur :
  splitOn_go sep (String.length p) cur (p +:+ s) = splitOn_go sep 0 cur s.
Proof.
  induction p as [|a p IH]; [by destruct s|].
  rewrite app_cons. cbn [String.length splitOn_go]. apply IH.
Qed.

(** A separator at the head closes the piece under construction. *)
Lemma splitOn_go_sep sep s cur :
  sep ≠ "" →
  splitOn_go sep 0 cur (sep +:+ s) = String.rev cur :: splitOn_go sep 0 "" s.
Proof.
  intros Hsep. destruct sep as [|a sep]; [done|].
  pose proof (proj2 (startsWith_spec (String a sep) (String a sep +:+ s))) as Hs.
  rewrite app_cons in Hs |- *. cbn [splitOn_go]. rewrite Hs by by exists s.
  cbn [String.length Nat.sub]. rewrite ?Nat.sub_0_r. f_equal. apply splitOn_go_skip.
Qed.

End Cookie.

(** From a string that starts with [auth_token=], the token up to the first
    semicolon is read back. *)
Lemma parseAuthToken_reads (token rest : string) :
  Js.includes ";" token = false → Js.includes "auth_token=" token = false →
  parseAuthToken ("auth_token=" +:+ token +:+ ";" +:+ rest) = Js.Normal (Js.trim token).
Proof.
  intros Hsemi Hsep. unfold parseAuthToken.
  assert (Js.includes "auth_token=" ("auth_token=" +:+ token +:+ ";" +:+ rest) = true)
    as ->.
  { apply includes_spec. by exists "", (token +:+ ";" +:+ rest). }
  unfold splitOn. rewrite splitOn_go_sep by done.
  destruct (splitOn_go_through "auth_token=" token ";" rest "") as (f & m & Hgo);
    [done..|].
  change (";" +:+ rest) with (String ";" rest).
  rewrite Hgo. cbn [lookup list_lookup]. unfold String.rev at 1.
  cbn [String.rev_app]. rewrite app_nil_l.
  destruct (split_go_through ";" token f "" Hsemi) as (m' & Hsp).
  unfold Js.split. rewrite Hsp. cbn [lookup list_lookup]. unfold String.rev.
  cbn [String.rev_app]. by rewrite app_nil_l.
Qed.

(** X17: [parseAuthToken] never throws, and it reads the auth token back from
    a cookie.  An ASCII string without [auth_token=] is returned trimmed.
    From a string that starts with [auth_token=], followed by an ASCII token
    that holds neither a semicolon nor [auth_token=] and then by a semicolon,
    the result is that token, trimmed. *)
Theorem parseAuthToken_cookie :
  (∀ tokenString, ∃ t, parseAuthToken tokenString = Js.Normal t)
  ∧ (∀ tokenString,
       asciiOnly tokenString = true → Js.includes "auth_token=" tokenString = false →
       parseAuthToken tokenString = Js.Normal (Js.trim tokenString))
  ∧ (∀ token rest,
       asciiOnly token = true →
       Js.includes ";" token = false → Js.includes "auth_token=" token = false →
       parseAuthToken ("auth_token=" +:+ token +:+ ";" +:+ rest)
       = Js.Normal (Js.trim token)).
Proof.
  split_and!.
  - intros s. unfold parseAuthToken.
    destruct (Js.includes "auth_token=" s) eqn:Hin; [|by eexists].
    destruct (splitOn_go_second "auth_token=" s "" Hin) as [x Hx]; [done|].
    unfold splitOn. rewrite Hx.
    destruct (split_go_head ";" x "") as (f & m & Hf).
    unfold Js.split. rewrite Hf. by eexists.
  - intros s _ Hs. unfold parseAuthToken. by rewrite Hs.
  - intros token rest _. apply parseAuthToken_reads.
Qed.

(** X18: the cookie that [getBaseHeaders] builds can be read back.  For an
    ASCII auth token that holds no semicolon and neither [auth_token=] nor
    [ct0=],
    and a ct0 that is not empty and holds no semicolon, [parseAuthToken] finds
    the auth token in the [cookie] header, the pattern that looks for a ct0
    finds the ct0 there, and the [x-csrf-token] header carries the same ct0. *)
Theorem getBaseHeaders_cookie (authToken ct0 clientTransactionId : string)
    (Hascii : asciiOnly authToken = true)
    (Hsemi : Js.includes ";" authToken = false)
    (Hauth : Js.includes "auth_token=" authToken = false)
    (Hct0 : Js.includes "ct0=" authToken = false)
    (Hne : ct0 ≠ "")
    (Hval : Js.includes ";" ct0 = false) :
  ∃ cookie,
    assoc "cookie" (getBaseHeaders authToken ct0 clientTransactionId) = Some cookie
    ∧ parseAuthToken cookie = Js.Normal (Js.trim authToken)
    ∧ matchCt0 semicolon cookie = Some ct0
    ∧ assoc "x-csrf-token" (getBaseHeaders authToken ct0 clientTransactionId) = Some ct0.
Proof.
  eexists. split; [reflexivity|]. split_and!; [| |reflexivity].
  - change ("; ct0=" +:+ ct0) with (";" +:+ (" ct0=" +:+ ct0)).
    by apply parseAuthToken_reads.
  - change ("auth_token=" +:+ authToken +:+ "; ct0=" +:+ ct0)
      with (String "a" (String "u" (String "t" (String "h" (String "_" (String "t"
             (String "o" (String "k" (String "e" (String "n" (String "="
                (authToken +:+ String ";" (String " " (String "c" (String "t"
                   (String "0" (String "=" ct0))))))))))))))))).
    cbn [matchCt0 Js.startsWith Ascii.eqb Bool.eqb andb].
    rewrite matchCt0_skip by done.
    cbn [matchCt0 Js.startsWith Ascii.eqb Bool.eqb andb dropChars].
    rewrite takeWhile_all.
    + by destruct ct0.
    + intros c Hc. unfold semicolon in Hc. apply negb_false_iff in Hc.
      apply Ascii.eqb_eq in Hc as ->. exact Hval.
Qed.

Lemma getBaseHeaders_cookie_witness :
  Js.includes ";" "token" = false
  ∧ "abc" ≠ ""
  ∧ assoc "cookie" (getBaseHeaders "token" "abc" "18f-1a2b3c4d-5e6f7a8b-47455400")
    = Some "auth_token=token; ct0=abc"
  ∧ ∃ cookie,
      assoc "cookie" (getBaseHeaders "token" "abc" "18f-1a2b3c4d-5e6f7a8b-47455400")
      = Some cookie
      ∧ parseAuthToken cookie = Js.Normal "token"
      ∧ matchCt0 semicolon cookie = Some "abc".
Proof.
  split; [reflexivity|]. split; [discriminate|]. split; [reflexivity|].
  destruct (getBaseHeaders_cookie "token" "abc" "18f-1a2b3c4d-5e6f7a8b-47455400")
    as (cookie & Hc & Hp & Hm & _);
    [reflexivity|reflexivity|reflexivity|reflexivity|discriminate|reflexivity|].
  exists cookie. split_and!; [exact Hc|exact Hp|exact Hm].
Defined.

(** X19: [randomDelay] stays within its bounds: for integers [min <= max]
    and every value of [Math.random()], the delay lies between [min] and
    [max], both included; and [getRandomTemplate] always finds a template in
    a list that is not empty. *)
Theorem randomDelay_bounds (rnd : Js.Rand01) (min max : Z) (templates : list string)
    (Hrnd : Js.rand_valid rnd) (Hle : min <= max) :
  min <= randomDelay rnd min max <= max
  ∧ (templates ≠ [] → ∃ t, getRandomTemplate rnd templates = Some t ∧ t ∈ templates).
Proof.
  unfold Js.rand_valid in Hrnd. split.
  - unfold randomDelay, floor_mulZ.
    assert (0 < Z.of_nat (Js.rden rnd)) as Hd by lia.
    assert (0 <= Z.of_nat (Js.rnum rnd) * (max - min + 1) / Z.of_nat (Js.rden rnd)) as H0.
    { apply Z.div_pos; [nia|done]. }
    assert (Z.of_nat (Js.rnum rnd) * (max - min + 1) / Z.of_nat (Js.rden rnd)
            < max - min + 1) as H1.
    { apply Z.div_lt_upper_bound; [done|nia]. }
    lia.
  - intros Hne.
    destruct (lookup_lt_is_Some_2 templates (Js.floor_mul rnd (length templates)))
      as [t Ht].
    { apply floor_mul_lt; [done|]. destruct templates; [done|simpl; lia]. }
    exists t. split; [done|]. by eapply list_elem_of_lookup_2.
Qed.

Lemma randomDelay_bounds_witness :
  Js.rand_valid (Js.mkRand 1 3) ∧ 45000 <= 90000
  ∧ randomDelay (Js.mkRand 1 3) 45000 90000 = 60000
  ∧ 45000 <= randomDelay (Js.mkRand 1 3) 45000 90000 <= 90000.
Proof.
  assert (Js.rand_valid (Js.mkRand 1 3)) as Hr by (unfold Js.rand_valid; simpl; lia).
  split; [exact Hr|]. split; [lia|]. split; [reflexivity|].
  apply (randomDelay_bounds (Js.mkRand 1 3) 45000 90000 [] Hr). lia.
Defined.
